(** * devlog-cli: the commit pipeline, verified over a shallow embedding

    The development follows the TypeScript sources module by module:
    - [JsString]: the few [String.prototype] methods the sources call;
    - git.ts: [CommitInfo], [groupCommitsByDate], [getCommitsRange],
      [getRepoName];
    - config.ts: [loadConfig];
    - copilot.ts: [isCopilotCliAvailable], [askCopilot],
      [cleanCopilotOutput], the five generators, [localSummarize];
    - index.ts: the action of the [recap] command.

    How the program is modelled:
    - Text is a Rocq [string], one [ascii] per character. The embedding
      covers ASCII text, where [toLowerCase] folds [A-Z] and [trim]
      strips tab, line feed, vertical tab, form feed, carriage return
      and space.
    - Code that touches the outside runs in the monad [M]: it reads a
      [World] (what the file system, git and the [gh] tool answer during
      the run) and yields the list of its [Event]s and an [Outcome]: a
      value, an exception, or the exit of the process.
    - The two reads of a [Promise.all] are recorded one after the other.
      The program starts both before it waits for either: the order of
      the git calls of one read against those of the other is not the
      program's, and when the first read throws, the calls the second had
      started are left out. What is stated of a run of the [recap] action
      does not depend on this: it speaks of what precedes the reads, of
      what is shown, written and printed, and of the git calls made when
      both reads succeed.
    - The calls into ui.ts are events; the rendering is not modelled.
    - date-fns and [Date] are the parameters of [DateFns]; the
      formatters of export.ts are the parameters of [ExportFns]. *)

From Stdlib Require Import String Ascii List ZArith Lia Bool Permutation Sorted.
From Stdlib Require Import DecimalString.
From stdpp Require Import base option gmap strings.
Import ListNotations.

Open Scope list_scope.
Open Scope string_scope.

#[global] Arguments String.append !_ _ : simpl nomatch.

(* ===================================================================== *)
(** * JavaScript string methods *)
(* ===================================================================== *)

Module JsString.

(** Control characters written by their decimal code. *)
Definition LF : string := String "010"%char "".
Definition CR : ascii := "013"%char.
Definition ESC : ascii := "027"%char.

(** [s.startsWith(p)] *)
Definition startsWith (s p : string) : bool := String.prefix p s.

(** [s.includes(p)] *)
Fixpoint includes (s p : string) : bool :=
  String.prefix p s ||
  match s with
  | "" => false
  | String _ r => includes r p
  end.

(** [s.indexOf(p)], with JavaScript's [-1] for no occurrence. *)
Fixpoint indexOf (s p : string) : Z :=
  if String.prefix p s then 0%Z
  else match s with
       | "" => (-1)%Z
       | String _ r =>
           let i := indexOf r p in
           if (i =? -1)%Z then (-1)%Z else (i + 1)%Z
       end.

(** [s.length] as an integer. *)
Definition len (s : string) : Z := Z.of_nat (String.length s).

(** [s.substring(0, e)] for [0 <= e]. *)
Definition substring0 (s : string) (e : Z) : string :=
  String.substring 0 (Z.to_nat e) s.

(** [xs.join(sep)] *)
Definition join (sep : string) (xs : list string) : string :=
  String.concat sep xs.

Definition isUpper (c : ascii) : bool :=
  (65 <=? nat_of_ascii c)%nat && (nat_of_ascii c <=? 90)%nat.

Definition lowerChar (c : ascii) : ascii :=
  if isUpper c then ascii_of_nat (nat_of_ascii c + 32) else c.

(** [s.toLowerCase()] *)
Fixpoint toLowerCase (s : string) : string :=
  match s with
  | "" => ""
  | String c r => String (lowerChar c) (toLowerCase r)
  end.

Definition isWhiteSpace (c : ascii) : bool :=
  let n := nat_of_ascii c in
  ((9 <=? n)%nat && (n <=? 13)%nat) || (n =? 32)%nat.

Fixpoint trimStart (s : string) : string :=
  match s with
  | "" => ""
  | String c r => if isWhiteSpace c then trimStart r else s
  end.

Fixpoint trimEnd (s : string) : string :=
  match s with
  | "" => ""
  | String c r =>
      match trimEnd r with
      | "" => if isWhiteSpace c then "" else String c ""
      | r' => String c r'
      end
  end.

(** [s.trim()] *)
Definition trim (s : string) : string := trimEnd (trimStart s).

(** [s.split(sep)] for a non-empty separator: one pass over [s]; [skip]
    counts the characters of a matched separator still to pass over and
    [cur] holds the current piece, last character first. *)
Fixpoint split_from (s sep : string) (skip : nat) (cur : list ascii)
  : list string :=
  match s with
  | "" => [string_of_list_ascii (rev cur)]
  | String c r =>
      match skip with
      | S k => split_from r sep k cur
      | O =>
          if String.prefix sep s
          then string_of_list_ascii (rev cur)
                 :: split_from r sep (String.length sep - 1) []
          else split_from r sep 0 (c :: cur)
      end
  end.

Definition split (s sep : string) : list string := split_from s sep 0 [].

(** Number of positions of [s] at which [p] occurs. *)
Fixpoint countOcc (s p : string) : nat :=
  (if String.prefix p s then 1 else 0) +
  match s with
  | "" => 0
  | String _ r => countOcc r p
  end.

End JsString.
Import JsString.


(* ===================================================================== *)
(** * Exceptions *)
(* ===================================================================== *)

(** The value of an expression that may throw. *)
Inductive Result (A : Type) : Type :=
| Ok (a : A)
| Throw (msg : string).
Arguments Ok {A} a.
Arguments Throw {A} msg.

Definition bindR {A B} (r : Result A) (k : A -> Result B) : Result B :=
  match r with
  | Ok a => k a
  | Throw e => Throw e
  end.

Notation "'let?' x ':=' r 'in' k" := (bindR r (fun x => k))
  (at level 10, x name, r at level 100, k at level 200).

(* ===================================================================== *)
(** * git.ts: commits and grouping *)
(* ===================================================================== *)

Record CommitInfo : Type := mkCommit {
  hash : string;
  hashShort : string;
  date : string;
  message : string;
  body : string;
  author : string;
  email : string;
  filesChanged : list string;
  diff : string
}.

Record CommitGroup : Type := mkGroup {
  label : string;
  commits : list CommitInfo
}.

(** The date library [groupCommitsByDate] calls. Instants are epoch
    milliseconds; [None] is JavaScript's Invalid Date (a [NaN] time).
    - [parseISO s]: date-fns [parseISO];
    - [formatDate t pattern]: date-fns [format] of a valid date, in the
      local time zone;
    - [Date_parse s]: [new Date(s).getTime()]. *)
Class DateFns : Type := {
  parseISO : string -> option Z;
  formatDate : Z -> string -> string;
  Date_parse : string -> option Z
}.

(** date-fns [format] throws a [RangeError] on an Invalid Date. *)
Definition format `{DateFns} (d : option Z) (pattern : string) : Result string :=
  match d with
  | Some t => Ok (formatDate t pattern)
  | None => Throw "Invalid time value"
  end.

(** A JavaScript [Map] with string keys: entries in insertion order;
    [set] on a present key replaces the value where it stands. *)
Module JsMap.

Definition t (V : Type) : Type := list (string * V).

Fixpoint has {V} (m : t V) (k : string) : bool :=
  match m with
  | [] => false
  | (k', _) :: r => String.eqb k' k || has r k
  end.

Fixpoint get {V} (m : t V) (k : string) : option V :=
  match m with
  | [] => None
  | (k', v) :: r => if String.eqb k' k then Some v else get r k
  end.

Fixpoint set {V} (m : t V) (k : string) (v : V) : t V :=
  match m with
  | [] => [(k, v)]
  | (k', v') :: r =>
      if String.eqb k' k then (k', v) :: r else (k', v') :: set r k v
  end.

End JsMap.

(** [Array.prototype.sort] with a comparator: a stable sort, written as
    insertion from the right; [x] stays before [y] unless the comparator
    is positive. *)
Fixpoint insertBy {A} (cmp : A -> A -> Z) (x : A) (l : list A) : list A :=
  match l with
  | [] => [x]
  | y :: r => if (cmp x y <=? 0)%Z then x :: y :: r else y :: insertBy cmp x r
  end.

Definition sortBy {A} (cmp : A -> A -> Z) (l : list A) : list A :=
  fold_right (insertBy cmp) [] l.

Section Grouper.
Context `{DateFns}.

(** [format(parseISO(commit.date), 'yyyy-MM-dd')] *)
Definition dateKeyOf (commit : CommitInfo) : Result string :=
  format (parseISO (date commit)) "yyyy-MM-dd".

(** One turn of the first loop: create the bucket if the key is new, then
    push the commit on the array the map holds for the key. *)
Definition groupStep (groups : Result (JsMap.t (list CommitInfo)))
  (commit : CommitInfo) : Result (JsMap.t (list CommitInfo)) :=
  let? groups := groups in
  let? dateKey := dateKeyOf commit in
  let groups :=
    if negb (JsMap.has groups dateKey) then JsMap.set groups dateKey []
    else groups in
  match JsMap.get groups dateKey with
  | Some arr => Ok (JsMap.set groups dateKey (arr ++ [commit])%list)
  | None => Throw "Cannot read properties of undefined (reading 'push')"
  end.

(** One turn of the second loop. *)
Definition labelStep (result : Result (list CommitGroup))
  (entry : string * list CommitInfo) : Result (list CommitGroup) :=
  let? result := result in
  let '(_, groupCommits) := entry in
  match groupCommits with
  | first :: _ =>
      let? label := format (parseISO (date first)) "EEEE, MMMM d, yyyy" in
      Ok (result ++ [mkGroup label groupCommits])%list
  | [] => Throw "Cannot read properties of undefined (reading 'date')"
  end.

(** [new Date(g.commits[0].date).getTime()]; [None] is [NaN]. A group
    always has a first commit: a bucket is only made to hold one. *)
Definition firstTime (g : CommitGroup) : option Z :=
  match commits g with
  | first :: _ => Date_parse (date first)
  | [] => None
  end.

(** The comparator [(a, b) => time(b) - time(a)]. A [NaN] difference,
    which arises only when [new Date] does not read a first date, counts
    as [0] here; what [sort] makes of such a comparator is left to the
    engine, and nothing is stated of the groups outside readable dates. *)
Definition byFirstDateDesc (a b : CommitGroup) : Z :=
  match firstTime b, firstTime a with
  | Some tb, Some ta => (tb - ta)%Z
  | _, _ => 0%Z
  end.

Definition groupCommitsByDate (commits : list CommitInfo)
  : Result (list CommitGroup) :=
  let? groups := fold_left groupStep commits (Ok []) in
  let? result := fold_left labelStep groups (Ok []) in
  Ok (sortBy byFirstDateDesc result).

End Grouper.

(* ===================================================================== *)
(** * The process and its surroundings *)
(* ===================================================================== *)

#[local] Set Warnings "-register-all".

(** A parsed JSON text, or any JavaScript value a config key may hold.
    Numbers are the integers. *)
Inductive JsValue : Type :=
| JUndefined
| JNull
| JBool (b : bool)
| JNum (n : Z)
| JStr (s : string)
| JArr (xs : list JsValue)
| JObj (fields : list (string * JsValue)).

(** Why [execFile] rejected. *)
Inductive ExecError : Type :=
| ENOENT                      (* the tool is not installed *)
| TimedOut                    (* killed after the timeout *)
| NonZeroExit (code : Z)
| MaxBufferExceeded.

Inductive ExecResult : Type :=
| ExecOk (stdout : string)
| ExecErr (e : ExecError).

(** simple-git's [log] options, as the sources pass them. *)
Inductive LogOptions : Type :=
| LogAll
| LogWindow (after before : string)
| LogRange (from to : string).

(** simple-git's [DefaultLogFields], the fields read. *)
Record LogEntry : Type := mkEntry {
  entry_hash : string;
  entry_date : string;
  entry_message : string;
  entry_body : string;
  author_name : string;
  author_email : string
}.

(** What the file system, the git repository and the [gh] tool answer
    during one run. *)
Record World : Type := mkWorld {
  process_cwd : string;
  os_homedir : string;
  fs_existsSync : string -> bool;
  fs_readFileSync : string -> Result string;
  fs_writeFileSync : string -> string -> Result unit;
  JSON_parse : string -> Result JsValue;
  execFile : string -> list string -> Z -> ExecResult;
  git_checkIsRepo : Result bool;
  git_log : LogOptions -> Result (list LogEntry);
  git_diff : list string -> Result string;
  git_remote : list string -> Result (option string);
  git_revparse : list string -> Result string
}.

Inductive GitCall : Type :=
| GitCheckIsRepo
| GitLog (o : LogOptions)
| GitDiff (args : list string)
| GitRemote (args : list string)
| GitRevparse (args : list string).

(** Calls into ui.ts and ora; rendering itself is not modelled. *)
Inductive UiCall : Type :=
| printBanner
| printHeader (title : string) (subtitle : option string)
| printCommitList (cs : list CommitInfo)
| printGroupedCommits (gs : list CommitGroup)
| printSummary (title content : string)
| printStats (cs : list CommitInfo)
| printInfo (msg : string)
| printWarning (msg : string)
| printError (msg : string)
| printCopilotStatus (available : bool)
| printFooter
| spinnerStart (text : string)
| spinnerStop.

(** What a run does to the outside, in order. *)
Inductive Event : Type :=
| EvGit (g : GitCall)
| EvExec (file : string) (args : list string) (timeout : Z)
| EvUi (u : UiCall)
| EvWriteFile (path content : string)
| EvConsoleLog (text : string).

(** How a computation ends: with a value, with an exception, or by
    [process.exit]. *)
Inductive Outcome (A : Type) : Type :=
| Value (a : A)
| Thrown (msg : string)
| Exited (code : Z).
Arguments Value {A} a.
Arguments Thrown {A} msg.
Arguments Exited {A} code.

(** Effectful code reads the world and yields its events and outcome. *)
Definition M (A : Type) : Type := World -> list Event * Outcome A.

Definition ret {A} (a : A) : M A := fun _ => ([], Value a).

Definition bind {A B} (m : M A) (k : A -> M B) : M B :=
  fun w =>
    match m w with
    | (t1, Value a) => let '(t2, o) := k a w in ((t1 ++ t2)%list, o)
    | (t1, Thrown e) => (t1, Thrown e)
    | (t1, Exited c) => (t1, Exited c)
    end.

Notation "x <- c1 ;; c2" := (bind c1 (fun x => c2))
  (at level 100, c1 at next level, right associativity).
Notation "c1 ;; c2" := (bind c1 (fun _ => c2))
  (at level 100, right associativity).

Definition emit (e : Event) : M unit := fun _ => ([e], Value tt).
Definition throw {A} (msg : string) : M A := fun _ => ([], Thrown msg).
Definition process_exit {A} (code : Z) : M A := fun _ => ([], Exited code).
Definition ask : M World := fun w => ([], Value w).
Definition ui (u : UiCall) : M unit := emit (EvUi u).

Definition liftR {A} (r : Result A) : M A :=
  match r with
  | Ok a => ret a
  | Throw e => throw e
  end.

(** [try { m } catch (error) { h error.message }] *)
Definition tryCatch {A} (m : M A) (h : string -> M A) : M A :=
  fun w =>
    match m w with
    | (t1, Thrown e) => let '(t2, o) := h e w in ((t1 ++ t2)%list, o)
    | r => r
    end.

(** A [for ... of] loop with an effectful body, threading an accumulator. *)
Fixpoint forEachM {A B} (xs : list A) (acc : B) (body : B -> A -> M B) : M B :=
  match xs with
  | [] => ret acc
  | x :: r => acc' <- body acc x ;; forEachM r acc' body
  end.

Definition git (g : GitCall) {A} (answer : World -> Result A) : M A :=
  emit (EvGit g) ;; w <- ask ;; liftR (answer w).

(* ===================================================================== *)
(** * git.ts: reading the repository *)
(* ===================================================================== *)

Definition getGit : M unit :=
  isRepo <- git GitCheckIsRepo git_checkIsRepo ;;
  if negb isRepo
  then throw "Not a git repository. Please run devlog from inside a git repository."
  else ret tt.

(** [xs[0]] of a [split] result, which is never empty. *)
Definition first (xs : list string) : string := hd "" xs.

Definition getCommitDiff (hash : string) : M (string * list string) :=
  tryCatch
    (let range := [hash ++ "~1"; hash] in
     diff <- git (GitDiff (range ++ ["--stat"])%list)
                 (fun w => git_diff w (range ++ ["--stat"])%list) ;;
     diffDetail <- git (GitDiff (range ++ ["--shortstat"])%list)
                       (fun w => git_diff w (range ++ ["--shortstat"])%list) ;;
     let files :=
       map (fun line => trim (first (split line "|")))
           (List.filter (fun line => includes line "|") (split diff LF)) in
     ret (trim diffDetail, files))
    (fun _ => ret ("", [])).

Definition parseLogResult (log : list LogEntry) : M (list CommitInfo) :=
  forEachM log [] (fun commits entry =>
    stat <- getCommitDiff (entry_hash entry) ;;
    let '(diff, files) := stat in
    ret (commits ++ [mkCommit (entry_hash entry)
                              (String.substring 0 7 (entry_hash entry))
                              (entry_date entry)
                              (entry_message entry)
                              (entry_body entry)
                              (author_name entry)
                              (author_email entry)
                              files
                              diff])%list).

Definition getCommitsRange (from to : string) : M (list CommitInfo) :=
  getGit ;;
  log <- git (GitLog (LogRange from to)) (fun w => git_log w (LogRange from to)) ;;
  parseLogResult log.

(** The regular expression [/\/([^/]+?)(\.git)?$/] of [getRepoName].

    [lazyGroup s] matches [([^/]+?)(\.git)?$] against the whole of [s] and
    yields group 1: the lazy group takes one character at a time and stops
    as soon as what is left is [.git] or nothing. *)
Fixpoint lazyGroup (s : string) : option string :=
  match s with
  | "" => None
  | String c r =>
      if Ascii.eqb c "/" then None
      else if String.eqb r ".git" || String.eqb r "" then Some (String c "")
      else match lazyGroup r with
           | Some g => Some (String c g)
           | None => None
           end
  end.

(** [s.match(/\/([^/]+?)(\.git)?$/)], group 1 of the leftmost match. *)
Fixpoint matchRepo (s : string) : option string :=
  match s with
  | "" => None
  | String c r =>
      if Ascii.eqb c "/"
      then match lazyGroup r with
           | Some g => Some g
           | None => matchRepo r
           end
      else matchRepo r
  end.

(** [xs.pop()] of a [split] result. *)
Definition pop (xs : list string) : string := List.last xs "".

(** [a || b] on strings. *)
Definition orElse (a b : string) : string := if String.eqb a "" then b else a.

Definition getRepoName : M string :=
  getGit ;;
  found <- tryCatch
    (remote <- git (GitRemote ["get-url"; "origin"])
                   (fun w => git_remote w ["get-url"; "origin"]) ;;
     match remote with
     | Some url => if String.eqb url "" then ret None else ret (matchRepo (trim url))
     | None => ret None
     end)
    (fun _ => ret None) ;;
  match found with
  | Some name => ret name
  | None =>
      root <- git (GitRevparse ["--show-toplevel"])
                  (fun w => git_revparse w ["--show-toplevel"]) ;;
      ret (orElse (pop (split (trim root) "/")) "unknown")
  end.

(* ===================================================================== *)
(** * config.ts *)
(* ===================================================================== *)

(** A configuration is the object the loader returns: whatever keys the
    file gave, over the defaults. *)
Abbreviation Config := (gmap string JsValue).

Definition DEFAULT_CONFIG : Config :=
  list_to_map
    [("format", JStr "terminal");
     ("useCopilot", JBool true);
     ("author", JUndefined);
     ("showFiles", JBool true);
     ("showStats", JBool true);
     ("maxCommits", JNum 100)].

(** [String(i)] for an index. *)
Definition indexKey (i : nat) : string :=
  DecimalString.NilEmpty.string_of_uint (Nat.to_uint i).

Fixpoint indexed {A} (i : nat) (xs : list A) : list (string * A) :=
  match xs with
  | [] => []
  | x :: r => (indexKey i, x) :: indexed (S i) r
  end.

(** The own enumerable properties an object spread copies. In an object
    literal with a repeated key the last one stands. *)
Definition ownProps (v : JsValue) : Config :=
  match v with
  | JObj fields => list_to_map (rev fields)
  | JArr xs => list_to_map (indexed 0 xs)
  | JStr s =>
      list_to_map (indexed 0 (map (fun c => JStr (String c ""))
                                  (list_ascii_of_string s)))
  | _ => ∅
  end.

(** [{ ...a, ...b }] *)
Definition spread (a b : Config) : Config := b ∪ a.

(** [config.key] *)
Definition prop (config : Config) (key : string) : JsValue :=
  default JUndefined (config !! key).

Definition truthy (v : JsValue) : bool :=
  match v with
  | JUndefined | JNull => false
  | JBool b => b
  | JNum n => negb (n =? 0)%Z
  | JStr s => negb (String.eqb s "")
  | JArr _ | JObj _ => true
  end.

(** [path.join(dir, name)] for a directory without a trailing slash. *)
Definition path_join (dir name : string) : string := dir ++ "/" ++ name.

Definition searchPaths (cwd : option string) (w : World) : list string :=
  let here := match cwd with
              | Some d => if String.eqb d "" then process_cwd w else d
              | None => process_cwd w
              end in
  [path_join here ".devlogrc";
   path_join here ".devlogrc.json";
   path_join (os_homedir w) ".devlogrc";
   path_join (os_homedir w) ".devlogrc.json"].

(** The body of the loop of [loadConfig] for one path: [Some] is the
    [return] inside the [try]; an exception there is swallowed. *)
Definition tryConfigPath (w : World) (configPath : string) : option Config :=
  if fs_existsSync w configPath then
    match (let? content := fs_readFileSync w configPath in
           let? userConfig := JSON_parse w content in
           Ok (spread DEFAULT_CONFIG (ownProps userConfig))) with
    | Ok config => Some config
    | Throw _ => None
    end
  else None.

Fixpoint loadConfigFrom (w : World) (paths : list string) : Config :=
  match paths with
  | [] => DEFAULT_CONFIG
  | configPath :: rest =>
      match tryConfigPath w configPath with
      | Some config => config
      | None => loadConfigFrom w rest
      end
  end.

Definition loadConfig (cwd : option string) : M Config :=
  w <- ask ;; ret (loadConfigFrom w (searchPaths cwd w)).

(* ===================================================================== *)
(** * copilot.ts *)
(* ===================================================================== *)

(** The double quote, for the prompts. *)
Definition DQ : string := String "034"%char "".

Definition execFileAsync (file : string) (args : list string) (timeout : Z)
  : M ExecResult :=
  emit (EvExec file args timeout) ;; w <- ask ;; ret (execFile w file args timeout).

Definition isCopilotCliAvailable : M bool :=
  r <- execFileAsync "gh" ["copilot"; "--"; "--version"] 15000 ;;
  match r with
  | ExecOk stdout => ret (includes stdout "Copilot CLI")
  | ExecErr _ => ret false
  end.

(** The class [[0-9;]] of the escape-sequence pattern. *)
Definition isParam (c : ascii) : bool :=
  let n := nat_of_ascii c in ((48 <=? n)%nat && (n <=? 57)%nat) || (n =? 59)%nat.

(** The class [[a-zA-Z]]. *)
Definition isLetter (c : ascii) : bool :=
  let n := nat_of_ascii c in
  ((97 <=? n)%nat && (n <=? 122)%nat) || ((65 <=? n)%nat && (n <=? 90)%nat).

Fixpoint skipParams (s : string) : string :=
  match s with
  | "" => ""
  | String c r => if isParam c then skipParams r else s
  end.

(** A match of [/\x1B\[[0-9;]*[a-zA-Z]/] at the head of [s]: what follows
    the match. The two classes are disjoint, so the greedy star never
    gives a character back. *)
Definition matchAnsi (s : string) : option string :=
  match s with
  | String c1 (String c2 r) =>
      if Ascii.eqb c1 ESC && Ascii.eqb c2 "["
      then match skipParams r with
           | String c rest => if isLetter c then Some rest else None
           | "" => None
           end
      else None
  | _ => None
  end.

(** [s.replace(/\x1B\[[0-9;]*[a-zA-Z]/g, '')]: one scan from the left;
    a match is dropped and the scan goes on behind it, anything else is
    kept. [fuel] bounds the scan by the length of the text. *)
Fixpoint stripAnsi_from (fuel : nat) (s : string) : string :=
  match fuel with
  | O => s
  | S fuel' =>
      match s with
      | "" => ""
      | String c r =>
          match matchAnsi s with
          | Some rest => stripAnsi_from fuel' rest
          | None => String c (stripAnsi_from fuel' r)
          end
      end
  end.

Definition stripAnsi (s : string) : string := stripAnsi_from (String.length s) s.

(** [s.replace(/\r/g, '')] *)
Fixpoint stripCR (s : string) : string :=
  match s with
  | "" => ""
  | String c r => if Ascii.eqb c CR then stripCR r else String c (stripCR r)
  end.

Definition markers : list string :=
  [LF ++ "Total usage est:"; LF ++ "API time spent:"].

(** One turn of the marker loop. *)
Definition earliestStep (cleaned : string) (earliest : Z) (marker : string) : Z :=
  let idx := indexOf cleaned marker in
  if negb (idx =? -1)%Z && (idx <? earliest)%Z then idx else earliest.

Definition cleanCopilotOutput (output : string) : string :=
  let cleaned := stripCR (stripAnsi output) in
  let earliest := fold_left (earliestStep cleaned) markers (len cleaned) in
  let cleaned :=
    if (earliest <? len cleaned)%Z then substring0 cleaned earliest else cleaned in
  trim cleaned.

Definition askCopilot (prompt : string) : M string :=
  r <- execFileAsync "gh" ["copilot"; "--"; "-p"; prompt] 60000 ;;
  match r with
  | ExecOk stdout => ret (cleanCopilotOutput stdout)
  | ExecErr _ => ret ""
  end.

Definition formatCommit (c : CommitInfo) : string :=
  let entry := "- [" ++ hashShort c ++ "] " ++ message c in
  let entry :=
    if (0 <? length (filesChanged c))%nat
    then entry ++ " (files: " ++ join ", " (firstn 5 (filesChanged c))
               ++ (if (5 <? length (filesChanged c))%nat then "..." else "")
               ++ ")"
    else entry in
  if negb (String.eqb (diff c) "") then entry ++ " | " ++ diff c else entry.

Definition formatCommitsForPrompt (commits : list CommitInfo) : string :=
  join LF (map formatCommit commits).

Definition generateDailySummary (commits : list CommitInfo)
  (repoName authorName : string) : M string :=
  if (length commits =? 0)%nat then ret ""
  else
    let commitList := formatCommitsForPrompt commits in
    let prompt :=
      "Summarize these git commits from today in the " ++ DQ ++ repoName ++ DQ
      ++ " project by " ++ authorName
      ++ " as a short developer journal entry. Group related work together. Use bullet points. Be concise but informative:"
      ++ LF ++ LF ++ commitList in
    askCopilot prompt.

Definition generateStandupReport (yesterdayCommits todayCommits : list CommitInfo)
  (repoName authorName : string) : M string :=
  let yesterdayList := formatCommitsForPrompt yesterdayCommits in
  let todayList := formatCommitsForPrompt todayCommits in
  let prompt :=
    "Generate a standup report for developer " ++ authorName ++ " on project "
    ++ DQ ++ repoName ++ DQ
    ++ ". Format it as: YESTERDAY (what was done), TODAY (what's planned based on recent work direction), BLOCKERS (potential issues spotted). Yesterday's commits:"
    ++ LF ++ orElse yesterdayList "No commits yesterday"
    ++ LF ++ LF ++ "Today's commits so far:"
    ++ LF ++ orElse todayList "No commits yet today" in
  askCopilot prompt.

Definition generateWeeklySummary (commits : list CommitInfo)
  (repoName authorName : string) : M string :=
  if (length commits =? 0)%nat then ret ""
  else
    let commitList := formatCommitsForPrompt commits in
    let prompt :=
      "Summarize this week's git activity in " ++ DQ ++ repoName ++ DQ
      ++ " by " ++ authorName
      ++ " as a weekly developer recap. Highlight key accomplishments, areas of focus, and overall progress. Use sections and bullet points:"
      ++ LF ++ LF ++ commitList in
    askCopilot prompt.

Definition generateReleaseNotes (commits : list CommitInfo)
  (repoName fromTag : string) : M string :=
  if (length commits =? 0)%nat then ret ""
  else
    let commitList := formatCommitsForPrompt commits in
    let prompt :=
      "Generate release notes for " ++ DQ ++ repoName ++ DQ
      ++ " covering changes since " ++ fromTag
      ++ ". Categorize into: Features, Bug Fixes, Improvements, and Breaking Changes. Use markdown formatting. Only include categories that have entries:"
      ++ LF ++ LF ++ commitList in
    askCopilot prompt.

Definition generateRangeSummary (commits : list CommitInfo)
  (repoName from to : string) : M string :=
  if (length commits =? 0)%nat then ret ""
  else
    let commitList := formatCommitsForPrompt commits in
    let prompt :=
      "Summarize the git activity in " ++ DQ ++ repoName ++ DQ
      ++ " from " ++ from ++ " to " ++ to
      ++ ". Provide a narrative overview of what was accomplished, key changes, and their impact:"
      ++ LF ++ LF ++ commitList in
    askCopilot prompt.

(** The three arrays of [localSummarize]. *)
Record Categories : Type := mkCategories {
  features : list string;
  fixes : list string;
  other : list string
}.

(** One turn of the classification loop. *)
Definition categorize (categories : Categories) (commit : CommitInfo) : Categories :=
  let msg := toLowerCase (message commit) in
  if startsWith msg "feat" || includes msg "add" || includes msg "new" then
    mkCategories (features categories ++ [message commit])%list
                 (fixes categories) (other categories)
  else if startsWith msg "fix" || includes msg "bug" || includes msg "patch" then
    mkCategories (features categories)
                 (fixes categories ++ [message commit])%list (other categories)
  else
    mkCategories (features categories) (fixes categories)
                 (other categories ++ [message commit])%list.

Definition bullet (m : string) : string := "  - " ++ m.

(** The classification loop over all commits. *)
Definition categorized (commits : list CommitInfo) : Categories :=
  fold_left categorize commits (mkCategories [] [] []).

Definition localSummarize (commits : list CommitInfo) : string :=
  if (length commits =? 0)%nat then "No commits found in this period."
  else
    let categories := categorized commits in
    let summary := "" in
    let summary :=
      if (0 <? length (features categories))%nat
      then summary ++ "Features:" ++ LF
             ++ join LF (map bullet (features categories)) ++ LF ++ LF
      else summary in
    let summary :=
      if (0 <? length (fixes categories))%nat
      then summary ++ "Fixes:" ++ LF
             ++ join LF (map bullet (fixes categories)) ++ LF ++ LF
      else summary in
    let summary :=
      if (0 <? length (other categories))%nat
      then summary ++ "Other:" ++ LF
             ++ join LF (map bullet (other categories)) ++ LF ++ LF
      else summary in
    trim summary.

(* ===================================================================== *)
(** * index.ts: the [recap] command *)
(* ===================================================================== *)

(** The flags commander hands to an action; [--no-ai] clears [opt_ai]. *)
Record Options : Type := mkOptions {
  opt_output : option string;
  opt_json : bool;
  opt_ai : bool
}.

(** The envelope the [recap] action passes to [exportJSON]. *)
Record RecapEnvelope : Type := mkEnvelope {
  env_repo : string;
  env_from : string;
  env_to : string;
  env_commitCount : nat;
  env_commits : list CommitInfo;
  env_summary : string
}.

(** The two formatters of export.ts the action calls; their text is not
    part of the sources read here, so they are taken as given. *)
Class ExportFns : Type := {
  exportDailyMarkdown : string -> string -> list CommitInfo -> string -> string;
  exportJSON : RecapEnvelope -> string
}.

Definition usageError : string :=
  "Invalid range format. Use: devlog recap <from>..<to> (e.g., HEAD~10..HEAD)".

Section Recap.
Context `{DateFns} `{ExportFns}.

(** The summary step of the action: Copilot when allowed and available,
    the local summary when Copilot is off or came back empty. *)
Definition recapSummary (options : Options) (config : Config)
  (copilotAvailable : bool) (commits : list CommitInfo)
  (repoName from to : string) : M string :=
  if opt_ai options && copilotAvailable && truthy (prop config "useCopilot") then
    ui (spinnerStart "Generating AI recap with Copilot CLI...") ;;
    aiSummary <- generateRangeSummary commits repoName from to ;;
    ui spinnerStop ;;
    if negb (String.eqb aiSummary "") then
      ui (printSummary "AI Recap" aiSummary) ;; ret aiSummary
    else
      let aiSummary := localSummarize commits in
      (if negb (String.eqb aiSummary "")
       then ui (printSummary "Recap" aiSummary) else ret tt) ;;
      ret aiSummary
  else if opt_ai options then
    let aiSummary := localSummarize commits in
    ui (printSummary "Recap" aiSummary) ;; ret aiSummary
  else ret "".

(** What the action does inside its [try] block. *)
Definition recapBody (options : Options) (config : Config)
  (copilotAvailable : bool) (from to : string) : M unit :=
  (* Promise.all([getCommitsRange(from, to), getRepoName()]): the events of
     the first read, then those of the second; the program interleaves them *)
  commits <- getCommitsRange from to ;;
  repoName <- getRepoName ;;
  ui spinnerStop ;;
  ui (printHeader ("Recap — " ++ repoName) (Some ("Range: " ++ from ++ ".." ++ to))) ;;
  if (length commits =? 0)%nat then
    ui (printWarning "No commits found in this range.") ;;
    ui printFooter
  else
    ui (printStats commits) ;;
    groups <- liftR (groupCommitsByDate commits) ;;
    ui (printGroupedCommits groups) ;;
    aiSummary <- recapSummary options config copilotAvailable commits repoName from to ;;
    match opt_output options with
    | Some file =>
        if String.eqb file "" then ret tt
        else
          let content :=
            exportDailyMarkdown repoName (from ++ ".." ++ to) commits
                                (orElse aiSummary "") in
          emit (EvWriteFile file content) ;;
          w <- ask ;;
          liftR (fs_writeFileSync w file content) ;;
          ui (printInfo ("Exported to " ++ file))
    | None => ret tt
    end ;;
    (if opt_json options
     then emit (EvConsoleLog
                  (exportJSON (mkEnvelope repoName from to (length commits)
                                          commits aiSummary)))
     else ret tt) ;;
    ui printFooter.

(** The action of [devlog recap <range>]. *)
Definition recap (range : string) (options : Options) : M unit :=
  ui printBanner ;;
  config <- loadConfig None ;;
  copilotAvailable <- isCopilotCliAvailable ;;
  ui (printCopilotStatus copilotAvailable) ;;
  let parts := split range ".." in
  (if negb (length parts =? 2)%nat
   then ui (printError usageError) ;; process_exit 1
   else ret tt) ;;
  let from := nth 0 parts "" in
  let to := nth 1 parts "" in
  ui (spinnerStart ("Reading commits " ++ from ++ ".." ++ to ++ "...")) ;;
  tryCatch
    (recapBody options config copilotAvailable from to)
    (fun error_message =>
       ui spinnerStop ;;
       ui (printError error_message) ;;
       process_exit 1).

End Recap.

(** The git calls among the events of a run. *)
Definition gitCalls (trace : list Event) : list GitCall :=
  flat_map (fun e => match e with EvGit g => [g] | _ => [] end) trace.

(** The [execFile] calls among the events of a run: the calls to [gh].
    The git processes simple-git starts are the [EvGit] events. *)
Definition execCalls (trace : list Event) : list (string * list string) :=
  flat_map (fun e => match e with EvExec f a _ => [(f, a)] | _ => [] end) trace.

(* ===================================================================== *)
(** * The specification's vocabulary *)
(* ===================================================================== *)

(** ** Runs *)

(** A computation ended with a value: no exception, no exit. *)
Definition returns {A} (r : list Event * Outcome A) (a : A) : Prop :=
  snd r = Value a.

(** What the probe answers in a world. *)
Definition probeAnswer (w : World) : bool :=
  match execFile w "gh" ["copilot"; "--"; "--version"] 15000 with
  | ExecOk stdout => includes stdout "Copilot CLI"
  | ExecErr _ => false
  end.

(** The ways the availability probe can fail: the subprocess fails, or it
    prints something that does not name the Copilot CLI. *)
Definition probeFailure (r : ExecResult) : Prop :=
  match r with
  | ExecErr _ => True
  | ExecOk stdout => includes stdout "Copilot CLI" = false
  end.

(** Every [execFile] call of a run fails in this world: the tool is
    absent, times out or ends with a nonzero status. *)
Definition callsFail {A} (w : World) (run : list Event * Outcome A) : Prop :=
  forall file args timeout,
    In (EvExec file args timeout) (fst run) ->
    exists e, execFile w file args timeout = ExecErr e.

(** The prompt of the standup report when both commit lists are empty. *)
Definition emptyStandupPrompt (repoName authorName : string) : string :=
  "Generate a standup report for developer " ++ authorName ++ " on project "
  ++ DQ ++ repoName ++ DQ
  ++ ". Format it as: YESTERDAY (what was done), TODAY (what's planned based on recent work direction), BLOCKERS (potential issues spotted). Yesterday's commits:"
  ++ LF ++ "No commits yesterday"
  ++ LF ++ LF ++ "Today's commits so far:"
  ++ LF ++ "No commits yet today".

(** The empty-input rule as the specification states it: all five
    generators return the empty string on empty input without running
    the subprocess. *)
Definition emptyInputSkipsCopilot : Prop :=
  forall (w : World) (repoName authorName fromTag from to : string),
    generateDailySummary [] repoName authorName w = ([], Value "")
    /\ generateStandupReport [] [] repoName authorName w = ([], Value "")
    /\ generateWeeklySummary [] repoName authorName w = ([], Value "")
    /\ generateReleaseNotes [] repoName fromTag w = ([], Value "")
    /\ generateRangeSummary [] repoName from to w = ([], Value "").

(** The events of the [recap] action up to its range check. *)
Definition recapPrelude (w : World) : list Event :=
  [EvUi printBanner;
   EvExec "gh" ["copilot"; "--"; "--version"] 15000;
   EvUi (printCopilotStatus (probeAnswer w))].

(** The [catch] block of the [recap] action. *)
Definition recapCatch (error_message : string) : M unit :=
  ui spinnerStop ;; ui (printError error_message) ;; process_exit 1.

(** ** Commit messages and the local report *)

(** Case-insensitive matching against a lower-case pattern: a character
    of the text matches a pattern character when it is that character or
    its capital. *)
Definition foldsTo (c l : ascii) : bool :=
  Ascii.eqb c l || (isUpper c && (nat_of_ascii c + 32 =? nat_of_ascii l)%nat).

Fixpoint ci_prefix (p s : string) : bool :=
  match p, s with
  | "", _ => true
  | String l p', String c s' => foldsTo c l && ci_prefix p' s'
  | String _ _, "" => false
  end.

Fixpoint ci_includes (s p : string) : bool :=
  ci_prefix p s ||
  match s with
  | "" => false
  | String _ r => ci_includes r p
  end.

(** No capital letter in the pattern. *)
Fixpoint lowerOnly (p : string) : bool :=
  match p with
  | "" => true
  | String l r => negb (isUpper l) && lowerOnly r
  end.

Inductive Bucket : Type := FeaturesB | FixesB | OtherB.

Definition Bucket_eqb (a b : Bucket) : bool :=
  match a, b with
  | FeaturesB, FeaturesB | FixesB, FixesB | OtherB, OtherB => true
  | _, _ => false
  end.

(** The bucket of a message as the specification words it: features
    first, then fixes, else other. *)
Definition isFeatureMessage (m : string) : bool :=
  ci_prefix "feat" m || ci_includes m "add" || ci_includes m "new".

Definition isFixMessage (m : string) : bool :=
  ci_prefix "fix" m || ci_includes m "bug" || ci_includes m "patch".

Definition bucketOf (m : string) : Bucket :=
  if isFeatureMessage m then FeaturesB
  else if isFixMessage m then FixesB
  else OtherB.

(** The messages of the commits of one bucket, in commit order. *)
Definition messagesOf (b : Bucket) (commits : list CommitInfo) : list string :=
  map message (List.filter (fun c => Bucket_eqb (bucketOf (message c)) b) commits).

(** A section of the local report as the specification describes it: its
    header line, then for every message a line with the message behind
    two spaces, a dash and a space. *)
Definition reportSection (header : string) (msgs : list string) : string :=
  join LF (header :: map (fun m => "  - " ++ m) msgs).

(** The sections of the nonempty buckets, in the order of the report. *)
Definition reportSections (commits : list CommitInfo) : list string :=
  (flat_map (fun hb : string * Bucket =>
              match messagesOf (snd hb) commits with
              | [] => []
              | msgs => [reportSection (fst hb) msgs]
              end)
           [("Features:", FeaturesB); ("Fixes:", FixesB); ("Other:", OtherB)]).

(** No whitespace at either end. *)
Definition trimmed (s : string) : Prop := trimStart s = s /\ trimEnd s = s.

(** Nothing but whitespace. *)
Fixpoint allWhiteSpace (s : string) : bool :=
  match s with
  | "" => true
  | String c r => isWhiteSpace c && allWhiteSpace r
  end.

(** ** Grouping *)

Section GrouperSpec.
Context `{DateFns}.

(** A commit whose date both parsers read. *)
Definition validDate (c : CommitInfo) : Prop :=
  parseISO (date c) <> None /\ Date_parse (date c) <> None.

(** [c] falls on the calendar day [k]. *)
Definition onDay (k : string) (c : CommitInfo) : bool :=
  match dateKeyOf c with
  | Ok k' => String.eqb k' k
  | Throw _ => false
  end.

(** The effect of one turn of the first loop on the map. *)
Definition pushCommit (groups : JsMap.t (list CommitInfo)) (k : string)
  (c : CommitInfo) : JsMap.t (list CommitInfo) :=
  if JsMap.has groups k
  then match JsMap.get groups k with
       | Some arr => JsMap.set groups k (arr ++ [c])%list
       | None => groups
       end
  else (groups ++ [(k, [c])])%list.

(** The label the second loop gives a bucket. *)
Definition labelOf (cs : list CommitInfo) : string :=
  match cs with
  | first :: _ =>
      match parseISO (date first) with
      | Some t => formatDate t "EEEE, MMMM d, yyyy"
      | None => ""
      end
  | [] => ""
  end.

(** The group the second loop makes of an entry of the map. *)
Definition toGroup (e : string * list CommitInfo) : CommitGroup :=
  mkGroup (labelOf (snd e)) (snd e).

(** [g1] may stand before [g2]: its first commit is not the older one. *)
Definition notAfter (g1 g2 : CommitGroup) : Prop :=
  exists t1 t2, firstTime g1 = Some t1 /\ firstTime g2 = Some t2 /\ (t2 <= t1)%Z.

(** The calendar day of a commit as the specification reads it: the
    local date of its timestamp, written [yyyy-MM-dd]; none when the
    timestamp is not read. *)
Definition calendarDay (c : CommitInfo) : option string :=
  match parseISO (date c) with
  | Some t => Some (formatDate t "yyyy-MM-dd")
  | None => None
  end.

(** [c] is a commit of the calendar day [k]. *)
Definition sameDay (k : string) (c : CommitInfo) : bool :=
  match calendarDay c with
  | Some k' => String.eqb k' k
  | None => false
  end.

(** [g1] may stand before [g2]: the first commit of [g1] is not older
    than the first commit of [g2]. *)
Definition newerFirst (g1 g2 : CommitGroup) : Prop :=
  exists c1 r1 c2 r2 t1 t2,
    commits g1 = c1 :: r1 /\ commits g2 = c2 :: r2
    /\ Date_parse (date c1) = Some t1 /\ Date_parse (date c2) = Some t2
    /\ (t2 <= t1)%Z.

(** What the specification asks of the groups made of [cs]: flattened in
    group order they are a permutation of [cs]; every group is not empty
    and holds exactly the commits of one calendar day, in the order of
    [cs]; and the groups stand in descending order of the time of their
    first commit. *)
Definition groupedByDay (cs : list CommitInfo) (groups : list CommitGroup) : Prop :=
  Permutation (flat_map commits groups) cs
  /\ Forall (fun g => exists k,
               commits g <> []
               /\ commits g = List.filter (sameDay k) cs
               /\ Forall (fun c => calendarDay c = Some k) (commits g)) groups
  /\ StronglySorted newerFirst groups.

(** The claim as the specification states it: every list of commits is
    grouped. *)
Definition groupsEveryList : Prop :=
  forall cs, exists groups, groupCommitsByDate cs = Ok groups /\ groupedByDay cs groups.

(** What the first loop keeps true of its map, [pre] being the commits
    seen so far: one bucket per day, each holding the commits of its
    day in the order seen, and all commits placed. *)
Record GroupsInv (pre : list CommitInfo) (m : JsMap.t (list CommitInfo)) : Prop := {
  inv_keys : List.NoDup (map fst m);
  inv_entries : Forall (fun e => snd e <> [] /\ snd e = List.filter (onDay (fst e)) pre) m;
  inv_cover : Forall (fun c => exists k, dateKeyOf c = Ok k /\ JsMap.has m k = true) pre;
  inv_perm : Permutation (concat (map snd m)) pre
}.
End GrouperSpec.

(** ** Repository names *)

(** No [/] in the text. *)
Fixpoint noSlash (s : string) : bool :=
  match s with
  | "" => true
  | String c r => negb (Ascii.eqb c "/") && noSlash r
  end.

(** What follows the last [/] of the text, if it has one. *)
Fixpoint afterLastSlash (s : string) : option string :=
  match s with
  | "" => None
  | String c r =>
      match afterLastSlash r with
      | Some x => Some x
      | None => if Ascii.eqb c "/" then Some r else None
      end
  end.

(** The segment without one trailing [.git]; a segment that is nothing
    but [.git] stays. *)
Fixpoint stripDotGit (seg : string) : string :=
  match seg with
  | "" => ""
  | String c r =>
      if String.eqb r ".git" then String c "" else String c (stripDotGit r)
  end.

(** The base name of a path: what follows its last [/], or all of it. *)
Definition baseName (path : string) : string :=
  match afterLastSlash path with
  | Some x => x
  | None => path
  end.

(** The name [getRepoName] falls back to. *)
Definition directoryName (root : string) : string :=
  orElse (baseName (trim root)) "unknown".

(** The naming rule as the specification states it: inside a repository with an
    origin remote, the name is the last path segment of the URL without
    its [.git]. *)
Definition nameFromRemote : Prop :=
  forall (w : World) (url : string),
    git_checkIsRepo w = Ok true ->
    git_remote w ["get-url"; "origin"] = Ok (Some url) ->
    url <> "" ->
    returns (getRepoName w) (stripDotGit (baseName (trim url))).

(** ** Configuration files *)

(** A searched path gives no configuration: there is no such file, or
    reading it fails, or its text is not JSON. *)
Definition unusable (w : World) (configPath : string) : Prop :=
  fs_existsSync w configPath = false
  \/ (exists e, fs_readFileSync w configPath = Throw e)
  \/ (exists content e, fs_readFileSync w configPath = Ok content
                        /\ JSON_parse w content = Throw e).

(** A searched path gives a configuration: the file is there, it is read
    and its text parses to [v]. *)
Definition usable (w : World) (configPath : string) (v : JsValue) : Prop :=
  fs_existsSync w configPath = true
  /\ exists content, fs_readFileSync w configPath = Ok content
                     /\ JSON_parse w content = Ok v.

(** The value a JSON object gives a key: that of its last member with
    the key, if it has one. *)
Fixpoint memberOf (fields : list (string * JsValue)) (key : string)
  : option JsValue :=
  match fields with
  | [] => None
  | (k, v) :: rest =>
      match memberOf rest key with
      | Some x => Some x
      | None => if String.eqb k key then Some v else None
      end
  end.

(** The default settings as the specification lists them; there is no
    author override by default. *)
Definition defaultSetting (key : string) : JsValue :=
  if String.eqb key "format" then JStr "terminal"
  else if String.eqb key "useCopilot" then JBool true
  else if String.eqb key "showFiles" then JBool true
  else if String.eqb key "showStats" then JBool true
  else if String.eqb key "maxCommits" then JNum 100
  else JUndefined.

(** ** Escape sequences *)

(** The text holds a match of the escape-sequence pattern somewhere. *)
Fixpoint hasAnsi (s : string) : bool :=
  match matchAnsi s with
  | Some _ => true
  | None =>
      match s with
      | "" => false
      | String _ r => hasAnsi r
      end
  end.

(** A control sequence as ECMA-48 defines it: ESC and [[], then parameter
    bytes (0x30 to 0x3F), then intermediate bytes (0x20 to 0x2F), then a
    final byte (0x40 to 0x7E). *)
Definition isParameterByte (c : ascii) : bool :=
  let n := nat_of_ascii c in (48 <=? n)%nat && (n <=? 63)%nat.

Definition isIntermediateByte (c : ascii) : bool :=
  let n := nat_of_ascii c in (32 <=? n)%nat && (n <=? 47)%nat.

Definition isFinalByte (c : ascii) : bool :=
  let n := nat_of_ascii c in (64 <=? n)%nat && (n <=? 126)%nat.

Fixpoint skipBytes (f : ascii -> bool) (s : string) : string :=
  match s with
  | "" => ""
  | String c r => if f c then skipBytes f r else s
  end.

Definition controlSequenceAt (s : string) : bool :=
  match s with
  | String c1 (String c2 r) =>
      Ascii.eqb c1 ESC && Ascii.eqb c2 "[" &&
      match skipBytes isIntermediateByte (skipBytes isParameterByte r) with
      | String c _ => isFinalByte c
      | "" => false
      end
  | _ => false
  end.

Fixpoint hasControlSequence (s : string) : bool :=
  controlSequenceAt s ||
  match s with
  | "" => false
  | String _ r => hasControlSequence r
  end.

(** No escape character in the text. *)
Fixpoint noEsc (s : string) : bool :=
  match s with
  | "" => true
  | String c r => negb (Ascii.eqb c ESC) && noEsc r
  end.

(** Every escape character of the text opens a complete sequence. *)
Fixpoint escapesComplete (s : string) : bool :=
  match s with
  | "" => true
  | String c r =>
      (if Ascii.eqb c ESC
       then match matchAnsi s with Some _ => true | None => false end
       else true)
      && escapesComplete r
  end.

(* ===================================================================== *)
(** * Sample data and worlds *)
(* ===================================================================== *)

Definition sampleCommit (h d m : string) : CommitInfo :=
  mkCommit h (String.substring 0 7 h) d m "" "Ada" "ada@example.org" [] "".

(** Four commits over three days, not in date order. *)
Definition sampleHistory : list CommitInfo :=
  [sampleCommit "a1a1a1a1" "2024-01-15T18:30:00Z" "feat: parser";
   sampleCommit "b2b2b2b2" "2024-01-14T23:00:00Z" "fix: typo";
   sampleCommit "c3c3c3c3" "2024-01-16T09:00:00Z" "docs: readme";
   sampleCommit "d4d4d4d4" "2024-01-15T10:00:00Z" "add tests"].

(** The date library on a few instants, read in the UTC time zone. *)
Definition sampleInstant (s : string) : option Z :=
  if String.eqb s "2024-01-14T23:00:00Z" then Some 1705273200000%Z
  else if String.eqb s "2024-01-15T10:00:00Z" then Some 1705312800000%Z
  else if String.eqb s "2024-01-15T18:30:00Z" then Some 1705343400000%Z
  else if String.eqb s "2024-01-16T09:00:00Z" then Some 1705395600000%Z
  else None.

Definition sampleFormat (t : Z) (pattern : string) : string :=
  let day := (t / 86400000)%Z in
  if String.eqb pattern "yyyy-MM-dd" then
    if (day =? 19736)%Z then "2024-01-14"
    else if (day =? 19737)%Z then "2024-01-15"
    else if (day =? 19738)%Z then "2024-01-16"
    else "1970-01-01"
  else
    if (day =? 19736)%Z then "Sunday, January 14, 2024"
    else if (day =? 19737)%Z then "Monday, January 15, 2024"
    else if (day =? 19738)%Z then "Tuesday, January 16, 2024"
    else "Thursday, January 1, 1970".

Definition sampleDates : DateFns :=
  {| parseISO := sampleInstant;
     formatDate := sampleFormat;
     Date_parse := sampleInstant |}.

(** Formatters that only name what they were given. *)
Definition sampleExports : ExportFns :=
  {| exportDailyMarkdown := fun repo title _ summary =>
       "# " ++ repo ++ " " ++ title ++ LF ++ summary;
     exportJSON := fun e => "recap " ++ env_repo e |}.

Definition noOptions : Options := mkOptions None false true.

(** A world in which nothing exists: no config file, no repository, no
    [gh] tool. The worlds of the examples differ from it in a few answers. *)
Definition bareWorld : World :=
  mkWorld "/work/devlog" "/home/ada"
          (fun _ => false)
          (fun _ => Throw "ENOENT: no such file or directory")
          (fun _ _ => Ok tt)
          (fun _ => Throw "Unexpected end of JSON input")
          (fun _ _ _ => ExecErr ENOENT)
          (Ok false)
          (fun _ => Throw "fatal: not a git repository")
          (fun _ => Throw "fatal: not a git repository")
          (fun _ => Throw "fatal: not a git repository")
          (fun _ => Throw "fatal: not a git repository").

(** The same with a [gh] that answers every call with [stdout]. *)
Definition worldWithGh (stdout : string) : World :=
  mkWorld (process_cwd bareWorld) (os_homedir bareWorld)
          (fs_existsSync bareWorld) (fs_readFileSync bareWorld)
          (fs_writeFileSync bareWorld) (JSON_parse bareWorld)
          (fun _ _ _ => ExecOk stdout)
          (git_checkIsRepo bareWorld) (git_log bareWorld) (git_diff bareWorld)
          (git_remote bareWorld) (git_revparse bareWorld).

(** A world whose [gh] is not the Copilot CLI: it prints its own version
    and times out on everything else. *)
Definition otherGhWorld : World :=
  mkWorld (process_cwd bareWorld) (os_homedir bareWorld)
          (fs_existsSync bareWorld) (fs_readFileSync bareWorld)
          (fs_writeFileSync bareWorld) (JSON_parse bareWorld)
          (fun _ args _ =>
             match args with
             | [_; _; flag] =>
                 if String.eqb flag "--version"
                 then ExecOk "gh version 2.40.1 (2023-12-13)"
                 else ExecErr TimedOut
             | _ => ExecErr TimedOut
             end)
          (git_checkIsRepo bareWorld) (git_log bareWorld) (git_diff bareWorld)
          (git_remote bareWorld) (git_revparse bareWorld).

(** A world with the Copilot CLI installed and too slow: the probe
    prints the version, every other call is killed at its timeout. *)
Definition slowCopilotWorld : World :=
  mkWorld (process_cwd bareWorld) (os_homedir bareWorld)
          (fs_existsSync bareWorld) (fs_readFileSync bareWorld)
          (fs_writeFileSync bareWorld) (JSON_parse bareWorld)
          (fun _ args _ =>
             match args with
             | [_; _; flag] =>
                 if String.eqb flag "--version"
                 then ExecOk "GitHub Copilot CLI 1.0.2"
                 else ExecErr TimedOut
             | _ => ExecErr TimedOut
             end)
          (git_checkIsRepo bareWorld) (git_log bareWorld) (git_diff bareWorld)
          (git_remote bareWorld) (git_revparse bareWorld).

(** A repository with the given answers for [remote get-url origin] and
    [rev-parse --show-toplevel]. *)
Definition repoWorld (remote : Result (option string)) (root : string) : World :=
  mkWorld root (os_homedir bareWorld)
          (fs_existsSync bareWorld) (fs_readFileSync bareWorld)
          (fs_writeFileSync bareWorld) (JSON_parse bareWorld)
          (execFile bareWorld)
          (Ok true) (fun _ => Ok []) (fun _ => Ok "")
          (fun _ => remote) (fun _ => Ok (root ++ LF)).

(** A checkout of [https://github.com/org/myrepo.git]. *)
Definition githubWorld : World :=
  repoWorld (Ok (Some ("https://github.com/org/myrepo.git" ++ LF))) "/home/ada/devlog".

(** A checkout in [/home/ada/checkout] whose origin is an scp-style URL. *)
Definition scpWorld : World :=
  repoWorld (Ok (Some ("git@server:myrepo.git" ++ LF))) "/home/ada/checkout".

(** The same checkout with an origin URL that ends in a slash. *)
Definition slashWorld : World :=
  repoWorld (Ok (Some ("https://github.com/org/myrepo/" ++ LF))) "/home/ada/checkout".

(** The text of a configuration file that switches Copilot off and
    lowers the cap:
    [{ "useCopilot": false, "maxCommits": 20 }]. *)
Definition configText : string :=
  "{ " ++ DQ ++ "useCopilot" ++ DQ ++ ": false, "
  ++ DQ ++ "maxCommits" ++ DQ ++ ": 20 }".

(** A world with a broken [.devlogrc] in the project directory and a
    good [.devlogrc.json] in the home directory. *)
Definition configWorld : World :=
  mkWorld "/work/devlog" "/home/ada"
          (fun p => String.eqb p "/work/devlog/.devlogrc"
                    || String.eqb p "/home/ada/.devlogrc.json")
          (fun p => if String.eqb p "/work/devlog/.devlogrc" then Ok "{useCopilot"
                    else if String.eqb p "/home/ada/.devlogrc.json"
                         then Ok configText
                         else Throw "ENOENT: no such file or directory")
          (fun _ _ => Ok tt)
          (fun text => if String.eqb text configText
                       then Ok (JObj [("useCopilot", JBool false);
                                      ("maxCommits", JNum 20)])
                       else Throw "Unexpected token")
          (execFile bareWorld)
          (git_checkIsRepo bareWorld) (git_log bareWorld) (git_diff bareWorld)
          (git_remote bareWorld) (git_revparse bareWorld).

(** An output in which one escape sequence sits inside the opening of
    another: [ok ESC[ESC[0m0m]. *)
Definition nestedEscape : string :=
  "ok " ++ String ESC "[" ++ String ESC "[0m" ++ "0m".

(** An output that hides the cursor, prints and shows the cursor again:
    [ESC[?25lDone.ESC[?25h]. *)
Definition cursorOutput : string :=
  String ESC "[?25l" ++ "Done." ++ String ESC "[?25h".

(** An output with a colour sequence and the usage footer. *)
Definition colouredOutput : string :=
  String ESC "[1mDone." ++ String ESC "[0m " ++ String CR LF ++ LF
  ++ "Total usage est: 1 request" ++ LF ++ "API time spent: 2s".


(* ===================================================================== *)
(** * More of the sources *)
(* ===================================================================== *)

(** ** git.ts *)

(** [getCurrentBranch]: the trimmed answer of [rev-parse --abbrev-ref HEAD]. *)
Definition getCurrentBranch : M string :=
  getGit ;;
  branch <- git (GitRevparse ["--abbrev-ref"; "HEAD"])
                (fun w => git_revparse w ["--abbrev-ref"; "HEAD"]) ;;
  ret (trim branch).

(** ** config.ts *)

(** [JSON.stringify(value, null, indent)], taken from the platform like
    [JSON.parse]. *)
Class JsonFns : Type := {
  JSON_stringify : JsValue -> nat -> string
}.

(** The object literal of [generateSampleConfig]. *)
Definition sampleConfig : JsValue :=
  JObj [("format", JStr "terminal");
        ("useCopilot", JBool true);
        ("showFiles", JBool true);
        ("showStats", JBool true);
        ("maxCommits", JNum 100)].

(** The text [devlog init] writes. *)
Definition generateSampleConfig `{JsonFns} : string :=
  JSON_stringify sampleConfig 2.

(** ** index.ts: the [init] command, and the end of [recap] by name *)

(** The action of [devlog init]. *)
Definition init `{JsonFns} : M unit :=
  w <- ask ;;
  let configPath := path_join (process_cwd w) ".devlogrc" in
  if fs_existsSync w configPath then
    ui (printWarning ".devlogrc already exists in this directory.")
  else
    emit (EvWriteFile configPath generateSampleConfig) ;;
    liftR (fs_writeFileSync w configPath generateSampleConfig) ;;
    ui (printInfo ("Created .devlogrc in " ++ process_cwd w)).

(** What the [recap] action does after its summary step: the export to
    a file, the JSON output and the footer. *)
Definition recapExport `{ExportFns} (options : Options) (commits : list CommitInfo)
  (repoName from to aiSummary : string) : M unit :=
  match opt_output options with
  | Some file =>
      if String.eqb file "" then ret tt
      else
        let content :=
          exportDailyMarkdown repoName (from ++ ".." ++ to) commits
                              (orElse aiSummary "") in
        emit (EvWriteFile file content) ;;
        w <- ask ;;
        liftR (fs_writeFileSync w file content) ;;
        ui (printInfo ("Exported to " ++ file))
  | None => ret tt
  end ;;
  (if opt_json options
   then emit (EvConsoleLog
                (exportJSON (mkEnvelope repoName from to (length commits)
                                        commits aiSummary)))
   else ret tt) ;;
  ui printFooter.

(** ** ui.ts: wrapping the text of a summary *)

(** The width of the terminal output; a summary is wrapped at
    [MAX_WIDTH - 6]. *)
Definition MAX_WIDTH : Z := 75.

(** One turn of the loop of [wrapText] over the words of a line: the
    lines made so far and the line being filled. *)
Definition wrapStep (width : Z) (st : list string * string) (word : string)
  : list string * string :=
  let '(lines, current) := st in
  if (width <? len current + len word + 1)%Z && (0 <? len current)%Z
  then ((lines ++ [current])%list, word)
  else (lines, if negb (String.eqb current "") then current ++ " " ++ word else word).

(** The function [wrapText] maps over the lines of the text. *)
Definition wrapLine (width : Z) (line : string) : string :=
  if (len line <=? width)%Z then line
  else
    let words := split line " " in
    let '(lines, current) := fold_left (wrapStep width) words ([], "") in
    let lines :=
      if negb (String.eqb current "") then (lines ++ [current])%list else lines in
    join LF lines.

(** [wrapText(text, width)]: every line of the text, wrapped. *)
Definition wrapText (text : string) (width : Z) : string :=
  join LF (map (wrapLine width) (split text LF)).

(* ===================================================================== *)
(** * More of the specification's vocabulary *)
(* ===================================================================== *)

(** ** The readers of git.ts *)

(** The message of the error [getGit] throws. *)
Definition notARepository : string :=
  "Not a git repository. Please run devlog from inside a git repository.".

(** The arguments of the two [diff] calls for a commit. *)
Definition statArgs (hash : string) : list string := [hash ++ "~1"; hash; "--stat"].

Definition shortstatArgs (hash : string) : list string :=
  [hash ++ "~1"; hash; "--shortstat"].

(** The file names in the output of [diff --stat]: of each line with a
    [|], what stands before the first one, trimmed. *)
Definition statFiles (stat : string) : list string :=
  map (fun line => trim (first (split line "|")))
      (List.filter (fun line => includes line "|") (split stat LF)).

(** What [getCommitDiff] yields for a commit in a world. *)
Definition diffOf (w : World) (hash : string) : string * list string :=
  match git_diff w (statArgs hash), git_diff w (shortstatArgs hash) with
  | Ok stat, Ok detail => (trim detail, statFiles stat)
  | _, _ => ("", [])
  end.

(** The commit [parseLogResult] makes of a log entry. *)
Definition commitOf (w : World) (entry : LogEntry) : CommitInfo :=
  mkCommit (entry_hash entry)
           (String.substring 0 7 (entry_hash entry))
           (entry_date entry)
           (entry_message entry)
           (entry_body entry)
           (author_name entry)
           (author_email entry)
           (snd (diffOf w (entry_hash entry)))
           (fst (diffOf w (entry_hash entry))).

(** The events of the [diff] calls for the commits of a log. *)
Definition diffEvents (w : World) (log : list LogEntry) : list Event :=
  flat_map (fun entry => fst (getCommitDiff (entry_hash entry) w)) log.

(** The calendar day of a group: that of its first commit. *)
Definition groupDay `{DateFns} (g : CommitGroup) : Result string :=
  match commits g with
  | c :: _ => dateKeyOf c
  | [] => Throw "no commit"
  end.

(** ** Texts *)

(** The text does not hold the character. *)
Fixpoint lacks (x : ascii) (s : string) : bool :=
  match s with
  | "" => true
  | String c r => negb (Ascii.eqb c x) && lacks x r
  end.

(** No occurrence of [m] in [body ++ x] starts inside [body]. *)
Fixpoint noStartIn (body x m : string) : bool :=
  match body with
  | "" => true
  | String _ b => negb (String.prefix m (body ++ x)) && noStartIn b x m
  end.

(** A text that starts with a line feed and holds no other. *)
Definition lineStart (m : string) : bool :=
  match m with
  | String c tail => Ascii.eqb c "010" && lacks "010" tail
  | "" => false
  end.

(** The characters of the text are no whitespace. *)
Fixpoint solid (p : string) : bool :=
  match p with
  | "" => true
  | String c r => negb (isWhiteSpace c) && solid r
  end.

(** A line that fits the width, or that is one word. *)
Definition fitsOrWord (width : Z) (l : string) : Prop :=
  (len l <= width)%Z \/ lacks " " l = true.

(** The words of a text: what stands between spaces and line feeds. *)
Definition isBreak (c : ascii) : bool := Ascii.eqb c " " || Ascii.eqb c "010".

(** The word read so far, if any; [cur] holds it last character first. *)
Definition wordOf (cur : list ascii) : list string :=
  match cur with
  | [] => []
  | _ => [string_of_list_ascii (rev cur)]
  end.

(** One pass over the text, closing a word at every space or line feed. *)
Fixpoint words_from (s : string) (cur : list ascii) : list string :=
  match s with
  | "" => wordOf cur
  | String c r =>
      if isBreak c then (wordOf cur ++ words_from r [])%list
      else words_from r (c :: cur)
  end.

Definition words (s : string) : list string := words_from s [].

(** ** Runs and what they show *)

(** A computation that never ends the process. *)
Definition stays {A} (m : M A) : Prop :=
  forall w c, snd (m w) <> Exited c.

(** A computation none of whose events shows under a view [f] of the
    events. *)
Definition mute {X} (f : Event -> list X) {A} (m : M A) : Prop :=
  forall w, flat_map f (fst (m w)) = [].

(** What a run does apart from asking git: its calls of [gh], what it
    shows, the files it writes and what it prints. *)
Definition visibleEvent (e : Event) : list Event :=
  match e with EvGit _ => [] | _ => [e] end.

Definition visible (trace : list Event) : list Event :=
  flat_map visibleEvent trace.

(** The [execFile] call of an event, without its timeout: a call of
    [gh]. The git processes simple-git starts are not among these. *)
Definition execCall (e : Event) : list (string * list string) :=
  match e with EvExec f a _ => [(f, a)] | _ => [] end.

(** The summaries a run shows, with their titles. *)
Definition summaryShown (e : Event) : list (string * string) :=
  match e with EvUi (printSummary title content) => [(title, content)] | _ => [] end.

Definition summaries (trace : list Event) : list (string * string) :=
  flat_map summaryShown trace.

(** The files a run writes, with their contents. *)
Definition fileWritten (e : Event) : list (string * string) :=
  match e with EvWriteFile path content => [(path, content)] | _ => [] end.

Definition fileWrites (trace : list Event) : list (string * string) :=
  flat_map fileWritten trace.

(** The call of [gh] the availability probe makes. *)
Definition probeCall : string * list string :=
  ("gh", ["copilot"; "--"; "--version"]).

(** The call of [gh] [askCopilot] makes for a prompt. *)
Definition promptCall (prompt : string) : string * list string :=
  ("gh", ["copilot"; "--"; "-p"; prompt]).

(** At most one call of [gh], and that one a prompt. *)
Definition promptAtMost (calls : list (string * list string)) : Prop :=
  calls = [] \/ exists prompt, calls = [promptCall prompt].

(** The announcement of the range the action reads. *)
Definition readingCommits (from to : string) : Event :=
  EvUi (spinnerStart ("Reading commits " ++ from ++ ".." ++ to ++ "...")).

(** The header of the recap of a range. *)
Definition recapHeader (repoName from to : string) : Event :=
  EvUi (printHeader ("Recap — " ++ repoName) (Some ("Range: " ++ from ++ ".." ++ to))).

(** What the action does before its summary step on a range with
    commits, apart from asking git. *)
Definition recapOpening (repoName from to : string) (commits : list CommitInfo)
  (groups : list CommitGroup) : list Event :=
  [EvUi spinnerStop; recapHeader repoName from to;
   EvUi (printStats commits); EvUi (printGroupedCommits groups)].

(** ** Configurations *)

(** The keys of [DevlogConfig]. *)
Definition recognisedKeys : list string :=
  ["format"; "useCopilot"; "author"; "showFiles"; "showStats"; "maxCommits"].

(** A JSON value that is no object. *)
Definition nonObject (v : JsValue) : bool :=
  match v with JObj _ => false | _ => true end.

(* ===================================================================== *)
(** * More sample data *)
(* ===================================================================== *)

(** A repository with a log: every range query answers [log], the stat
    of every commit is [stat] and its short stat [detail]. *)
Definition logWorld (log : list LogEntry) (stat detail : string) : World :=
  mkWorld "/home/ada/devlog" (os_homedir bareWorld)
          (fs_existsSync bareWorld) (fs_readFileSync bareWorld)
          (fs_writeFileSync bareWorld) (JSON_parse bareWorld)
          (execFile bareWorld)
          (Ok true) (fun _ => Ok log)
          (fun args => if String.eqb (List.last args "") "--stat"
                       then Ok stat else Ok detail)
          (fun _ => Ok (Some ("https://github.com/org/myrepo.git" ++ LF)))
          (fun _ => Ok ("/home/ada/devlog" ++ LF)).

(** Two log entries, the newer first. *)
Definition sampleLog : list LogEntry :=
  [mkEntry "a1a1a1a1a1a1" "2024-01-15T18:30:00Z" "feat: parser" "" "Ada" "ada@example.org";
   mkEntry "b2b2b2b2b2b2" "2024-01-14T23:00:00Z" "fix: typo" "" "Bob" "bob@example.org"].

(** The output of [diff --stat] and of [diff --shortstat] for a commit
    that touches two files. *)
Definition sampleStat : string :=
  " src/git.ts    | 12 ++++++------" ++ LF
  ++ " src/config.ts |  3 +++" ++ LF
  ++ " 2 files changed, 9 insertions(+), 6 deletions(-)" ++ LF.

Definition sampleShortstat : string :=
  " 2 files changed, 9 insertions(+), 6 deletions(-)" ++ LF.

(** A Copilot answer with the usage footer behind it. *)
Definition footedOutput : string :=
  "- parser rewritten" ++ LF ++ "- typo fixed" ++ LF ++ LF
  ++ "Total usage est: 1 Premium request" ++ LF ++ "API time spent: 4s".

(** The repository of [logWorld] with a [gh] that answers every call
    with [stdout]. *)
Definition copilotWorld (log : list LogEntry) (stdout : string) : World :=
  let w := logWorld log sampleStat sampleShortstat in
  mkWorld (process_cwd w) (os_homedir w)
          (fs_existsSync w) (fs_readFileSync w)
          (fs_writeFileSync w) (JSON_parse w)
          (fun _ _ _ => ExecOk stdout)
          (git_checkIsRepo w) (git_log w) (git_diff w)
          (git_remote w) (git_revparse w).

(** A world whose project [.devlogrc] holds a JSON array. *)
Definition arrayConfigWorld : World :=
  mkWorld "/work/devlog" "/home/ada"
          (fun p => String.eqb p "/work/devlog/.devlogrc")
          (fun _ => Ok "[false, 5]")
          (fun _ _ => Ok tt)
          (fun _ => Ok (JArr [JBool false; JNum 5]))
          (execFile bareWorld)
          (git_checkIsRepo bareWorld) (git_log bareWorld) (git_diff bareWorld)
          (git_remote bareWorld) (git_revparse bareWorld).

(** A printer that knows the sample object. *)
Definition samplePrinter : JsonFns :=
  {| JSON_stringify := fun _ _ =>
       "{" ++ LF
       ++ "  " ++ DQ ++ "format" ++ DQ ++ ": " ++ DQ ++ "terminal" ++ DQ ++ "," ++ LF
       ++ "  " ++ DQ ++ "useCopilot" ++ DQ ++ ": true," ++ LF
       ++ "  " ++ DQ ++ "showFiles" ++ DQ ++ ": true," ++ LF
       ++ "  " ++ DQ ++ "showStats" ++ DQ ++ ": true," ++ LF
       ++ "  " ++ DQ ++ "maxCommits" ++ DQ ++ ": 100" ++ LF
       ++ "}" |}.

(** The world after [devlog init] in [/work/devlog]: the project
    [.devlogrc] holds the sample and the parser reads it back. *)
Definition initialisedWorld : World :=
  mkWorld "/work/devlog" "/home/ada"
          (fun p => String.eqb p "/work/devlog/.devlogrc")
          (fun _ => Ok (@generateSampleConfig samplePrinter))
          (fun _ _ => Ok tt)
          (fun content => if String.eqb content (@generateSampleConfig samplePrinter)
                          then Ok sampleConfig
                          else Throw "Unexpected token")
          (execFile bareWorld)
          (git_checkIsRepo bareWorld) (git_log bareWorld) (git_diff bareWorld)
          (git_remote bareWorld) (git_revparse bareWorld).
(* ===================================================================== *)
(** * Facts about the string methods *)
(* ===================================================================== *)

Lemma append_assoc (a b c : string) : (a ++ b) ++ c = a ++ (b ++ c).
Proof. induction a as [|x a IH]; simpl; [reflexivity | now rewrite IH]. Qed.

Lemma append_nil_r (a : string) : a ++ "" = a.
Proof. induction a as [|x a IH]; simpl; [reflexivity | now rewrite IH]. Qed.

Lemma prefix_nil (s : string) : String.prefix "" s = true.
Proof. now destruct s. Qed.

Lemma prefix_cons (a b : ascii) (p s : string) :
  String.prefix (String a p) (String b s) = Ascii.eqb a b && String.prefix p s.
Proof.
  cbn [String.prefix]. destruct (ascii_dec a b) as [->|Hne].
  - now rewrite Ascii.eqb_refl.
  - apply Ascii.eqb_neq in Hne. now rewrite Hne.
Qed.

Lemma string_of_rev_cons (cur : list ascii) (c : ascii) (r : string) :
  string_of_list_ascii (rev (c :: cur)) ++ r
  = string_of_list_ascii (rev cur) ++ String c r.
Proof.
  cbn [rev]. induction (rev cur) as [|x l IH]; simpl; [reflexivity|].
  now rewrite IH.
Qed.

(** ** Case folding *)

Lemma lowerChar_folds (c l : ascii) :
  isUpper l = false -> Ascii.eqb (lowerChar c) l = foldsTo c l.
Proof.
  intros Hl. unfold lowerChar, foldsTo.
  destruct (isUpper c) eqn:Hc; simpl.
  - assert (Hne : Ascii.eqb c l = false).
    { apply Ascii.eqb_neq. intros ->. congruence. }
    rewrite Hne. simpl.
    unfold isUpper in Hc. apply andb_prop in Hc as [H1 H2].
    apply Nat.leb_le in H1, H2.
    destruct (Nat.eqb_spec (nat_of_ascii c + 32) (nat_of_ascii l)) as [E|E].
    + apply Ascii.eqb_eq. rewrite E. apply ascii_nat_embedding.
    + apply Ascii.eqb_neq. intros <-. apply E.
      rewrite nat_ascii_embedding; [reflexivity | lia].
  - now rewrite orb_false_r.
Qed.

Lemma prefix_toLowerCase (p s : string) :
  lowerOnly p = true -> String.prefix p (toLowerCase s) = ci_prefix p s.
Proof.
  revert s. induction p as [|l p IH]; intros s Hp; simpl.
  - now destruct s.
  - simpl in Hp. apply andb_prop in Hp as [Hl Hp].
    apply negb_true_iff in Hl.
    destruct s as [|c s]; simpl; [reflexivity|].
    rewrite <- (lowerChar_folds c l Hl), <- (IH s Hp).
    destruct (Ascii.eqb_spec (lowerChar c) l) as [->|E].
    + destruct (ascii_dec l l); [reflexivity | congruence].
    + destruct (ascii_dec l (lowerChar c)); [congruence | reflexivity].
Qed.

Lemma includes_toLowerCase (p s : string) :
  lowerOnly p = true -> includes (toLowerCase s) p = ci_includes s p.
Proof.
  intros Hp. induction s as [|c s IH].
  - simpl. rewrite <- (prefix_toLowerCase p "" Hp). reflexivity.
  - cbn [toLowerCase includes ci_includes].
    rewrite IH. f_equal. apply (prefix_toLowerCase p (String c s) Hp).
Qed.

(** ** Trimming *)

Lemma trimEnd_allWhiteSpace (w : string) : allWhiteSpace w = true -> trimEnd w = "".
Proof.
  induction w as [|c w IH]; simpl; [reflexivity|].
  intros H. apply andb_prop in H as [Hc Hw]. now rewrite (IH Hw), Hc.
Qed.

Lemma trimStart_allWhiteSpace (w : string) : allWhiteSpace w = true -> trimStart w = "".
Proof.
  induction w as [|c w IH]; simpl; [reflexivity|].
  intros H. apply andb_prop in H as [Hc Hw]. now rewrite Hc, (IH Hw).
Qed.

Lemma trimEnd_app_ws (s w : string) :
  allWhiteSpace w = true -> trimEnd (s ++ w) = trimEnd s.
Proof.
  intros Hw. induction s as [|c s IH]; simpl.
  - now apply trimEnd_allWhiteSpace.
  - now rewrite IH.
Qed.

Lemma trimStart_app_ws (s w : string) :
  allWhiteSpace w = true ->
  trimStart (s ++ w) = if allWhiteSpace s then "" else trimStart s ++ w.
Proof.
  intros Hw. induction s as [|c s IH]; simpl.
  - now apply trimStart_allWhiteSpace.
  - destruct (isWhiteSpace c); simpl; [exact IH | reflexivity].
Qed.

(** Trailing whitespace does not survive [trim]. *)
Lemma trim_app_ws (s w : string) :
  allWhiteSpace w = true -> trim (s ++ w) = trim s.
Proof.
  intros Hw. unfold trim. rewrite (trimStart_app_ws s w Hw).
  destruct (allWhiteSpace s) eqn:Hs.
  - now rewrite (trimStart_allWhiteSpace s Hs).
  - now apply trimEnd_app_ws.
Qed.

Lemma trimEnd_idem (s : string) : trimEnd (trimEnd s) = trimEnd s.
Proof.
  induction s as [|c s IH]; simpl; [reflexivity|].
  destruct (trimEnd s) as [|d r] eqn:E.
  - destruct (isWhiteSpace c) eqn:Hc; simpl; [reflexivity | now rewrite Hc].
  - cbn [trimEnd]. cbn [trimEnd] in IH. now rewrite IH.
Qed.

Lemma trimStart_head (s : string) :
  trimStart s = "" \/
  exists c r, trimStart s = String c r /\ isWhiteSpace c = false.
Proof.
  induction s as [|c s IH]; simpl; [now left|].
  destruct (isWhiteSpace c) eqn:Hc; [exact IH | right; eauto].
Qed.

Lemma trimEnd_head (c : ascii) (r : string) :
  isWhiteSpace c = false -> exists r', trimEnd (String c r) = String c r'.
Proof.
  intros Hc. simpl. destruct (trimEnd r); rewrite ?Hc; eauto.
Qed.

(** The result of [trim] has no whitespace at either end. *)
Lemma trim_trimmed (s : string) : trimmed (trim s).
Proof.
  unfold trimmed, trim. split; [|apply trimEnd_idem].
  destruct (trimStart_head s) as [E | (c & r & E & Hc)]; rewrite E.
  - reflexivity.
  - destruct (trimEnd_head c r Hc) as [r' E']. rewrite E'. simpl. now rewrite Hc.
Qed.

(** ** Heads of a text and what they hold *)

Lemma substring0_cons (n : nat) (c : ascii) (r : string) :
  String.substring 0 (S n) (String c r) = String c (String.substring 0 n r).
Proof. reflexivity. Qed.

Lemma substring0_zero (s : string) : String.substring 0 0 s = "".
Proof. now destruct s. Qed.

Lemma substring0_all (s : string) (n : nat) :
  (String.length s <= n)%nat -> String.substring 0 n s = s.
Proof.
  revert n. induction s as [|c s IH]; intros n Hn.
  - now destruct n.
  - destruct n as [|n]; cbn in Hn; [lia|].
    rewrite substring0_cons, IH; [reflexivity | lia].
Qed.

Lemma prefix_of_head (m s : string) (n : nat) :
  String.prefix m (String.substring 0 n s) = true -> String.prefix m s = true.
Proof.
  revert s n. induction m as [|a m IH]; intros s n; [now rewrite !prefix_nil|].
  destruct s as [|c s]; [now destruct n|].
  destruct n as [|n]; [rewrite substring0_zero; discriminate|].
  rewrite substring0_cons, !prefix_cons.
  intros H. apply andb_prop in H as [-> H]. cbn [andb]. now apply (IH s n).
Qed.

(** A text holds what one of its heads holds. *)
Lemma includes_of_head (s m : string) (n : nat) :
  includes (String.substring 0 n s) m = true -> includes s m = true.
Proof.
  revert n. induction s as [|c s IH]; intros n.
  - now destruct n.
  - destruct n as [|n].
    + rewrite substring0_zero. cbn [includes]. rewrite orb_false_r.
      intros H. destruct m; [|discriminate]. cbn [includes].
      now rewrite prefix_nil.
    + rewrite substring0_cons. cbn [includes].
      intros H. apply orb_prop in H as [H|H].
      * rewrite <- substring0_cons in H. apply prefix_of_head in H. now rewrite H.
      * apply IH in H. rewrite H. apply orb_true_r.
Qed.

Lemma includes_of_tail (c : ascii) (s m : string) :
  includes s m = true -> includes (String c s) m = true.
Proof. intros H. cbn [includes]. rewrite H. apply orb_true_r. Qed.

Lemma includes_trimStart (s m : string) :
  includes (trimStart s) m = true -> includes s m = true.
Proof.
  induction s as [|c s IH]; [trivial|]. cbn [trimStart].
  destruct (isWhiteSpace c); [|trivial].
  intros H. apply includes_of_tail. now apply IH.
Qed.

Lemma trimEnd_head_of (s : string) :
  exists n, trimEnd s = String.substring 0 n s.
Proof.
  induction s as [|c s [n IH]]; [now exists 0%nat|]. cbn [trimEnd].
  destruct (trimEnd s) as [|d r] eqn:E.
  - destruct (isWhiteSpace c).
    + now exists 0%nat.
    + exists 1%nat. now rewrite substring0_cons, substring0_zero.
  - exists (S n). now rewrite substring0_cons, <- IH.
Qed.

(** [trim] invents no text. *)
Lemma includes_trim (s m : string) :
  includes (trim s) m = true -> includes s m = true.
Proof.
  unfold trim. destruct (trimEnd_head_of (trimStart s)) as [n ->].
  intros H. apply includes_of_head in H. now apply includes_trimStart.
Qed.

Lemma indexOf_lower (s m : string) : (-1 <= indexOf s m)%Z.
Proof.
  induction s as [|c s IH]; cbn [indexOf].
  - destruct (String.prefix m ""); lia.
  - destruct (String.prefix m (String c s)); [lia|].
    destruct (Z.eqb_spec (indexOf s m) (-1)); lia.
Qed.

(** The head of a text before the first occurrence holds none. *)
Lemma includes_before_first (s m : string) (n : nat) :
  m <> "" ->
  indexOf s m = (-1)%Z \/ (Z.of_nat n <= indexOf s m)%Z ->
  includes (String.substring 0 n s) m = false.
Proof.
  intros Hm. revert n. induction s as [|c s IH]; intros n Hn.
  - assert (String.substring 0 n "" = "") as -> by now destruct n.
    cbn [includes]. destruct m; [congruence | reflexivity].
  - destruct n as [|n].
    + rewrite substring0_zero. cbn [includes]. destruct m; [congruence | reflexivity].
    + rewrite substring0_cons. cbn [includes]. cbn [indexOf] in Hn.
      destruct (String.prefix m (String c s)) eqn:Hp; [lia|].
      apply orb_false_intro.
      * destruct (String.prefix m (String c (String.substring 0 n s))) eqn:Hq;
          [|reflexivity].
        rewrite <- substring0_cons in Hq. apply prefix_of_head in Hq. congruence.
      * apply IH. pose proof (indexOf_lower s m).
        destruct (Z.eqb_spec (indexOf s m) (-1)); [now left | right; lia].
Qed.

(** ** Splitting on the range separator *)

Lemma countOcc_zero_includes (s p : string) :
  countOcc s p = 0%nat <-> includes s p = false.
Proof.
  induction s as [|c s IH]; cbn [countOcc includes].
  - destruct (String.prefix p ""); cbn; split; (lia || discriminate || reflexivity).
  - destruct (String.prefix p (String c s)); cbn [orb Nat.add].
    + split; (lia || discriminate).
    + exact IH.
Qed.

Lemma split_from_nonempty (s sep : string) (skip : nat) (cur : list ascii) :
  split_from s sep skip cur <> [].
Proof.
  revert skip cur. induction s as [|c s IH]; intros skip cur; cbn [split_from].
  - discriminate.
  - destruct skip; [|apply IH].
    destruct (String.prefix sep (String c s)); [discriminate | apply IH].
Qed.

(** Without a separator the text is the only part. *)
Lemma split_no_separator (s : string) (cur : list ascii) :
  countOcc s ".." = 0%nat ->
  split_from s ".." 0 cur = [string_of_list_ascii (rev cur) ++ s].
Proof.
  revert cur. induction s as [|c s IH]; intros cur Hc.
  - simpl. now rewrite append_nil_r.
  - cbn [countOcc] in Hc. cbn [split_from].
    destruct (String.prefix ".." (String c s)); [simpl in Hc; lia|].
    rewrite (IH (c :: cur)); [|simpl in Hc; lia].
    now rewrite string_of_rev_cons.
Qed.

Lemma countOcc_tail (c : ascii) (s : string) :
  countOcc (String c s) ".." = 0%nat -> countOcc s ".." = 0%nat.
Proof.
  cbn [countOcc]. destruct (String.prefix ".." (String c s)); cbn [Nat.add]; lia.
Qed.

Lemma prefix_dots (b : string) : String.prefix ".." (String "." (String "." b)) = true.
Proof. cbn. now destruct b. Qed.

Lemma countOcc_dots (b : string) :
  countOcc (String "." (String "." b)) ".." = S (countOcc (String "." b) "..").
Proof. cbn [countOcc]. now rewrite prefix_dots. Qed.

Lemma split_from_dots (b : string) (cur : list ascii) :
  split_from (String "." (String "." b)) ".." 0 cur
  = string_of_list_ascii (rev cur) :: split_from b ".." 0 [].
Proof. cbn [split_from]. now rewrite prefix_dots. Qed.

Lemma countOcc_separator (a b : string) : (1 <= countOcc (a ++ ".." ++ b) "..")%nat.
Proof.
  induction a as [|c a IH].
  - change ("" ++ ".." ++ b) with (String "." (String "." b)).
    rewrite countOcc_dots. lia.
  - change (String c a ++ ".." ++ b) with (String c (a ++ ".." ++ b)).
    cbn [countOcc]. lia.
Qed.

(** One separator: the parts are what stands before it and behind it. *)
Lemma split_one_separator (from to : string) (cur : list ascii) :
  countOcc (from ++ ".." ++ to) ".." = 1%nat ->
  split_from (from ++ ".." ++ to) ".." 0 cur
  = [string_of_list_ascii (rev cur) ++ from; to].
Proof.
  revert cur. induction from as [|c from IH]; intros cur Hc.
  - change ("" ++ ".." ++ to) with (String "." (String "." to)) in *.
    rewrite countOcc_dots in Hc. rewrite split_from_dots, append_nil_r.
    rewrite (split_no_separator to []); [reflexivity|].
    apply (countOcc_tail "."). lia.
  - pose proof (countOcc_separator from to) as Hge.
    change (String c from ++ ".." ++ to) with (String c (from ++ ".." ++ to)) in *.
    cbn [countOcc] in Hc. cbn [split_from].
    destruct (String.prefix ".." (String c (from ++ ".." ++ to)));
      [lia|].
    rewrite (IH (c :: cur)); [|lia].
    now rewrite string_of_rev_cons.
Qed.

Example split_three_dots : split "a...b" ".." = ["a"; ".b"].
Proof. reflexivity. Qed.

Example split_bare_separator : split ".." ".." = [""; ""].
Proof. reflexivity. Qed.

Example split_two_separators : split "a..b..c" ".." = ["a"; "b"; "c"].
Proof. reflexivity. Qed.

Lemma split_range (from to : string) :
  countOcc (from ++ ".." ++ to) ".." = 1%nat ->
  split (from ++ ".." ++ to) ".." = [from; to].
Proof. intros Hc. unfold split. now rewrite split_one_separator. Qed.

(* ===================================================================== *)
(** * Facts about runs *)
(* ===================================================================== *)

Lemma bind_trace_prefix {A B} (m : M A) (k : A -> M B) (w : World) :
  exists t, fst (bind m k w) = (fst (m w) ++ t)%list.
Proof.
  unfold bind. destruct (m w) as [t1 [a|e|c]]; cbn [fst].
  - destruct (k a w) as [t2 o]. now exists t2.
  - exists []. now rewrite app_nil_r.
  - exists []. now rewrite app_nil_r.
Qed.

Lemma tryCatch_trace_prefix {A} (m : M A) (h : string -> M A) (w : World) :
  exists t, fst (tryCatch m h w) = (fst (m w) ++ t)%list.
Proof.
  unfold tryCatch. destruct (m w) as [t1 [a|e|c]]; cbn [fst].
  - exists []. now rewrite app_nil_r.
  - destruct (h e w) as [t2 o]. now exists t2.
  - exists []. now rewrite app_nil_r.
Qed.

Lemma bind_value {A B} (m : M A) (k : A -> M B) (w : World)
  (t : list Event) (a : A) :
  m w = (t, Value a) ->
  bind m k w = ((t ++ fst (k a w))%list, snd (k a w)).
Proof. intros Hm. unfold bind. rewrite Hm. now destruct (k a w). Qed.

Lemma git_trace_head {A} (g : GitCall) (answer : World -> Result A) (w : World) :
  exists t, fst (git g answer w) = EvGit g :: t.
Proof.
  unfold git, bind, emit, ask, liftR, ret, throw. cbn.
  destruct (answer w); eexists; reflexivity.
Qed.

(** Rewrites the trace of the outermost [bind] run in [w] into the
    trace of its first computation followed by some events. *)
Ltac head_of_bind w :=
  match goal with
  | |- context [fst (bind ?m ?k w)] =>
      let t := fresh "t" in
      destruct (bind_trace_prefix m k w) as [t ->]
  end.

Lemma getGit_run (w : World) :
  getGit w =
  ([EvGit GitCheckIsRepo],
   match git_checkIsRepo w with
   | Ok true => Value tt
   | Ok false =>
       Thrown "Not a git repository. Please run devlog from inside a git repository."
   | Throw e => Thrown e
   end).
Proof.
  unfold getGit, git, bind, emit, ask, liftR, ret, throw. cbn.
  destruct (git_checkIsRepo w) as [[|]|e]; reflexivity.
Qed.

(* ===================================================================== *)
(** * git.ts: grouping by date *)
(* ===================================================================== *)

Section GrouperFacts.
Context `{DateFns}.

Lemma has_app {V} (m1 m2 : JsMap.t V) k :
  JsMap.has (m1 ++ m2)%list k = JsMap.has m1 k || JsMap.has m2 k.
Proof.
  induction m1 as [|[k' v] m1 IH]; simpl; [reflexivity|].
  now rewrite IH, orb_assoc.
Qed.

Lemma has_in {V} (m : JsMap.t V) k : JsMap.has m k = true <-> In k (map fst m).
Proof.
  induction m as [|[k' v] m IH]; simpl; [split; [discriminate|tauto]|].
  rewrite orb_true_iff, IH, String.eqb_eq. tauto.
Qed.

Lemma set_absent {V} (m : JsMap.t V) k v :
  JsMap.has m k = false -> JsMap.set m k v = (m ++ [(k, v)])%list.
Proof.
  induction m as [|[k' v'] m IH]; simpl; [reflexivity|].
  intros Hh. apply orb_false_elim in Hh as [Hk Hm].
  now rewrite Hk, (IH Hm).
Qed.

Lemma groupStep_push (m : JsMap.t (list CommitInfo)) (c : CommitInfo) (k : string) :
  dateKeyOf c = Ok k ->
  groupStep (Ok m) c = Ok (pushCommit m k c).
Proof.
  intros Hk. unfold groupStep, pushCommit. cbn [bindR]. rewrite Hk. cbn [bindR].
  destruct (JsMap.has m k) eqn:Hh; cbn [negb].
  - assert (Hg : exists arr, JsMap.get m k = Some arr).
    { clear -Hh. induction m as [|[k' v] m IH]; simpl in *; [discriminate|].
      destruct (String.eqb k' k); [eauto | now apply IH]. }
    destruct Hg as [arr ->]. reflexivity.
  - rewrite (set_absent m k [] Hh).
    assert (Hg : JsMap.get (m ++ [(k, [])])%list k = Some []).
    { clear -Hh. induction m as [|[k' v] m IH]; simpl in *.
      - now rewrite String.eqb_refl.
      - apply orb_false_elim in Hh as [-> Hm]. now apply IH. }
    rewrite Hg. cbn [app].
    assert (Hs : JsMap.set (m ++ [(k, [])])%list k [c] = (m ++ [(k, [c])])%list).
    { clear -Hh. induction m as [|[k' v] m IH]; simpl in *.
      - now rewrite String.eqb_refl.
      - apply orb_false_elim in Hh as [-> Hm]. now rewrite (IH Hm). }
    now rewrite Hs.
Qed.

Lemma set_present {V} (m : JsMap.t V) k :
  JsMap.has m k = true ->
  exists m1 arr m2,
    m = (m1 ++ (k, arr) :: m2)%list /\ JsMap.has m1 k = false
    /\ JsMap.get m k = Some arr
    /\ forall v, JsMap.set m k v = (m1 ++ (k, v) :: m2)%list.
Proof.
  induction m as [|[k' v'] m IH]; simpl; [discriminate|].
  destruct (String.eqb_spec k' k) as [->|Hne]; simpl.
  - intros _. exists [], v', m. repeat split; reflexivity.
  - intros Hh. destruct (IH Hh) as (m1 & arr & m2 & -> & H1 & H2 & H3).
    exists ((k', v') :: m1), arr, m2. cbn [app JsMap.has].
    apply String.eqb_neq in Hne. rewrite Hne, H1.
    repeat split; try assumption. intros v. now rewrite H3.
Qed.

Lemma filter_snoc {A} (f : A -> bool) (l : list A) (x : A) :
  List.filter f (l ++ [x]) = (List.filter f l ++ if f x then [x] else [])%list.
Proof. rewrite List.filter_app. reflexivity. Qed.

Lemma filter_none {A} (f : A -> bool) (l : list A) :
  (forall x, In x l -> f x = false) -> List.filter f l = [].
Proof.
  induction l as [|x l IH]; intros Hf; simpl; [reflexivity|].
  rewrite (Hf x (or_introl eq_refl)). apply IH. intros y Hy. apply Hf. now right.
Qed.

Lemma onDay_key (c : CommitInfo) (k k' : string) :
  dateKeyOf c = Ok k -> onDay k' c = String.eqb k k'.
Proof. intros Hk. unfold onDay. now rewrite Hk. Qed.

Lemma entry_other (pre : list CommitInfo) (c : CommitInfo) (k : string)
  (e : string * list CommitInfo) :
  dateKeyOf c = Ok k -> fst e <> k ->
  snd e <> [] /\ snd e = List.filter (onDay (fst e)) pre ->
  snd e <> [] /\ snd e = List.filter (onDay (fst e)) (pre ++ [c]).
Proof.
  intros Hk Hne [Hnil Hf]. split; [exact Hnil|].
  rewrite filter_snoc, (onDay_key c k (fst e) Hk).
  assert (String.eqb k (fst e) = false) as -> by (apply String.eqb_neq; congruence).
  now rewrite app_nil_r.
Qed.

Lemma pushCommit_inv (pre : list CommitInfo) (m : JsMap.t (list CommitInfo))
  (c : CommitInfo) (k : string) :
  dateKeyOf c = Ok k -> GroupsInv pre m -> GroupsInv (pre ++ [c]) (pushCommit m k c).
Proof.
  intros Hk [Hkeys Hent Hcov Hperm]. unfold pushCommit.
  destruct (JsMap.has m k) eqn:Hh.
  - destruct (set_present m k Hh) as (m1 & arr & m2 & -> & H1 & -> & Hset).
    rewrite Hset. clear Hset.
    rewrite map_app in Hkeys. cbn [map fst] in Hkeys.
    apply List.Forall_app in Hent as [Hent1 Hent2].
    apply List.Forall_cons_iff in Hent2 as [[Harr Hfil] Hent2]. cbn [fst snd] in *.
    assert (Hk1 : forall e, In e m1 -> fst e <> k).
    { intros e He Heq. apply List.NoDup_remove_2 in Hkeys. apply Hkeys.
      rewrite <- Heq. apply in_or_app. left. now apply in_map. }
    assert (Hk2 : forall e, In e m2 -> fst e <> k).
    { intros e He Heq. apply List.NoDup_remove_2 in Hkeys. apply Hkeys.
      rewrite <- Heq. apply in_or_app. right. now apply in_map. }
    constructor.
    + rewrite map_app. exact Hkeys.
    + apply List.Forall_app. split; [|apply List.Forall_cons_iff; split].
      * rewrite List.Forall_forall in *. intros e He.
        apply (entry_other pre c k e Hk (Hk1 e He)). now apply Hent1.
      * cbn [fst snd]. split; [now destruct arr|].
        rewrite filter_snoc, (onDay_key c k k Hk), String.eqb_refl. now rewrite Hfil at 1.
      * rewrite List.Forall_forall in *. intros e He.
        apply (entry_other pre c k e Hk (Hk2 e He)). now apply Hent2.
    + apply List.Forall_app. split.
      * rewrite List.Forall_forall in *. intros c' Hc'.
        destruct (Hcov c' Hc') as (k' & Hk' & Hhas). exists k'. split; [exact Hk'|].
        rewrite has_app in *. cbn [JsMap.has] in *. exact Hhas.
      * repeat constructor. exists k. split; [exact Hk|].
        rewrite has_app. cbn [JsMap.has]. rewrite String.eqb_refl.
        now rewrite orb_true_r.
    + rewrite map_app, concat_app in *. cbn [map snd concat] in *.
      rewrite <- Hperm. rewrite <- !List.app_assoc.
      apply Permutation_app_head. apply Permutation_app_head.
      apply Permutation_app_comm.
  - constructor.
    + rewrite map_app. cbn [map fst].
      apply List.NoDup_app; [exact Hkeys | |].
      * repeat constructor. intros [].
      * intros x Hx [<-|[]]. apply has_in in Hx. congruence.
    + apply List.Forall_app. split.
      * rewrite List.Forall_forall in *. intros e He.
        apply (entry_other pre c k e Hk); [|now apply Hent].
        intros <-. assert (JsMap.has m (fst e) = true); [|congruence].
        apply has_in. now apply in_map.
      * repeat constructor; cbn [fst snd]; [discriminate|].
        rewrite filter_snoc, (onDay_key c k k Hk), String.eqb_refl.
        assert (List.filter (onDay k) pre = []) as ->; [|reflexivity].
        apply filter_none. rewrite List.Forall_forall in Hcov. intros c' Hc'.
        destruct (Hcov c' Hc') as (k' & Hk' & Hhas).
        rewrite (onDay_key c' k' k Hk'). apply String.eqb_neq. congruence.
    + apply List.Forall_app. split.
      * rewrite List.Forall_forall in *. intros c' Hc'.
        destruct (Hcov c' Hc') as (k' & Hk' & Hhas). exists k'. split; [exact Hk'|].
        rewrite has_app, Hhas. reflexivity.
      * repeat constructor. exists k. split; [exact Hk|].
        rewrite has_app. cbn [JsMap.has]. rewrite String.eqb_refl.
        now rewrite orb_true_r.
    + rewrite map_app, concat_app. cbn [map snd concat].
      rewrite app_nil_r. now apply Permutation_app_tail.
Qed.

Lemma validDate_key (c : CommitInfo) :
  validDate c -> exists k, dateKeyOf c = Ok k.
Proof.
  intros [Hp _]. unfold dateKeyOf, format.
  destruct (parseISO (date c)); [eauto | congruence].
Qed.

Lemma groupLoop_inv (cs pre : list CommitInfo) (m : JsMap.t (list CommitInfo)) :
  Forall validDate cs -> GroupsInv pre m ->
  exists m', fold_left groupStep cs (Ok m) = Ok m' /\ GroupsInv (pre ++ cs) m'.
Proof.
  revert pre m. induction cs as [|c cs IH]; intros pre m Hv Hinv.
  - exists m. rewrite app_nil_r. now split.
  - apply List.Forall_cons_iff in Hv as [Hc Hv].
    destruct (validDate_key c Hc) as [k Hk].
    cbn [fold_left]. rewrite (groupStep_push m c k Hk).
    destruct (IH (pre ++ [c])%list (pushCommit m k c) Hv
                 (pushCommit_inv pre m c k Hk Hinv)) as (m' & Hm' & Hinv').
    exists m'. split; [exact Hm'|]. now rewrite <- List.app_assoc in Hinv'.
Qed.

Lemma GroupsInv_nil : GroupsInv [] [].
Proof. constructor; cbn; constructor. Qed.

Lemma labelLoop (m : JsMap.t (list CommitInfo)) (acc : list CommitGroup) :
  Forall (fun e => exists c r, snd e = c :: r /\ validDate c) m ->
  fold_left labelStep m (Ok acc) = Ok (acc ++ map toGroup m)%list.
Proof.
  revert acc. induction m as [|[k cs] m IH]; intros acc Hm.
  - cbn. now rewrite app_nil_r.
  - apply List.Forall_cons_iff in Hm as [(c & r & Hcs & [Hp _]) Hm].
    cbn [snd] in Hcs. subst cs. cbn [fold_left labelStep bindR].
    unfold format. destruct (parseISO (date c)) as [t|] eqn:Ht; [|congruence].
    cbn [bindR]. rewrite (IH _ Hm). cbn [map]. unfold toGroup at 2.
    cbn [snd labelOf]. rewrite Ht. now rewrite <- List.app_assoc.
Qed.

(** Sorting by the comparator. *)
Lemma insertBy_perm {A} (cmp : A -> A -> Z) (x : A) (l : list A) :
  Permutation (insertBy cmp x l) (x :: l).
Proof.
  induction l as [|y l IH]; cbn [insertBy]; [reflexivity|].
  destruct (cmp x y <=? 0)%Z; [reflexivity|].
  rewrite IH. apply perm_swap.
Qed.

Lemma sortBy_perm {A} (cmp : A -> A -> Z) (l : list A) :
  Permutation (sortBy cmp l) l.
Proof.
  induction l as [|x l IH]; cbn; [reflexivity|].
  unfold sortBy in IH. now rewrite insertBy_perm, IH.
Qed.

Lemma firstTime_cmp (a b : CommitGroup) (ta tb : Z) :
  firstTime a = Some ta -> firstTime b = Some tb ->
  byFirstDateDesc a b = (tb - ta)%Z.
Proof. intros Ha Hb. unfold byFirstDateDesc. now rewrite Ha, Hb. Qed.

Lemma notAfter_trans (a b c : CommitGroup) :
  notAfter a b -> notAfter b c -> notAfter a c.
Proof.
  intros (ta & tb & Ha & Hb & Hab) (tb' & tc & Hb' & Hc & Hbc).
  exists ta, tc. repeat split; try assumption.
  rewrite Hb in Hb'. injection Hb' as <-. lia.
Qed.

Lemma insertBy_sorted (x : CommitGroup) (l : list CommitGroup) :
  firstTime x <> None -> Forall (fun g => firstTime g <> None) l ->
  StronglySorted notAfter l ->
  StronglySorted notAfter (insertBy byFirstDateDesc x l).
Proof.
  intros Hx Hl Hs. induction Hs as [|y l Hs IH Hy]; cbn [insertBy].
  - repeat constructor.
  - apply List.Forall_cons_iff in Hl as [Hyt Hl].
    destruct (firstTime x) as [tx|] eqn:Ex; [|congruence].
    destruct (firstTime y) as [ty|] eqn:Ey; [|congruence].
    rewrite (firstTime_cmp x y tx ty Ex Ey).
    destruct (Z.leb_spec (ty - tx) 0) as [Hle|Hgt].
    + assert (Hxy : notAfter x y) by (exists tx, ty; repeat split; auto; lia).
      constructor; [now constructor|].
      constructor; [exact Hxy|].
      eapply List.Forall_impl; [|exact Hy]. intros z Hyz.
      now apply (notAfter_trans x y z).
    + constructor; [now apply IH|].
      assert (Hyx : notAfter y x) by (exists ty, tx; repeat split; auto; lia).
      eapply Permutation_Forall; [symmetry; apply insertBy_perm|].
      now constructor.
Qed.

Lemma sortBy_sorted (l : list CommitGroup) :
  Forall (fun g => firstTime g <> None) l ->
  StronglySorted notAfter (sortBy byFirstDateDesc l).
Proof.
  induction l as [|x l IH]; intros Hl; cbn; [constructor|].
  apply List.Forall_cons_iff in Hl as [Hx Hl].
  apply insertBy_sorted; [exact Hx | | now apply IH].
  eapply Permutation_Forall; [symmetry; apply sortBy_perm | exact Hl].
Qed.

Lemma onDay_true (k : string) (c : CommitInfo) :
  onDay k c = true -> dateKeyOf c = Ok k.
Proof.
  unfold onDay. destruct (dateKeyOf c) as [k'|e]; [|discriminate].
  intros Hk. apply String.eqb_eq in Hk. now subst.
Qed.

Lemma entry_head (cs : list CommitInfo) (e : string * list CommitInfo) :
  Forall validDate cs ->
  snd e <> [] /\ snd e = List.filter (onDay (fst e)) cs ->
  exists c r, snd e = c :: r /\ validDate c.
Proof.
  intros Hv [Hne Hf]. destruct (snd e) as [|c r] eqn:E; [congruence|].
  exists c, r. split; [reflexivity|].
  rewrite List.Forall_forall in Hv. apply Hv.
  assert (Hin : In c (List.filter (onDay (fst e)) cs)) by (rewrite <- Hf; now left).
  now apply List.filter_In in Hin.
Qed.

(** What the two loops and the sort make of a list of commits with
    readable dates. *)
Lemma groupCommitsByDate_run (cs : list CommitInfo) :
  Forall validDate cs ->
  exists m,
    GroupsInv cs m
    /\ groupCommitsByDate cs = Ok (sortBy byFirstDateDesc (map toGroup m)).
Proof.
  intros Hv.
  destruct (groupLoop_inv cs [] [] Hv GroupsInv_nil) as (m & Hm & Hinv).
  cbn [app] in Hinv. exists m. split; [exact Hinv|].
  unfold groupCommitsByDate. unfold JsMap.t in *. rewrite Hm. cbn [bindR].
  rewrite (labelLoop m []); [reflexivity|].
  destruct Hinv as [_ Hent _ _].
  eapply List.Forall_impl; [|exact Hent].
  intros e He. now apply (entry_head cs).
Qed.
End GrouperFacts.

Section GrouperTheorem.
Context `{DateFns}.

(** The day the code keys a commit by is its calendar day. *)
Lemma sameDay_onDay (k : string) (c : CommitInfo) : sameDay k c = onDay k c.
Proof.
  unfold sameDay, calendarDay, onDay, dateKeyOf, format.
  now destruct (parseISO (date c)).
Qed.

Lemma onDay_calendarDay (k : string) (c : CommitInfo) :
  onDay k c = true -> calendarDay c = Some k.
Proof.
  intros Hk. apply onDay_true in Hk. unfold dateKeyOf, format, calendarDay in *.
  destruct (parseISO (date c)); [now injection Hk as -> | discriminate].
Qed.

(** The order of the sort is that of the first commits' times. *)
Lemma notAfter_newerFirst (l : list CommitGroup) :
  StronglySorted notAfter l -> StronglySorted newerFirst l.
Proof.
  assert (Hstep : forall g1 g2, notAfter g1 g2 -> newerFirst g1 g2).
  { intros g1 g2 (t1 & t2 & H1 & H2 & Hle). unfold firstTime in *.
    destruct (commits g1) as [|c1 r1] eqn:E1; [discriminate|].
    destruct (commits g2) as [|c2 r2] eqn:E2; [discriminate|].
    unfold newerFirst. rewrite E1, E2. now exists c1, r1, c2, r2, t1, t2. }
  induction 1 as [|g l Hs IH Hg]; constructor; [exact IH|].
  eapply List.Forall_impl; [|exact Hg]. intros g'. apply Hstep.
Qed.

(** C2, amended: on commits whose dates are read by [parseISO] and by
    [new Date], [groupCommitsByDate] returns groups whose commits,
    flattened in group order, are a permutation of the input; each group
    is not empty and is exactly the input's commits of one calendar day,
    in the input's order; and the groups stand in descending order of
    the time of their first commit. The calendar day and the time are
    read off the commit's own date field. *)
Theorem C2_groupCommitsByDate_amended (cs : list CommitInfo) :
  Forall validDate cs ->
  exists groups, groupCommitsByDate cs = Ok groups /\ groupedByDay cs groups.
Proof.
  intros Hv.
  destruct (groupCommitsByDate_run cs Hv) as (m & [Hkeys Hent Hcov Hperm] & Hrun).
  exists (sortBy byFirstDateDesc (map toGroup m)).
  split; [exact Hrun|].
  pose proof (sortBy_perm byFirstDateDesc (map toGroup m)) as Hsort.
  split; [|split].
  - rewrite (Permutation_flat_map commits Hsort).
    rewrite flat_map_concat_map, map_map. exact Hperm.
  - eapply Permutation_Forall; [symmetry; exact Hsort|].
    apply List.Forall_map. eapply List.Forall_impl; [|exact Hent].
    intros [k arr] [Hne Hf]. exists k. cbn [toGroup commits fst snd] in *.
    split; [exact Hne|]. split.
    + rewrite Hf. apply List.filter_ext. intros c. symmetry. apply sameDay_onDay.
    + rewrite Hf. apply List.Forall_forall. intros c Hc.
      apply List.filter_In in Hc as [_ Hc]. now apply onDay_calendarDay.
  - apply notAfter_newerFirst, sortBy_sorted. apply List.Forall_map.
    eapply List.Forall_impl; [|exact Hent].
    intros e He. destruct (entry_head cs e Hv He) as (c & r & Hc & [_ Hd]).
    unfold firstTime, toGroup. cbn [commits]. now rewrite Hc.
Qed.
End GrouperTheorem.

Example groupCommitsByDate_sample :
  @groupCommitsByDate sampleDates sampleHistory
  = Ok [mkGroup "Tuesday, January 16, 2024"
          [sampleCommit "c3c3c3c3" "2024-01-16T09:00:00Z" "docs: readme"];
        mkGroup "Monday, January 15, 2024"
          [sampleCommit "a1a1a1a1" "2024-01-15T18:30:00Z" "feat: parser";
           sampleCommit "d4d4d4d4" "2024-01-15T10:00:00Z" "add tests"];
        mkGroup "Sunday, January 14, 2024"
          [sampleCommit "b2b2b2b2" "2024-01-14T23:00:00Z" "fix: typo"]].
Proof. vm_compute. reflexivity. Qed.

(** C2, against the specification: a list that holds a commit whose date
    is not a timestamp is not grouped; [format] throws its [RangeError]. *)
Lemma C2_unreadable_date_counterexample :
  @groupCommitsByDate sampleDates
    [sampleCommit "a1a1a1a1" "2024-01-15T18:30:00Z" "feat: parser";
     sampleCommit "e5e5e5e5" "last Tuesday" "wip"]
  = Throw "Invalid time value"
  /\ ~ @groupsEveryList sampleDates.
Proof.
  split; [reflexivity|].
  intros Hall.
  destruct (Hall [sampleCommit "a1a1a1a1" "2024-01-15T18:30:00Z" "feat: parser";
                  sampleCommit "e5e5e5e5" "last Tuesday" "wip"])
    as (groups & Hrun & _).
  discriminate Hrun.
Qed.

Lemma C2_groupCommitsByDate_amended_witness :
  exists groups,
    @groupCommitsByDate sampleDates sampleHistory = Ok groups
    /\ @groupedByDay sampleDates sampleHistory groups.
Proof.
  apply (@C2_groupCommitsByDate_amended sampleDates sampleHistory).
  repeat constructor; discriminate.
Defined.

(* ===================================================================== *)
(** * git.ts: the repository name *)
(* ===================================================================== *)

Lemma lazyGroup_slash (a b : string) : lazyGroup (a ++ String "/" b) = None.
Proof.
  induction a as [|c a IH]; cbn [String.append lazyGroup].
  - reflexivity.
  - destruct (Ascii.eqb c "/"); [reflexivity|].
    rewrite IH.
    assert (Hne : forall t, String.eqb (a ++ String "/" b) t = true -> noSlash t = false).
    { intros t Ht. apply String.eqb_eq in Ht. subst t. clear.
      induction a as [|x a IH]; cbn; [reflexivity|]. rewrite IH. apply andb_false_r. }
    destruct (String.eqb (a ++ String "/" b) ".git") eqn:E1;
      [now apply Hne in E1|].
    destruct (String.eqb (a ++ String "/" b) "") eqn:E2;
      [now apply Hne in E2|]. reflexivity.
Qed.

Lemma noSlash_split (s : string) :
  noSlash s = false -> exists a b, s = a ++ String "/" b.
Proof.
  induction s as [|c s IH]; cbn; [discriminate|].
  destruct (Ascii.eqb_spec c "/") as [->|Hc]; cbn.
  - intros _. now exists "", s.
  - intros Hs. destruct (IH Hs) as (a & b & ->). now exists (String c a), b.
Qed.

Lemma lazyGroup_segment (seg : string) :
  seg <> "" -> noSlash seg = true -> lazyGroup seg = Some (stripDotGit seg).
Proof.
  induction seg as [|c r IH]; [congruence|]. intros _ Hs.
  cbn in Hs. apply andb_prop in Hs as [Hc Hr]. apply negb_true_iff in Hc.
  cbn [lazyGroup stripDotGit]. rewrite Hc.
  destruct (String.eqb r ".git") eqn:E1; [reflexivity|]. cbn [orb].
  destruct (String.eqb_spec r "") as [->|E2]; [reflexivity|].
  now rewrite (IH E2 Hr).
Qed.

Lemma afterLastSlash_none (s : string) :
  afterLastSlash s = None <-> noSlash s = true.
Proof.
  induction s as [|c s IH]; cbn; [tauto|].
  destruct (afterLastSlash s) as [x|].
  - split; [discriminate|]. intros Hs. apply andb_prop in Hs as [_ Hs].
    apply IH in Hs. discriminate.
  - destruct (Ascii.eqb c "/"); cbn; [split; discriminate|].
    split; [intros _; now apply IH | reflexivity].
Qed.

(** The regular expression, in the words of the specification. *)
Lemma matchRepo_spec (s : string) :
  matchRepo s =
  match afterLastSlash s with
  | Some seg => if String.eqb seg "" then None else Some (stripDotGit seg)
  | None => None
  end.
Proof.
  induction s as [|c s IH]; cbn [matchRepo afterLastSlash]; [reflexivity|].
  destruct (Ascii.eqb c "/") eqn:Hc.
  - destruct (afterLastSlash s) as [x|] eqn:E.
    + (* a later slash: the group cannot cross it *)
      assert (Hs : noSlash s = false).
      { destruct (noSlash s) eqn:Hn; [|reflexivity].
        apply afterLastSlash_none in Hn. congruence. }
      destruct (noSlash_split s Hs) as (a & b & ->).
      rewrite lazyGroup_slash. exact IH.
    + apply afterLastSlash_none in E.
      destruct (String.eqb_spec s "") as [->|Hne]; [reflexivity|].
      now rewrite (lazyGroup_segment s Hne E).
  - rewrite IH. now destruct (afterLastSlash s).
Qed.

Lemma stripDotGit_suffix (base : string) :
  base <> "" -> stripDotGit (base ++ ".git") = base.
Proof.
  induction base as [|c b IH]; [congruence|]. intros _.
  cbn [String.append stripDotGit].
  destruct b as [|d b].
  - reflexivity.
  - assert (Hne : String.eqb (String d b ++ ".git") ".git" = false).
    { apply String.eqb_neq. intros Heq.
      apply (f_equal String.length) in Heq. cbn in Heq.
      assert (Hl : forall x y, String.length (x ++ y) = (String.length x + String.length y)%nat).
      { clear. intros x y. induction x; cbn; [reflexivity | now rewrite IHx]. }
      rewrite Hl in Heq. cbn in Heq. lia. }
    rewrite Hne. now rewrite IH.
Qed.

Lemma stripDotGit_other (seg : string) :
  (forall base, base <> "" -> seg <> base ++ ".git") -> stripDotGit seg = seg.
Proof.
  induction seg as [|c r IH]; [reflexivity|]. intros Hno. cbn [stripDotGit].
  destruct (String.eqb_spec r ".git") as [->|Hr].
  - exfalso. now apply (Hno (String c "")).
  - rewrite IH; [reflexivity|]. intros base Hb ->.
    now apply (Hno (String c base)).
Qed.

Lemma afterLastSlash_segment (prefix seg : string) :
  noSlash seg = true -> afterLastSlash (prefix ++ "/" ++ seg) = Some seg.
Proof.
  intros Hs. induction prefix as [|c p IH]; cbn [String.append afterLastSlash].
  - apply afterLastSlash_none in Hs. now rewrite Hs.
  - cbn [String.append] in IH. now rewrite IH.
Qed.

Lemma split_slash (s : string) (cur : list ascii) :
  pop (split_from s "/" 0 cur)
  = match afterLastSlash s with
    | Some x => x
    | None => string_of_list_ascii (rev cur) ++ s
    end.
Proof.
  revert cur. induction s as [|c s IH]; intros cur.
  - cbn. now rewrite append_nil_r.
  - cbn [split_from afterLastSlash].
    rewrite prefix_cons, prefix_nil, andb_true_r, (Ascii.eqb_sym "/" c).
    destruct (Ascii.eqb c "/") eqn:Hc.
    + cbn [String.length Nat.sub]. unfold pop in *. cbn [List.last].
      specialize (IH []).
      destruct (split_from s "/" 0 []) as [|y l] eqn:E.
      * now apply split_from_nonempty in E.
      * rewrite IH. cbn [rev string_of_list_ascii String.append].
        now destruct (afterLastSlash s).
    + rewrite (IH (c :: cur)). destruct (afterLastSlash s); [reflexivity|].
      apply string_of_rev_cons.
Qed.

Lemma baseName_pop (s : string) : pop (split s "/") = baseName s.
Proof. unfold split, baseName. now rewrite split_slash. Qed.

(** The run of [getRepoName] inside a repository. *)
Lemma getRepoName_run (w : World) :
  git_checkIsRepo w = Ok true ->
  let fallback :=
    ([EvGit GitCheckIsRepo; EvGit (GitRemote ["get-url"; "origin"]);
      EvGit (GitRevparse ["--show-toplevel"])],
     match git_revparse w ["--show-toplevel"] with
     | Ok root => Value (directoryName root)
     | Throw e => Thrown e
     end) in
  getRepoName w =
  match git_remote w ["get-url"; "origin"] with
  | Ok (Some url) =>
      if String.eqb url "" then fallback
      else match matchRepo (trim url) with
           | Some name =>
               ([EvGit GitCheckIsRepo; EvGit (GitRemote ["get-url"; "origin"])],
                Value name)
           | None => fallback
           end
  | Ok None | Throw _ => fallback
  end.
Proof.
  intros Hrepo. cbv zeta. unfold getRepoName.
  rewrite (bind_value getGit _ w [EvGit GitCheckIsRepo] tt)
    by (rewrite getGit_run, Hrepo; reflexivity).
  unfold directoryName.
  unfold tryCatch, git, bind, emit, ask, liftR, ret, throw. cbn.
  destruct (git_remote w _) as [[url|]|e]; cbn;
    [destruct (String.eqb url ""); cbn;
       [|destruct (matchRepo (trim url)); cbn; [reflexivity|]] | |];
    (destruct (git_revparse w _) as [root|e']; cbn;
       [rewrite <- baseName_pop|]; reflexivity).
Qed.

(** C8, against the specification: with an origin URL that has no [/], or
    that ends in one, the name is the directory's, not the URL's. *)
Lemma C8_remote_without_segment_counterexample :
  returns (getRepoName scpWorld) "checkout"
  /\ returns (getRepoName slashWorld) "checkout"
  /\ stripDotGit (baseName (trim ("git@server:myrepo.git" ++ LF)))
     = "git@server:myrepo"
  /\ ~ nameFromRemote.
Proof.
  split; [reflexivity|]. split; [reflexivity|]. split; [reflexivity|].
  intros Hall.
  assert (Hurl : "git@server:myrepo.git" ++ LF <> "") by discriminate.
  pose proof (Hall scpWorld ("git@server:myrepo.git" ++ LF) eq_refl eq_refl Hurl)
    as Hname.
  vm_compute in Hname. discriminate Hname.
Qed.

(** C8, amended: inside a repository, when the trimmed origin URL has a
    nonempty final segment behind a [/], [getRepoName] returns that
    segment without one trailing [.git] (a segment that is only [.git] is
    kept); when there is no origin remote, or its URL has no [/] or ends
    in one, it returns the base name of the working-tree root, and
    [unknown] when that is empty. *)
Theorem C8_getRepoName_amended (w : World) (root : string) :
  git_checkIsRepo w = Ok true ->
  git_revparse w ["--show-toplevel"] = Ok root ->
  (forall url prefix seg,
      git_remote w ["get-url"; "origin"] = Ok (Some url) ->
      trim url = prefix ++ "/" ++ seg -> seg <> "" -> noSlash seg = true ->
      returns (getRepoName w) (stripDotGit seg))
  /\ (forall url,
        git_remote w ["get-url"; "origin"] = Ok (Some url) ->
        noSlash (trim url) = true \/ (exists prefix, trim url = prefix ++ "/") ->
        returns (getRepoName w) (directoryName root))
  /\ (forall e,
        git_remote w ["get-url"; "origin"] = Throw e ->
        returns (getRepoName w) (directoryName root))
  /\ (git_remote w ["get-url"; "origin"] = Ok None ->
      returns (getRepoName w) (directoryName root))
  /\ (forall base, base <> "" -> stripDotGit (base ++ ".git") = base)
  /\ (forall seg, (forall base, base <> "" -> seg <> base ++ ".git") ->
                  stripDotGit seg = seg)
  /\ directoryName root = orElse (baseName (trim root)) "unknown".
Proof.
  intros Hrepo Hroot. pose proof (getRepoName_run w Hrepo) as Hrun.
  cbv zeta in Hrun. rewrite Hroot in Hrun. unfold returns.
  repeat split.
  - intros url prefix seg Hremote Htrim Hseg Hslash.
    rewrite Hrun, Hremote, matchRepo_spec, Htrim.
    rewrite (afterLastSlash_segment prefix seg Hslash).
    destruct (String.eqb_spec url "") as [->|_].
    + exfalso. cbn in Htrim. destruct prefix; discriminate.
    + destruct (String.eqb_spec seg "") as [->|_]; [congruence | reflexivity].
  - intros url Hremote Hshape. rewrite Hrun, Hremote, matchRepo_spec.
    destruct (String.eqb url ""); [reflexivity|].
    destruct Hshape as [Hno | [prefix Hp]].
    + apply afterLastSlash_none in Hno. now rewrite Hno.
    + rewrite Hp.
      change (prefix ++ "/") with (prefix ++ "/" ++ "").
      now rewrite (afterLastSlash_segment prefix "" eq_refl).
  - intros e Hremote. now rewrite Hrun, Hremote.
  - intros Hremote. now rewrite Hrun, Hremote.
  - apply stripDotGit_suffix.
  - apply stripDotGit_other.
Qed.

Lemma C8_getRepoName_amended_witness :
  returns (getRepoName githubWorld) "myrepo".
Proof.
  refine (proj1 (C8_getRepoName_amended githubWorld ("/home/ada/devlog" ++ LF)
                   eq_refl eq_refl)
                ("https://github.com/org/myrepo.git" ++ LF)
                "https://github.com/org" "myrepo.git" eq_refl eq_refl _ eq_refl).
  discriminate.
Defined.

(* ===================================================================== *)
(** * config.ts: loading the configuration *)
(* ===================================================================== *)

Lemma tryConfigPath_none (w : World) (configPath : string) :
  tryConfigPath w configPath = None <-> unusable w configPath.
Proof.
  unfold tryConfigPath, unusable.
  destruct (fs_existsSync w configPath); [|split; [now left | reflexivity]].
  destruct (fs_readFileSync w configPath) as [content|e]; cbn [bindR].
  - destruct (JSON_parse w content) as [v|e] eqn:Hparse; cbn [bindR].
    + split; [discriminate|]. intros [H|[[e H]|(c & e & H1 & H2)]];
        [discriminate | discriminate | congruence].
    + split; [|reflexivity]. intros _. right. right. now exists content, e.
  - split; [|reflexivity]. intros _. right. left. now exists e.
Qed.

Lemma tryConfigPath_some (w : World) (configPath content : string) (v : JsValue) :
  fs_existsSync w configPath = true ->
  fs_readFileSync w configPath = Ok content ->
  JSON_parse w content = Ok v ->
  tryConfigPath w configPath = Some (spread DEFAULT_CONFIG (ownProps v)).
Proof.
  intros He Hr Hp. unfold tryConfigPath. rewrite He, Hr. cbn [bindR].
  now rewrite Hp.
Qed.

Lemma loadConfigFrom_skip (w : World) (before rest : list string) :
  Forall (unusable w) before ->
  loadConfigFrom w (before ++ rest)%list = loadConfigFrom w rest.
Proof.
  induction before as [|p before IH]; intros Hb; [reflexivity|].
  apply List.Forall_cons_iff in Hb as [Hp Hb].
  cbn [app loadConfigFrom].
  apply tryConfigPath_none in Hp. rewrite Hp. now apply IH.
Qed.

Lemma loadConfig_run (cwd : option string) (w : World) :
  loadConfig cwd w = ([], Value (loadConfigFrom w (searchPaths cwd w))).
Proof. reflexivity. Qed.

(** A key of the file wins; any other key keeps its default. *)
Lemma spread_lookup (defaults user : Config) (key : string) :
  spread defaults user !! key =
  match user !! key with
  | Some v => Some v
  | None => defaults !! key
  end.
Proof.
  unfold spread. rewrite lookup_union.
  destruct (user !! key), (defaults !! key); reflexivity.
Qed.

(** The own properties of a parsed object are its members, the last
    one standing for a repeated key. *)
Lemma ownProps_member (fields : list (string * JsValue)) (key : string) :
  ownProps (JObj fields) !! key = memberOf fields key.
Proof.
  cbn [ownProps]. induction fields as [|[k v] fields IH]; [apply lookup_empty|].
  cbn [rev memberOf]. rewrite list_to_map_app, lookup_union, IH.
  assert (Hlast : (list_to_map [(k, v)] : gmap string JsValue) !! key
                  = if String.eqb k key then Some v else None).
  { rewrite list_to_map_cons, list_to_map_nil.
    destruct (String.eqb_spec k key) as [->|Hne].
    - apply lookup_insert_eq.
    - rewrite lookup_insert_ne by exact Hne. apply lookup_empty. }
  rewrite Hlast.
  destruct (memberOf fields key), (String.eqb k key); reflexivity.
Qed.

(** The defaults of the code are those of the specification. *)
Lemma prop_default (key : string) : prop DEFAULT_CONFIG key = defaultSetting key.
Proof.
  unfold prop, defaultSetting, DEFAULT_CONFIG.
  repeat match goal with
         | |- context [list_to_map ((?k, _) :: _)] =>
             rewrite list_to_map_cons;
             destruct (String.eqb_spec key k) as [->|?];
             [now rewrite lookup_insert_eq | rewrite lookup_insert_ne by congruence]
         end.
  now rewrite list_to_map_nil, lookup_empty.
Qed.

(** Either no searched path is usable, or there is a first usable one. *)
Lemma first_usable (w : World) (paths : list string) :
  Forall (unusable w) paths
  \/ exists before configPath after v,
       paths = (before ++ configPath :: after)%list
       /\ Forall (unusable w) before /\ usable w configPath v.
Proof.
  induction paths as [|p paths IH]; [left; apply List.Forall_nil|].
  destruct (tryConfigPath w p) as [config|] eqn:Hp.
  - right. exists [], p, paths. unfold tryConfigPath in Hp.
    destruct (fs_existsSync w p) eqn:He; [|discriminate].
    destruct (fs_readFileSync w p) as [content|e] eqn:Hr; [|discriminate].
    cbn [bindR] in Hp.
    destruct (JSON_parse w content) as [v|e] eqn:Hv; [|discriminate].
    exists v. split; [reflexivity|]. split; [apply List.Forall_nil|].
    split; [exact He|]. now exists content.
  - apply tryConfigPath_none in Hp. destruct IH as [Hall|Hsome].
    + left. now apply List.Forall_cons.
    + right. destruct Hsome as (before & q & after & v & -> & Hb & Hq).
      exists (p :: before), q, after, v. split; [reflexivity|].
      split; [now apply List.Forall_cons | exact Hq].
Qed.

(** C9: [loadConfig] never throws and does nothing to the outside. In
    every world either no searched path is usable (no file there, or it
    cannot be read, or its text is not JSON), and then every setting has
    its default value: format [terminal], Copilot on, files and stats
    shown, at most 100 commits, no author; or there is a first usable
    path, the result is a configuration made from that file alone, and
    when the file holds a JSON object every key the object has carries
    the object's value for it and every other key its default. *)
Theorem C9_loadConfig_defaults (w : World) (cwd : option string) :
  (Forall (unusable w) (searchPaths cwd w)
   \/ exists before configPath after v,
        searchPaths cwd w = (before ++ configPath :: after)%list
        /\ Forall (unusable w) before /\ usable w configPath v)
  /\ (Forall (unusable w) (searchPaths cwd w) ->
      exists config,
        loadConfig cwd w = ([], Value config)
        /\ forall key, prop config key = defaultSetting key)
  /\ (forall before configPath after v,
        searchPaths cwd w = (before ++ configPath :: after)%list ->
        Forall (unusable w) before ->
        usable w configPath v ->
        exists config,
          loadConfig cwd w = ([], Value config)
          /\ forall fields,
               v = JObj fields ->
               forall key,
                 prop config key = match memberOf fields key with
                                   | Some x => x
                                   | None => defaultSetting key
                                   end).
Proof.
  split; [apply first_usable | split].
  - intros Hall. exists DEFAULT_CONFIG. split; [|apply prop_default].
    rewrite loadConfig_run.
    rewrite <- (app_nil_r (searchPaths cwd w)).
    now rewrite (loadConfigFrom_skip w _ [] Hall).
  - intros before configPath after v Hpaths Hbefore (Hexists & content & Hread & Hparse).
    exists (spread DEFAULT_CONFIG (ownProps v)). split.
    + rewrite loadConfig_run, Hpaths.
      rewrite (loadConfigFrom_skip w before _ Hbefore). cbn [loadConfigFrom].
      now rewrite (tryConfigPath_some w configPath content _ Hexists Hread Hparse).
    + intros fields -> key. unfold prop at 1. rewrite spread_lookup, ownProps_member.
      destruct (memberOf fields key); [reflexivity | apply prop_default].
Qed.

Lemma C9_loadConfig_defaults_witness :
  (exists config,
     loadConfig None configWorld = ([], Value config)
     /\ prop config "useCopilot" = JBool false
     /\ prop config "maxCommits" = JNum 20
     /\ prop config "format" = JStr "terminal")
  /\ (exists config,
        loadConfig None bareWorld = ([], Value config)
        /\ prop config "useCopilot" = JBool true).
Proof.
  split.
  - destruct (proj2 (proj2 (C9_loadConfig_defaults configWorld None))
                ["/work/devlog/.devlogrc"; "/work/devlog/.devlogrc.json";
                 "/home/ada/.devlogrc"]
                "/home/ada/.devlogrc.json" []
                (JObj [("useCopilot", JBool false); ("maxCommits", JNum 20)]))
      as (config & Hrun & Hkeys).
    + reflexivity.
    + apply List.Forall_cons;
        [right; right; exists "{useCopilot", "Unexpected token"; now split|].
      apply List.Forall_cons; [now left|].
      apply List.Forall_cons; [now left | apply List.Forall_nil].
    + split; [reflexivity|]. exists configText. now split.
    + exists config. split; [exact Hrun|].
      rewrite !(Hkeys _ eq_refl). repeat split.
  - destruct (proj1 (proj2 (C9_loadConfig_defaults bareWorld None)))
      as (config & Hrun & Hkeys).
    + repeat (apply List.Forall_cons; [now left|]). apply List.Forall_nil.
    + exists config. split; [exact Hrun|]. now rewrite Hkeys.
Defined.

Example loadConfig_sample :
  prop (loadConfigFrom configWorld (searchPaths None configWorld)) "useCopilot"
  = JBool false
  /\ prop (loadConfigFrom configWorld (searchPaths None configWorld)) "maxCommits"
     = JNum 20
  /\ prop (loadConfigFrom configWorld (searchPaths None configWorld)) "format"
     = JStr "terminal".
Proof. repeat split; vm_compute; reflexivity. Qed.

(* ===================================================================== *)
(** * copilot.ts: the bridge to the subprocess *)
(* ===================================================================== *)

Lemma askCopilot_run (prompt : string) (w : World) :
  askCopilot prompt w =
  ([EvExec "gh" ["copilot"; "--"; "-p"; prompt] 60000],
   Value match execFile w "gh" ["copilot"; "--"; "-p"; prompt] 60000 with
         | ExecOk stdout => cleanCopilotOutput stdout
         | ExecErr _ => ""
         end).
Proof.
  unfold askCopilot, execFileAsync, bind, emit, ask, ret. cbn.
  now destruct (execFile w _ _ _).
Qed.

Lemma isCopilotCliAvailable_run (w : World) :
  isCopilotCliAvailable w =
  ([EvExec "gh" ["copilot"; "--"; "--version"] 15000],
   Value match execFile w "gh" ["copilot"; "--"; "--version"] 15000 with
         | ExecOk stdout => includes stdout "Copilot CLI"
         | ExecErr _ => false
         end).
Proof.
  unfold isCopilotCliAvailable, execFileAsync, bind, emit, ask, ret. cbn.
  now destruct (execFile w _ _ _).
Qed.

Lemma askCopilot_contained (prompt : string) (w : World) :
  callsFail w (askCopilot prompt w) -> askCopilot prompt w
  = ([EvExec "gh" ["copilot"; "--"; "-p"; prompt] 60000], Value "").
Proof.
  intros Hfail. rewrite askCopilot_run in *.
  destruct (Hfail "gh" ["copilot"; "--"; "-p"; prompt] 60000%Z) as [e ->];
    [now left | reflexivity].
Qed.

(** A guarded generator whose calls fail. *)
Lemma guarded_contained (commits : list CommitInfo) (prompt : string) (w : World) :
  callsFail w ((if (length commits =? 0)%nat then ret "" else askCopilot prompt) w) ->
  returns ((if (length commits =? 0)%nat then ret "" else askCopilot prompt) w) "".
Proof.
  destruct (length commits =? 0)%nat; [reflexivity|].
  intros Hfail. unfold returns. now rewrite askCopilot_contained.
Qed.

(** C7: a failure of the [gh] subprocess never leaves the bridge as an
    exception, and each operation answers for its own call only. In any
    world: when the probe's call fails, or prints something that does
    not name the Copilot CLI, [isCopilotCliAvailable] ends with the value
    [false], whatever a prompt call would do; and when the call that
    [askCopilot] or one of the five generators makes fails, whatever the
    reason and whatever the probe answered, the operation ends with the
    empty string. *)
Theorem C7_copilot_failures_contained (w : World) :
  (probeFailure (execFile w "gh" ["copilot"; "--"; "--version"] 15000) ->
   isCopilotCliAvailable w
   = ([EvExec "gh" ["copilot"; "--"; "--version"] 15000], Value false))
  /\ (forall prompt,
        callsFail w (askCopilot prompt w) -> returns (askCopilot prompt w) "")
  /\ (forall commits repoName authorName,
        callsFail w (generateDailySummary commits repoName authorName w) ->
        returns (generateDailySummary commits repoName authorName w) "")
  /\ (forall yesterdayCommits todayCommits repoName authorName,
        callsFail w (generateStandupReport yesterdayCommits todayCommits
                                           repoName authorName w) ->
        returns (generateStandupReport yesterdayCommits todayCommits
                                       repoName authorName w) "")
  /\ (forall commits repoName authorName,
        callsFail w (generateWeeklySummary commits repoName authorName w) ->
        returns (generateWeeklySummary commits repoName authorName w) "")
  /\ (forall commits repoName fromTag,
        callsFail w (generateReleaseNotes commits repoName fromTag w) ->
        returns (generateReleaseNotes commits repoName fromTag w) "")
  /\ (forall commits repoName from to,
        callsFail w (generateRangeSummary commits repoName from to w) ->
        returns (generateRangeSummary commits repoName from to w) "").
Proof.
  split; [|split; [|split; [|split; [|split; [|split]]]]].
  - intros Hprobe. rewrite isCopilotCliAvailable_run.
    unfold probeFailure in Hprobe.
    destruct (execFile w _ _ _); [now rewrite Hprobe | reflexivity].
  - intros prompt Hfail. unfold returns. now rewrite askCopilot_contained.
  - intros commits repoName authorName. apply guarded_contained.
  - intros ys ts repoName authorName Hfail. unfold generateStandupReport in *.
    unfold returns. now rewrite askCopilot_contained.
  - intros commits repoName authorName. apply guarded_contained.
  - intros commits repoName fromTag. apply guarded_contained.
  - intros commits repoName from to. apply guarded_contained.
Qed.

Lemma C7_copilot_failures_contained_witness :
  returns (isCopilotCliAvailable otherGhWorld) false
  /\ returns (isCopilotCliAvailable slowCopilotWorld) true
  /\ returns (generateDailySummary
                [sampleCommit "a1" "2024-01-15T10:00:00Z" "feat: parser"]
                "devlog" "Ada" slowCopilotWorld) ""
  /\ returns (generateStandupReport [] [] "devlog" "Ada" bareWorld) "".
Proof.
  split; [|split; [reflexivity|split]].
  - unfold returns.
    now rewrite (proj1 (C7_copilot_failures_contained otherGhWorld) eq_refl).
  - apply (proj1 (proj2 (proj2 (C7_copilot_failures_contained slowCopilotWorld)))).
    intros file args timeout [Hin|[]]. injection Hin as <- <- <-.
    exists TimedOut. reflexivity.
  - apply (proj1 (proj2 (proj2 (proj2 (C7_copilot_failures_contained bareWorld))))).
    intros file args timeout [Hin|[]]. injection Hin as <- <- <-.
    exists ENOENT. reflexivity.
Defined.

(** Whatever [gh] does, the probe and [askCopilot] end with a value. *)
Lemma copilot_never_throws (w : World) (prompt : string) :
  (exists b, returns (isCopilotCliAvailable w) b)
  /\ (exists s, returns (askCopilot prompt w) s).
Proof.
  unfold returns. rewrite isCopilotCliAvailable_run, askCopilot_run.
  split; eexists; reflexivity.
Qed.

(** C1, against the specification: the standup report with both lists
    empty still runs [gh], and returns what it printed. *)
Lemma C1_standup_counterexample :
  generateStandupReport [] [] "devlog" "Ada" (worldWithGh "BLOCKERS: none")
  = ([EvExec "gh" ["copilot"; "--"; "-p"; emptyStandupPrompt "devlog" "Ada"] 60000],
     Value "BLOCKERS: none")
  /\ ~ emptyInputSkipsCopilot.
Proof.
  split; [reflexivity|].
  intros Hall.
  destruct (Hall (worldWithGh "BLOCKERS: none") "devlog" "Ada" "" "" "")
    as (_ & Hstandup & _).
  discriminate Hstandup.
Qed.

(** C1, amended: the daily, weekly, release and range generators return
    the empty string on an empty commit list with no event at all; the
    standup generator has no such guard and asks Copilot once whatever its
    lists are, with a placeholder line for each empty list. *)
Theorem C1_empty_commits_amended (w : World)
  (repoName authorName fromTag from to : string)
  (yesterdayCommits todayCommits : list CommitInfo) :
  generateDailySummary [] repoName authorName w = ([], Value "")
  /\ generateWeeklySummary [] repoName authorName w = ([], Value "")
  /\ generateReleaseNotes [] repoName fromTag w = ([], Value "")
  /\ generateRangeSummary [] repoName from to w = ([], Value "")
  /\ generateStandupReport [] [] repoName authorName w
     = askCopilot (emptyStandupPrompt repoName authorName) w
  /\ length (execCalls
       (fst (generateStandupReport yesterdayCommits todayCommits
                                   repoName authorName w))) = 1%nat.
Proof.
  repeat split; try reflexivity.
  unfold generateStandupReport, askCopilot, execFileAsync, bind, emit, ask, ret.
  cbn. now destruct (execFile w _ _ _).
Qed.

(* ===================================================================== *)
(** * copilot.ts: sanitizing the output *)
(* ===================================================================== *)

Lemma earliestStep_le (cleaned : string) (e : Z) (marker : string) :
  (earliestStep cleaned e marker <= e)%Z
  /\ (0 <= e -> 0 <= earliestStep cleaned e marker)%Z
  /\ (indexOf cleaned marker = (-1)%Z
      \/ (earliestStep cleaned e marker <= indexOf cleaned marker)%Z).
Proof.
  unfold earliestStep. pose proof (indexOf_lower cleaned marker).
  destruct (Z.eqb_spec (indexOf cleaned marker) (-1)); cbn [negb andb].
  - repeat split; lia.
  - destruct (Z.ltb_spec (indexOf cleaned marker) e); repeat split; lia.
Qed.

Lemma earliest_fold (cleaned : string) (ms : list string) (e : Z) :
  (0 <= e)%Z ->
  (0 <= fold_left (earliestStep cleaned) ms e <= e)%Z
  /\ Forall (fun m => indexOf cleaned m = (-1)%Z
                      \/ (fold_left (earliestStep cleaned) ms e
                          <= indexOf cleaned m)%Z) ms.
Proof.
  revert e. induction ms as [|m ms IH]; intros e He; cbn [fold_left].
  - split; [lia | constructor].
  - destruct (earliestStep_le cleaned e m) as (H1 & H2 & H3).
    destruct (IH (earliestStep cleaned e m) (H2 He)) as [H4 H5].
    split; [lia|]. constructor; [|exact H5].
    destruct H3 as [H3|H3]; [now left | right; lia].
Qed.

(** The text [cleanCopilotOutput] trims: the cleaned output up to the
    earliest marker. *)
Lemma cleanCopilotOutput_cut (output : string) :
  let cleaned := stripCR (stripAnsi output) in
  let earliest := fold_left (earliestStep cleaned) markers (len cleaned) in
  cleanCopilotOutput output = trim (String.substring 0 (Z.to_nat earliest) cleaned).
Proof.
  cbv zeta. unfold cleanCopilotOutput, substring0.
  set (cleaned := stripCR (stripAnsi output)).
  set (earliest := fold_left (earliestStep cleaned) markers (len cleaned)).
  destruct (Z.ltb_spec earliest (len cleaned)) as [Hlt|Hge]; [reflexivity|].
  rewrite substring0_all; [reflexivity|]. unfold len in Hge. lia.
Qed.

(** The sanitized output holds none of the footer markers and has no
    whitespace at its ends. *)
Lemma cleanCopilotOutput_footer (output : string) :
  Forall (fun marker => includes (cleanCopilotOutput output) marker = false) markers
  /\ trimmed (cleanCopilotOutput output).
Proof.
  rewrite cleanCopilotOutput_cut. cbv zeta. split; [|apply trim_trimmed].
  set (cleaned := stripCR (stripAnsi output)).
  destruct (earliest_fold cleaned markers (len cleaned)) as [Hrange Hall];
    [unfold len; lia|].
  set (earliest := fold_left (earliestStep cleaned) markers (len cleaned)) in *.
  assert (Hne : Forall (fun m => m <> "") markers)
    by (repeat constructor; discriminate).
  rewrite List.Forall_forall in *. intros m Hm.
  destruct (includes (trim _) m) eqn:E; [|reflexivity].
  apply includes_trim in E.
  rewrite (includes_before_first cleaned m (Z.to_nat earliest) (Hne m Hm)) in E;
    [discriminate|].
  destruct (Hall m Hm) as [H|H]; [now left | right; lia].
Qed.

Lemma skipParams_length (s : string) :
  (String.length (skipParams s) <= String.length s)%nat.
Proof.
  induction s as [|c s IH]; cbn [skipParams]; [lia|].
  destruct (isParam c); cbn [String.length]; lia.
Qed.

Lemma matchAnsi_shorter (s rest : string) :
  matchAnsi s = Some rest -> (String.length rest < String.length s)%nat.
Proof.
  unfold matchAnsi. destruct s as [|c1 [|c2 r]]; try discriminate.
  destruct (Ascii.eqb c1 ESC && Ascii.eqb c2 "["); [|discriminate].
  pose proof (skipParams_length r) as Hr.
  destruct (skipParams r) as [|c rest']; [discriminate|].
  destruct (isLetter c); [|discriminate].
  intros [= <-]. cbn [String.length] in *. lia.
Qed.

(** The scan never runs out of fuel: any bound from the length up gives
    the same text. *)
Lemma stripAnsi_from_enough (fuel fuel' : nat) (s : string) :
  (String.length s <= fuel)%nat -> (String.length s <= fuel')%nat ->
  stripAnsi_from fuel s = stripAnsi_from fuel' s.
Proof.
  revert fuel' s. induction fuel as [|fuel IH]; intros fuel' s H1 H2.
  - destruct s; [now destruct fuel' | cbn in H1; lia].
  - destruct fuel' as [|fuel']; [destruct s; [reflexivity | cbn in H2; lia]|].
    cbn [stripAnsi_from]. destruct s as [|c r]; [reflexivity|].
    destruct (matchAnsi (String c r)) as [rest|] eqn:E.
    + apply matchAnsi_shorter in E. cbn [String.length] in *. apply IH; lia.
    + f_equal. cbn [String.length] in *. apply IH; lia.
Qed.

(** The scan, step by step. *)
Lemma stripAnsi_step (s : string) :
  stripAnsi s =
  match s with
  | "" => ""
  | String c r =>
      match matchAnsi s with
      | Some rest => stripAnsi rest
      | None => String c (stripAnsi r)
      end
  end.
Proof.
  unfold stripAnsi. destruct s as [|c r]; [reflexivity|].
  cbn [String.length stripAnsi_from].
  destruct (matchAnsi (String c r)) as [rest|] eqn:E.
  - apply matchAnsi_shorter in E. cbn [String.length] in E.
    apply stripAnsi_from_enough; lia.
  - reflexivity.
Qed.

Lemma escapesComplete_tail (c : ascii) (r : string) :
  escapesComplete (String c r) = true -> escapesComplete r = true.
Proof. cbn [escapesComplete]. intros H. now apply andb_prop in H as [_ H]. Qed.

Lemma escapesComplete_skipParams (s : string) :
  escapesComplete s = true -> escapesComplete (skipParams s) = true.
Proof.
  induction s as [|c s IH]; [trivial|]. intros H. cbn [skipParams].
  destruct (isParam c); [|exact H].
  apply IH. now apply (escapesComplete_tail c).
Qed.

Lemma escapesComplete_rest (s rest : string) :
  matchAnsi s = Some rest -> escapesComplete s = true ->
  escapesComplete rest = true.
Proof.
  unfold matchAnsi. destruct s as [|c1 [|c2 r]]; try discriminate.
  destruct (Ascii.eqb c1 ESC && Ascii.eqb c2 "["); [|discriminate].
  intros Hm Hs. do 2 apply escapesComplete_tail in Hs.
  apply escapesComplete_skipParams in Hs.
  destruct (skipParams r) as [|c rest']; [discriminate|].
  destruct (isLetter c); [|discriminate].
  injection Hm as <-. now apply (escapesComplete_tail c).
Qed.

Lemma stripAnsi_noEsc (fuel : nat) (s : string) :
  (String.length s <= fuel)%nat -> escapesComplete s = true ->
  noEsc (stripAnsi_from fuel s) = true.
Proof.
  revert s. induction fuel as [|fuel IH]; intros s Hlen Hs.
  - destruct s; [reflexivity | cbn in Hlen; lia].
  - cbn [stripAnsi_from]. destruct s as [|c r]; [reflexivity|].
    destruct (matchAnsi (String c r)) as [rest|] eqn:E.
    + apply IH; [|now apply (escapesComplete_rest (String c r))].
      apply matchAnsi_shorter in E. cbn [String.length] in *. lia.
    + cbn [noEsc]. cbn [escapesComplete] in Hs. rewrite E in Hs.
      apply andb_prop in Hs as [Hc Hr].
      destruct (Ascii.eqb c ESC); [discriminate|]. cbn [negb andb].
      apply IH; [cbn [String.length] in Hlen; lia | exact Hr].
Qed.

Lemma noEsc_stripCR (s : string) : noEsc s = true -> noEsc (stripCR s) = true.
Proof.
  induction s as [|c s IH]; [trivial|]. cbn [noEsc stripCR]. intros H.
  apply andb_prop in H as [Hc Hs].
  destruct (Ascii.eqb c CR); [now apply IH|].
  cbn [noEsc]. now rewrite Hc, (IH Hs).
Qed.

Lemma noEsc_head (s : string) (n : nat) :
  noEsc s = true -> noEsc (String.substring 0 n s) = true.
Proof.
  revert n. induction s as [|c s IH]; intros n H; [now destruct n|].
  destruct n as [|n]; [reflexivity|].
  rewrite substring0_cons. cbn [noEsc] in *.
  apply andb_prop in H as [-> H]. now rewrite (IH n H).
Qed.

Lemma noEsc_trimStart (s : string) : noEsc s = true -> noEsc (trimStart s) = true.
Proof.
  induction s as [|c s IH]; [trivial|]. cbn [trimStart]. intros H.
  destruct (isWhiteSpace c); [|exact H].
  apply IH. cbn [noEsc] in H. now apply andb_prop in H as [_ H].
Qed.

Lemma noEsc_trim (s : string) : noEsc s = true -> noEsc (trim s) = true.
Proof.
  intros H. unfold trim. destruct (trimEnd_head_of (trimStart s)) as [n ->].
  apply noEsc_head. now apply noEsc_trimStart.
Qed.

Lemma noEsc_hasAnsi (s : string) : noEsc s = true -> hasAnsi s = false.
Proof.
  induction s as [|c s IH]; [reflexivity|]. intros H.
  cbn [noEsc] in H. apply andb_prop in H as [Hc Hs].
  apply negb_true_iff in Hc.
  cbn [hasAnsi]. unfold matchAnsi. destruct s as [|c2 r]; [reflexivity|].
  rewrite Hc. cbn [andb]. fold (matchAnsi (String c2 r)).
  exact (IH Hs).
Qed.

(** When every escape character of the output opens a complete
    sequence, the sanitized result holds no escape sequence. *)
Lemma cleanCopilotOutput_no_escape (output : string) :
  escapesComplete output = true ->
  hasAnsi (cleanCopilotOutput output) = false.
Proof.
  intros H. rewrite cleanCopilotOutput_cut. cbv zeta.
  apply noEsc_hasAnsi, noEsc_trim, noEsc_head, noEsc_stripCR.
  now apply stripAnsi_noEsc.
Qed.

Example cleanCopilotOutput_coloured : cleanCopilotOutput colouredOutput = "Done.".
Proof. vm_compute. reflexivity. Qed.

(** C5: the sanitized result can hold an escape sequence. On an output
    in which one sequence sits inside the opening of another, the single
    pass of the pattern removes the inner one and leaves its surroundings
    joined into a new one; and a sequence with a private parameter, such
    as the one that hides the cursor, is not matched by the pattern at
    all. *)
Theorem C5_cleanCopilotOutput_keeps_escape :
  (cleanCopilotOutput nestedEscape = "ok " ++ String ESC "[0m"
   /\ hasAnsi (cleanCopilotOutput nestedEscape) = true)
  /\ (cleanCopilotOutput cursorOutput = cursorOutput
      /\ hasControlSequence (cleanCopilotOutput cursorOutput) = true).
Proof. repeat split; vm_compute; reflexivity. Qed.

(* ===================================================================== *)
(** * copilot.ts: the local summary *)
(* ===================================================================== *)

(** The test of the source loop is the specification's test. *)
Lemma feature_test (m : string) :
  startsWith (toLowerCase m) "feat" || includes (toLowerCase m) "add"
    || includes (toLowerCase m) "new" = isFeatureMessage m.
Proof.
  unfold startsWith, isFeatureMessage.
  now rewrite prefix_toLowerCase, !includes_toLowerCase.
Qed.

Lemma fix_test (m : string) :
  startsWith (toLowerCase m) "fix" || includes (toLowerCase m) "bug"
    || includes (toLowerCase m) "patch" = isFixMessage m.
Proof.
  unfold startsWith, isFixMessage.
  now rewrite prefix_toLowerCase, !includes_toLowerCase.
Qed.

Lemma categorize_bucket (cats : Categories) (c : CommitInfo) :
  categorize cats c =
  match bucketOf (message c) with
  | FeaturesB => mkCategories (features cats ++ [message c])%list (fixes cats) (other cats)
  | FixesB => mkCategories (features cats) (fixes cats ++ [message c])%list (other cats)
  | OtherB => mkCategories (features cats) (fixes cats) (other cats ++ [message c])%list
  end.
Proof.
  unfold categorize, bucketOf. rewrite feature_test, fix_test.
  destruct (isFeatureMessage (message c)); [reflexivity|].
  destruct (isFixMessage (message c)); reflexivity.
Qed.

Lemma categorized_from (commits : list CommitInfo) (cats : Categories) :
  fold_left categorize commits cats =
  mkCategories (features cats ++ messagesOf FeaturesB commits)%list
               (fixes cats ++ messagesOf FixesB commits)%list
               (other cats ++ messagesOf OtherB commits)%list.
Proof.
  revert cats. induction commits as [|c commits IH]; intros cats.
  - destruct cats; unfold messagesOf; simpl. now rewrite !app_nil_r.
  - cbn [fold_left]. rewrite IH, categorize_bucket. unfold messagesOf.
    cbn [List.filter].
    destruct (bucketOf (message c)); cbn [Bucket_eqb features fixes other map];
      now rewrite <- ?List.app_assoc.
Qed.

(** The loop sorts the messages into the three buckets of the
    specification, each in commit order. *)
Lemma categorized_spec (commits : list CommitInfo) :
  categorized commits =
  mkCategories (messagesOf FeaturesB commits) (messagesOf FixesB commits)
               (messagesOf OtherB commits).
Proof. unfold categorized. now rewrite categorized_from. Qed.

Lemma reportSection_cons (header m : string) (ms : list string) :
  reportSection header (m :: ms)
  = header ++ LF ++ join LF (map (fun m => "  - " ++ m) (m :: ms)).
Proof. reflexivity. Qed.

Lemma messagesOf_nil_all (commits : list CommitInfo) :
  messagesOf FeaturesB commits = [] -> messagesOf FixesB commits = [] ->
  messagesOf OtherB commits = [] -> commits = [].
Proof.
  destruct commits as [|c commits]; [reflexivity|].
  unfold messagesOf. cbn [List.filter].
  destruct (bucketOf (message c)); cbn [Bucket_eqb map]; discriminate.
Qed.

Lemma messagesOf_partition (commits : list CommitInfo) :
  (length (messagesOf FeaturesB commits) + length (messagesOf FixesB commits)
   + length (messagesOf OtherB commits) = length commits)%nat.
Proof.
  induction commits as [|c commits IH]; [reflexivity|].
  unfold messagesOf in *. cbn [List.filter].
  destruct (bucketOf (message c)); cbn [Bucket_eqb map length]; lia.
Qed.

Lemma ci_includes_feature (m : string) :
  ci_includes m "add" = true -> bucketOf m = FeaturesB.
Proof.
  intros H. unfold bucketOf, isFeatureMessage. rewrite H.
  now rewrite orb_true_r.
Qed.

(** C3: the loop of [localSummarize] puts each commit's message in exactly
    one of the three arrays, chosen case-insensitively with the feature
    test first (prefix feat, or contains add or new), then the fix test
    (prefix fix, or contains bug or patch), else other; a message that
    contains both add and bug goes to the features. *)
Theorem C3_localSummarize_buckets (commits : list CommitInfo) (c : CommitInfo) :
  categorized commits =
    mkCategories (messagesOf FeaturesB commits) (messagesOf FixesB commits)
                 (messagesOf OtherB commits)
  /\ (length (features (categorized commits))
      + length (fixes (categorized commits))
      + length (other (categorized commits)) = length commits)%nat
  /\ (ci_includes (message c) "add" = true ->
      ci_includes (message c) "bug" = true ->
      categorized [c] = mkCategories [message c] [] []).
Proof.
  split; [apply categorized_spec|]. split.
  - rewrite categorized_spec. apply messagesOf_partition.
  - intros Hadd _. rewrite categorized_spec. unfold messagesOf.
    cbn [List.filter]. rewrite (ci_includes_feature _ Hadd). reflexivity.
Qed.

Lemma C3_localSummarize_buckets_witness :
  categorized [sampleCommit "a1" "2024-01-15T10:00:00Z" "Fix BUG in the Adder";
               sampleCommit "b2" "2024-01-15T11:00:00Z" "fix: typo";
               sampleCommit "c3" "2024-01-15T12:00:00Z" "docs: readme"]
  = mkCategories ["Fix BUG in the Adder"] ["fix: typo"] ["docs: readme"]
  /\ categorized [sampleCommit "a1" "2024-01-15T10:00:00Z" "Fix BUG in the Adder"]
     = mkCategories ["Fix BUG in the Adder"] [] [].
Proof.
  pose proof (C3_localSummarize_buckets
    [sampleCommit "a1" "2024-01-15T10:00:00Z" "Fix BUG in the Adder";
     sampleCommit "b2" "2024-01-15T11:00:00Z" "fix: typo";
     sampleCommit "c3" "2024-01-15T12:00:00Z" "docs: readme"]
    (sampleCommit "a1" "2024-01-15T10:00:00Z" "Fix BUG in the Adder"))
    as (H1 & _ & H3).
  split.
  - rewrite H1. reflexivity.
  - apply H3; reflexivity.
Defined.

(** C4: [localSummarize] of no commits is the fixed message; of any other
    list it is the trimmed text of one section per nonempty bucket (the
    header line, then for each message of the bucket the line made of two
    spaces, a dash, a space and the message), the sections a blank line
    apart, and no section for an empty bucket. *)
Theorem C4_localSummarize_report (commits : list CommitInfo) :
  commits <> [] ->
  localSummarize [] = "No commits found in this period."
  /\ localSummarize commits = trim (join (LF ++ LF) (reportSections commits))
  /\ reportSections commits <> []
  /\ trimmed (localSummarize commits).
Proof.
  intros Hne. split; [reflexivity|].
  assert (Heq : localSummarize commits
                = trim (join (LF ++ LF) (reportSections commits))).
  { unfold localSummarize.
    destruct commits as [|c0 commits0]; [congruence|].
    cbn [length Nat.eqb]. rewrite categorized_spec.
    cbn [features fixes other]. unfold reportSections.
    cbn [flat_map fst snd].
    set (F := messagesOf FeaturesB (c0 :: commits0)).
    set (X := messagesOf FixesB (c0 :: commits0)).
    set (O := messagesOf OtherB (c0 :: commits0)).
    assert (Hall : F = [] -> X = [] -> O = [] -> False).
    { intros HF HX HO.
      now pose proof (messagesOf_nil_all (c0 :: commits0) HF HX HO). }
    clearbody F X O.
    unfold bullet.
    destruct F as [|f F], X as [|x X], O as [|o O];
      cbn [length Nat.ltb Nat.leb app];
      rewrite ?reportSection_cons;
      try (exfalso; now apply Hall);
      match goal with
      | |- _ = trim ?r => rewrite <- (trim_app_ws r (LF ++ LF) eq_refl)
      end;
      f_equal; unfold join;
      repeat match goal with
             | |- context [String.concat LF ?l] =>
                 generalize (String.concat LF l); intro
             end;
      cbn [String.concat]; rewrite ?append_assoc; reflexivity. }
  split; [exact Heq|]. split.
  - unfold reportSections. cbn [flat_map fst snd].
    intros Hnil. apply Hne.
    apply messagesOf_nil_all;
      destruct (messagesOf FeaturesB commits), (messagesOf FixesB commits),
        (messagesOf OtherB commits); try reflexivity; discriminate.
  - rewrite Heq. apply trim_trimmed.
Qed.

Lemma C4_localSummarize_report_witness :
  localSummarize [sampleCommit "a1" "2024-01-15T10:00:00Z" "feat: parser";
                  sampleCommit "b2" "2024-01-15T11:00:00Z" "docs: readme"]
  = trim (reportSection "Features:" ["feat: parser"] ++ LF ++ LF
          ++ reportSection "Other:" ["docs: readme"])
  /\ trim (reportSection "Features:" ["feat: parser"] ++ LF ++ LF
           ++ reportSection "Other:" ["docs: readme"])
     = "Features:" ++ LF ++ "  - feat: parser" ++ LF ++ LF
       ++ "Other:" ++ LF ++ "  - docs: readme".
Proof.
  split; [|reflexivity].
  refine (proj1 (proj2 (C4_localSummarize_report
    [sampleCommit "a1" "2024-01-15T10:00:00Z" "feat: parser";
     sampleCommit "b2" "2024-01-15T11:00:00Z" "docs: readme"] _))).
  discriminate.
Defined.

(* ===================================================================== *)
(** * index.ts: the range argument of recap *)
(* ===================================================================== *)

Section RecapFacts.
Context `{DateFns} `{ExportFns}.

(** The action, with its effects before the [try] block written out. *)
Lemma recap_run (range : string) (options : Options) (w : World) :
  recap range options w =
  let parts := split range ".." in
  if negb (length parts =? 2)%nat
  then ((recapPrelude w ++ [EvUi (printError usageError)])%list, Exited 1)
  else
    let from := nth 0 parts "" in
    let to := nth 1 parts "" in
    let '(t, o) :=
      tryCatch (recapBody options (loadConfigFrom w (searchPaths None w))
                          (probeAnswer w) from to)
               recapCatch w in
    ((recapPrelude w
      ++ EvUi (spinnerStart ("Reading commits " ++ from ++ ".." ++ to ++ "..."))
      :: t)%list, o).
Proof.
  unfold recap.
  unfold bind at 1. unfold ui at 1, emit at 1.
  unfold bind at 1. unfold loadConfig at 1, bind at 1, ask at 1, ret at 1.
  unfold bind at 1. rewrite isCopilotCliAvailable_run.
  unfold bind at 1. unfold ui at 1, emit at 1.
  fold (probeAnswer w).
  cbv zeta.
  destruct (negb (length (split range "..") =? 2)%nat) eqn:Hlen.
  - reflexivity.
  - unfold bind at 1. unfold ret at 1.
    unfold bind at 1. unfold ui at 1, emit at 1.
    fold recapCatch.
    destruct (tryCatch _ _ w) as [t o]. reflexivity.
Qed.

Lemma gitCalls_In (g : GitCall) (t : list Event) :
  In (EvGit g) t -> In g (gitCalls t).
Proof.
  intros Hin. unfold gitCalls. apply in_flat_map. exists (EvGit g).
  split; [exact Hin | now left].
Qed.

(** The body starts with the repository check of [getCommitsRange], and
    inside a repository the log of the range is among its git calls. *)
Lemma recapBody_git_first (options : Options) (config : Config)
  (available : bool) (from to : string) (w : World) :
  exists rest,
    fst (tryCatch (recapBody options config available from to) recapCatch w)
    = EvGit GitCheckIsRepo :: rest
    /\ (git_checkIsRepo w = Ok true ->
        In (GitLog (LogRange from to)) (gitCalls rest)).
Proof.
  destruct (tryCatch_trace_prefix
              (recapBody options config available from to) recapCatch w)
    as [t1 ->].
  unfold recapBody.
  head_of_bind w. unfold getCommitsRange.
  destruct (git_checkIsRepo w) as [[|]|e] eqn:Hrepo.
  - rewrite (bind_value getGit _ w [EvGit GitCheckIsRepo] tt)
      by (rewrite getGit_run, Hrepo; reflexivity).
    head_of_bind w.
    destruct (git_trace_head (GitLog (LogRange from to))
                (fun w0 => git_log w0 (LogRange from to)) w) as [t4 ->].
    cbn [fst app]. eexists. split; [reflexivity|]. intros _.
    apply gitCalls_In. now left.
  - head_of_bind w.
    rewrite getGit_run. cbn [fst app]. eexists. split; [reflexivity|].
    intros Habs. discriminate Habs.
  - head_of_bind w.
    rewrite getGit_run. cbn [fst app]. eexists. split; [reflexivity|].
    intros Habs. discriminate Habs.
Qed.

(** A range with one separator passes the check: the action announces
    the range and turns to git, and in a repository whose name can be
    read it asks for the log of the range. *)
Lemma recap_accepts (options : Options) (w : World) (from to : string) :
  countOcc (from ++ ".." ++ to) ".." = 1%nat ->
  split (from ++ ".." ++ to) ".." = [from; to]
  /\ exists rest,
       fst (recap (from ++ ".." ++ to) options w)
       = (recapPrelude w
          ++ EvUi (spinnerStart ("Reading commits " ++ from ++ ".." ++ to ++ "..."))
          :: EvGit GitCheckIsRepo :: rest)%list
       /\ (git_checkIsRepo w = Ok true ->
           (exists repoName, returns (getRepoName w) repoName) ->
           In (GitLog (LogRange from to)) (gitCalls rest)).
Proof.
  intros Hc. pose proof (split_range from to Hc) as Hs.
  split; [exact Hs|].
  rewrite recap_run, Hs. cbn [length Nat.eqb negb nth].
  destruct (recapBody_git_first options (loadConfigFrom w (searchPaths None w))
              (probeAnswer w) from to w) as (rest & Hrest & Hlog).
  destruct (tryCatch _ _ w) as [t o]. cbn [fst] in *. subst t.
  exists rest. split; [reflexivity|]. intros Hrepo _. now apply Hlog.
Qed.

(** C6: the [recap] action checks its range before it asks git anything.
    A range whose split on [..] has not exactly two parts ends the run
    with the usage error, exit status 1 and no git call. A range with
    exactly one [..] is split into what stands before and behind it; the
    run announces these two references and turns to git, first with the
    repository check, and in a repository whose name can be read the log
    of the range from the first reference to the second is among the git
    calls it makes. *)
Theorem C6_recap_range_validation (options : Options) (w : World)
  (range from to : string) :
  length (split range "..") <> 2%nat ->
  countOcc (from ++ ".." ++ to) ".." = 1%nat ->
  (recap range options w
   = ((recapPrelude w ++ [EvUi (printError usageError)])%list, Exited 1)
   /\ gitCalls (fst (recap range options w)) = [])
  /\ (split (from ++ ".." ++ to) ".." = [from; to]
      /\ exists rest,
           fst (recap (from ++ ".." ++ to) options w)
           = (recapPrelude w
              ++ EvUi (spinnerStart
                         ("Reading commits " ++ from ++ ".." ++ to ++ "..."))
              :: EvGit GitCheckIsRepo :: rest)%list
           /\ (git_checkIsRepo w = Ok true ->
               (exists repoName, returns (getRepoName w) repoName) ->
               In (GitLog (LogRange from to)) (gitCalls rest)))
  /\ split "abc123..def456" ".." = ["abc123"; "def456"]
  /\ split "abc123" ".." = ["abc123"].
Proof.
  intros Hbad Hone. split; [|split; [now apply recap_accepts | split; reflexivity]].
  assert (Hrun : recap range options w
                 = ((recapPrelude w ++ [EvUi (printError usageError)])%list,
                    Exited 1)).
  { rewrite recap_run. cbv zeta.
    destruct (Nat.eqb_spec (length (split range "..")) 2) as [E|E];
      [contradiction | reflexivity]. }
  split; [exact Hrun|]. rewrite Hrun. reflexivity.
Qed.

(** C10: an empty endpoint passes the range check. For [..X] and for
    [X..] with a single [..], the split has the two parts, one of them
    empty; the run announces the range and turns to git instead of
    printing the usage error, and in a repository whose name can be read
    the log query with the empty reference is among its git calls. *)
Theorem C10_recap_empty_endpoint (options : Options) (w : World) (X Y : string) :
  countOcc (".." ++ X) ".." = 1%nat ->
  countOcc (Y ++ "..") ".." = 1%nat ->
  (split (".." ++ X) ".." = [""; X]
   /\ exists rest,
        fst (recap (".." ++ X) options w)
        = (recapPrelude w
           ++ EvUi (spinnerStart ("Reading commits " ++ "" ++ ".." ++ X ++ "..."))
           :: EvGit GitCheckIsRepo :: rest)%list
        /\ (git_checkIsRepo w = Ok true ->
            (exists repoName, returns (getRepoName w) repoName) ->
            In (GitLog (LogRange "" X)) (gitCalls rest)))
  /\ (split (Y ++ "..") ".." = [Y; ""]
      /\ exists rest,
           fst (recap (Y ++ "..") options w)
           = (recapPrelude w
              ++ EvUi (spinnerStart ("Reading commits " ++ Y ++ ".." ++ "" ++ "..."))
              :: EvGit GitCheckIsRepo :: rest)%list
           /\ (git_checkIsRepo w = Ok true ->
               (exists repoName, returns (getRepoName w) repoName) ->
               In (GitLog (LogRange Y "")) (gitCalls rest))).
Proof.
  intros HX HY. split.
  - exact (recap_accepts options w "" X HX).
  - exact (recap_accepts options w Y "" HY).
Qed.

End RecapFacts.

Lemma C6_recap_range_validation_witness :
  @recap sampleDates sampleExports "abc123" noOptions bareWorld
  = ([EvUi printBanner;
      EvExec "gh" ["copilot"; "--"; "--version"] 15000;
      EvUi (printCopilotStatus false);
      EvUi (printError usageError)], Exited 1)
  /\ split "abc123..def456" ".." = ["abc123"; "def456"]
  /\ In (GitLog (LogRange "abc123" "def456"))
        (gitCalls (fst (@recap sampleDates sampleExports "abc123..def456"
                               noOptions githubWorld))).
Proof.
  destruct (@C6_recap_range_validation sampleDates sampleExports noOptions
              bareWorld "abc123" "abc123" "def456")
    as ((Hrun & _) & (Hsplit & _) & _).
  - vm_compute. lia.
  - reflexivity.
  - split; [exact Hrun|]. split; [exact Hsplit|].
    destruct (@C6_recap_range_validation sampleDates sampleExports noOptions
                githubWorld "abc123" "abc123" "def456")
      as (_ & (_ & rest & Hrest & Hlog) & _).
    + vm_compute. lia.
    + reflexivity.
    + cbn [String.append] in Hrest. rewrite Hrest.
      unfold gitCalls. rewrite flat_map_app. apply in_or_app. right.
      cbn [flat_map app]. right.
      apply Hlog; [reflexivity | now exists "myrepo"].
Defined.

Lemma C10_recap_empty_endpoint_witness :
  split "..HEAD" ".." = [""; "HEAD"]
  /\ split "v1.0.." ".." = ["v1.0"; ""]
  /\ (exists rest,
        fst (@recap sampleDates sampleExports "..HEAD" noOptions githubWorld)
        = (recapPrelude githubWorld
           ++ EvUi (spinnerStart "Reading commits ..HEAD...")
           :: EvGit GitCheckIsRepo :: rest)%list
        /\ In (GitLog (LogRange "" "HEAD")) (gitCalls rest)).
Proof.
  destruct (@C10_recap_empty_endpoint sampleDates sampleExports noOptions
              githubWorld "HEAD" "v1.0")
    as ((HX & rest & Hrest & Hlog) & (HY & _)).
  - reflexivity.
  - reflexivity.
  - split; [exact HX|]. split; [exact HY|]. exists rest.
    split; [exact Hrest|]. apply Hlog; [reflexivity | now exists "myrepo"].
Defined.

(* ===================================================================== *)
(** * More of git.ts *)
(* ===================================================================== *)

Lemma getCurrentBranch_run (w : World) :
  git_checkIsRepo w = Ok true ->
  getCurrentBranch w =
  ([EvGit GitCheckIsRepo; EvGit (GitRevparse ["--abbrev-ref"; "HEAD"])],
   match git_revparse w ["--abbrev-ref"; "HEAD"] with
   | Ok branch => Value (trim branch)
   | Throw e => Thrown e
   end).
Proof.
  intros Hrepo. unfold getCurrentBranch.
  rewrite (bind_value getGit _ w [EvGit GitCheckIsRepo] tt)
    by (rewrite getGit_run, Hrepo; reflexivity).
  unfold git, bind, emit, ask, liftR, ret, throw. cbn.
  now destruct (git_revparse w _).
Qed.

Lemma bind_thrown {A B} (m : M A) (k : A -> M B) (w : World)
  (t : list Event) (e : string) :
  m w = (t, Thrown e) -> bind m k w = (t, Thrown e).
Proof. intros Hm. unfold bind. now rewrite Hm. Qed.

Lemma getGit_outside (w : World) :
  git_checkIsRepo w = Ok false ->
  getGit w = ([EvGit GitCheckIsRepo], Thrown notARepository).
Proof. intros Hrepo. now rewrite getGit_run, Hrepo. Qed.

(** X1: outside a git work tree every reader fails on its first step:
    [getCommitsRange], [getRepoName] and [getCurrentBranch] throw the
    not-a-repository error after the repository check, their only git
    call. *)
Theorem X1_outside_a_repository (w : World) (from to : string) :
  git_checkIsRepo w = Ok false ->
  getCommitsRange from to w = ([EvGit GitCheckIsRepo], Thrown notARepository)
  /\ getRepoName w = ([EvGit GitCheckIsRepo], Thrown notARepository)
  /\ getCurrentBranch w = ([EvGit GitCheckIsRepo], Thrown notARepository).
Proof.
  intros Hrepo. pose proof (getGit_outside w Hrepo) as Hgit.
  unfold getCommitsRange, getRepoName, getCurrentBranch.
  repeat split; now apply bind_thrown.
Qed.

Lemma X1_outside_a_repository_witness :
  getCommitsRange "v1.0" "HEAD" bareWorld
  = ([EvGit GitCheckIsRepo], Thrown notARepository).
Proof. exact (proj1 (X1_outside_a_repository bareWorld "v1.0" "HEAD" eq_refl)). Defined.

(** The run of [getCommitDiff]. *)
Lemma getCommitDiff_run (hash : string) (w : World) :
  getCommitDiff hash w =
  (match git_diff w (statArgs hash) with
   | Ok _ => [EvGit (GitDiff (statArgs hash)); EvGit (GitDiff (shortstatArgs hash))]
   | Throw _ => [EvGit (GitDiff (statArgs hash))]
   end,
   Value (diffOf w hash)).
Proof.
  unfold getCommitDiff, diffOf, statFiles, statArgs, shortstatArgs.
  unfold tryCatch, git, bind, emit, ask, liftR, ret, throw. cbn.
  destruct (git_diff w [hash ++ "~1"; hash; "--stat"]) as [stat|e]; cbn;
    [|reflexivity].
  destruct (git_diff w [hash ++ "~1"; hash; "--shortstat"]) as [detail|e]; cbn;
    reflexivity.
Qed.

(** What stands before the first [|] of a text. *)
Lemma first_split_bar (s : string) (cur : list ascii) :
  includes (string_of_list_ascii (rev cur)) "|" = false ->
  includes (first (split_from s "|" 0 cur)) "|" = false.
Proof.
  revert cur. induction s as [|c s IH]; intros cur Hcur; cbn [split_from].
  - exact Hcur.
  - rewrite prefix_cons, prefix_nil, andb_true_r.
    destruct (Ascii.eqb_spec "|" c) as [<-|Hne]; [exact Hcur|].
    apply IH. clear IH. cbn [rev].
    induction (rev cur) as [|x l IHl]; cbn [app string_of_list_ascii includes] in *.
    + rewrite prefix_cons, prefix_nil, andb_true_r.
      apply Ascii.eqb_neq in Hne. now rewrite Hne.
    + apply orb_false_elim in Hcur as [Hx Hl].
      rewrite prefix_cons, prefix_nil, andb_true_r in *. rewrite Hx. cbn [orb].
      now apply IHl.
Qed.

Lemma statFiles_clean (stat : string) :
  Forall (fun f => trimmed f /\ includes f "|" = false) (statFiles stat).
Proof.
  unfold statFiles. apply List.Forall_map. apply List.Forall_forall.
  intros line _. split; [apply trim_trimmed|].
  destruct (includes (trim _) "|") eqn:E; [|reflexivity].
  apply includes_trim in E. unfold split in E.
  now rewrite first_split_bar in E.
Qed.

(** X2: [getCommitDiff] swallows a failing [diff]: when either of its
    two calls rejects (the first commit of a repository has no parent),
    it ends with an empty stat and no files instead of throwing, and when
    the first call rejects the second is not made. *)
Theorem X2_getCommitDiff_swallows_errors (w : World) (hash e : string) :
  git_diff w (statArgs hash) = Throw e
  \/ git_diff w (shortstatArgs hash) = Throw e ->
  returns (getCommitDiff hash w) ("", [])
  /\ (git_diff w (statArgs hash) = Throw e ->
      fst (getCommitDiff hash w) = [EvGit (GitDiff (statArgs hash))]).
Proof.
  intros Hfail. rewrite getCommitDiff_run. unfold returns, diffOf. cbn [fst snd].
  split.
  - destruct Hfail as [-> | ->]; [reflexivity|].
    now destruct (git_diff w (statArgs hash)).
  - now intros ->.
Qed.

Lemma X2_getCommitDiff_swallows_errors_witness :
  getCommitDiff "a1a1a1a" bareWorld
  = ([EvGit (GitDiff ["a1a1a1a~1"; "a1a1a1a"; "--stat"])], Value ("", [])).
Proof.
  destruct (X2_getCommitDiff_swallows_errors bareWorld "a1a1a1a"
              "fatal: not a git repository" (or_introl eq_refl)) as [Hv Ht].
  unfold returns in Hv. specialize (Ht eq_refl).
  destruct (getCommitDiff "a1a1a1a" bareWorld) as [t o].
  cbn [fst snd] in *. now subst.
Defined.

(** X3: when both [diff] calls answer, [getCommitDiff] returns the
    trimmed short stat and the file names of the stat output; every file
    name is trimmed and holds no [|], and there are no more names than
    lines of output. *)
Theorem X3_getCommitDiff_files (w : World) (hash stat detail : string) :
  git_diff w (statArgs hash) = Ok stat ->
  git_diff w (shortstatArgs hash) = Ok detail ->
  getCommitDiff hash w
  = ([EvGit (GitDiff (statArgs hash)); EvGit (GitDiff (shortstatArgs hash))],
     Value (trim detail, statFiles stat))
  /\ Forall (fun f => trimmed f /\ includes f "|" = false) (statFiles stat)
  /\ (length (statFiles stat) <= length (split stat LF))%nat.
Proof.
  intros Hstat Hdetail. rewrite getCommitDiff_run. unfold diffOf.
  rewrite Hstat, Hdetail. split; [reflexivity|]. split; [apply statFiles_clean|].
  unfold statFiles. rewrite length_map. apply List.filter_length_le.
Qed.

Lemma X3_getCommitDiff_files_witness :
  getCommitDiff "a1a1a1a" (logWorld sampleLog sampleStat sampleShortstat)
  = ([EvGit (GitDiff ["a1a1a1a~1"; "a1a1a1a"; "--stat"]);
      EvGit (GitDiff ["a1a1a1a~1"; "a1a1a1a"; "--shortstat"])],
     Value ("2 files changed, 9 insertions(+), 6 deletions(-)",
            ["src/git.ts"; "src/config.ts"])).
Proof.
  exact (proj1 (X3_getCommitDiff_files
                  (logWorld sampleLog sampleStat sampleShortstat) "a1a1a1a"
                  sampleStat sampleShortstat eq_refl eq_refl)).
Defined.

Lemma parseLogResult_from (log : list LogEntry) (acc : list CommitInfo) (w : World) :
  forEachM log acc (fun commits entry =>
    stat <- getCommitDiff (entry_hash entry) ;;
    let '(diff, files) := stat in
    ret (commits ++ [mkCommit (entry_hash entry)
                              (String.substring 0 7 (entry_hash entry))
                              (entry_date entry)
                              (entry_message entry)
                              (entry_body entry)
                              (author_name entry)
                              (author_email entry)
                              files
                              diff])%list) w
  = (diffEvents w log, Value (acc ++ map (commitOf w) log)%list).
Proof.
  revert acc. induction log as [|entry log IH]; intros acc.
  - cbn. now rewrite app_nil_r.
  - cbn [forEachM]. unfold bind at 1. unfold bind at 1.
    rewrite getCommitDiff_run. cbn [fst snd].
    destruct (diffOf w (entry_hash entry)) as [diff files] eqn:Hd.
    unfold ret at 1. rewrite IH. cbn [map diffEvents flat_map].
    rewrite getCommitDiff_run. cbn [fst]. unfold commitOf at 2. rewrite Hd.
    cbn [fst snd]. rewrite app_nil_r, <- List.app_assoc. reflexivity.
Qed.

Lemma parseLogResult_run (log : list LogEntry) (w : World) :
  parseLogResult log w = (diffEvents w log, Value (map (commitOf w) log)).
Proof. unfold parseLogResult. now rewrite parseLogResult_from. Qed.

(** X4: [parseLogResult] never throws and makes one commit per log
    entry, in the order of the log, with the hash, date, subject and
    author of the entry; the short hash is the first seven characters of
    the hash; its only git calls are [diff] calls. *)
Theorem X4_parseLogResult_commits (w : World) (log : list LogEntry) :
  exists trace commits,
    parseLogResult log w = (trace, Value commits)
    /\ length commits = length log
    /\ map hash commits = map entry_hash log
    /\ map date commits = map entry_date log
    /\ map message commits = map entry_message log
    /\ map author commits = map author_name log
    /\ Forall (fun c => hashShort c = String.substring 0 7 (hash c)
                        /\ (String.length (hashShort c) <= 7)%nat) commits
    /\ Forall (fun e => exists args, e = EvGit (GitDiff args)) trace.
Proof.
  exists (diffEvents w log), (map (commitOf w) log).
  split; [apply parseLogResult_run|].
  rewrite length_map, !map_map. cbn [commitOf hash date message author].
  repeat split.
  - apply List.Forall_map, List.Forall_forall. intros entry _.
    cbn [commitOf hash hashShort]. split; [reflexivity|].
    generalize (entry_hash entry). intros s. generalize 7%nat.
    induction s as [|c s IH]; intros [|n]; cbn [String.substring String.length];
      try lia.
    specialize (IH n). lia.
  - unfold diffEvents. apply List.Forall_flat_map, List.Forall_forall.
    intros entry _. rewrite getCommitDiff_run. cbn [fst].
    destruct (git_diff w (statArgs (entry_hash entry))); repeat constructor; eauto.
Qed.

(** X5: inside a repository [getCommitsRange] asks for the log of the
    range right after the repository check. When the log query answers,
    the commits are those of the log in its order; when it rejects, the
    error is thrown on and no [diff] is asked for. *)
Theorem X5_getCommitsRange_log (w : World) (from to : string) :
  git_checkIsRepo w = Ok true ->
  (forall log,
      git_log w (LogRange from to) = Ok log ->
      getCommitsRange from to w
      = (EvGit GitCheckIsRepo :: EvGit (GitLog (LogRange from to))
           :: diffEvents w log,
         Value (map (commitOf w) log)))
  /\ (forall e,
        git_log w (LogRange from to) = Throw e ->
        getCommitsRange from to w
        = ([EvGit GitCheckIsRepo; EvGit (GitLog (LogRange from to))], Thrown e)).
Proof.
  intros Hrepo. unfold getCommitsRange.
  rewrite (bind_value getGit _ w [EvGit GitCheckIsRepo] tt)
    by (rewrite getGit_run, Hrepo; reflexivity).
  split.
  - intros log Hlog.
    rewrite (bind_value _ _ w [EvGit (GitLog (LogRange from to))] log).
    + rewrite parseLogResult_run. reflexivity.
    + unfold git, bind, emit, ask, liftR, ret. cbn. now rewrite Hlog.
  - intros e Hlog.
    rewrite (bind_thrown _ _ w [EvGit (GitLog (LogRange from to))] e).
    + reflexivity.
    + unfold git, bind, emit, ask, liftR, ret, throw. cbn. now rewrite Hlog.
Qed.

Lemma X5_getCommitsRange_log_witness :
  returns (getCommitsRange "v1.0" "HEAD"
             (logWorld sampleLog sampleStat sampleShortstat))
          (map (commitOf (logWorld sampleLog sampleStat sampleShortstat))
               sampleLog).
Proof.
  unfold returns.
  now rewrite (proj1 (X5_getCommitsRange_log
                        (logWorld sampleLog sampleStat sampleShortstat)
                        "v1.0" "HEAD" eq_refl) sampleLog eq_refl).
Defined.

Lemma NoDup_map_injective {A B} (f : A -> B) (l : list A) :
  (forall a b, f a = f b -> a = b) -> List.NoDup l -> List.NoDup (map f l).
Proof.
  intros Hinj Hl. induction Hl as [|x l Hx Hl IH]; cbn [map]; constructor.
  - intros Hin. apply in_map_iff in Hin as (y & Hy & Hyl).
    apply Hinj in Hy. now subst.
  - exact IH.
Qed.

Section GrouperMore.
Context `{DateFns}.

Lemma groupLoop_thrown (cs : list CommitInfo) (e : string) :
  fold_left groupStep cs (Throw e) = Throw e.
Proof. induction cs as [|c cs IH]; [reflexivity | exact IH]. Qed.

Lemma labelLoop_thrown (m : JsMap.t (list CommitInfo)) (e : string) :
  fold_left labelStep m (Throw e) = Throw e.
Proof. induction m as [|x m IH]; [reflexivity | exact IH]. Qed.

Lemma groupLoop_invalid (cs : list CommitInfo) (m : JsMap.t (list CommitInfo)) :
  Exists (fun c => parseISO (date c) = None) cs ->
  fold_left groupStep cs (Ok m) = Throw "Invalid time value".
Proof.
  revert m. induction cs as [|c cs IH]; intros m Hex; [inversion Hex|].
  cbn [fold_left].
  destruct (parseISO (date c)) as [t|] eqn:Ht.
  - rewrite (groupStep_push m c (formatDate t "yyyy-MM-dd"))
      by (unfold dateKeyOf, format; now rewrite Ht).
    apply IH. inversion Hex as [? ? Hc | ? ? Hcs]; subst; [congruence | exact Hcs].
  - assert (Hstep : groupStep (Ok m) c = Throw "Invalid time value").
    { unfold groupStep, dateKeyOf, format. cbn [bindR]. now rewrite Ht. }
    rewrite Hstep. apply groupLoop_thrown.
Qed.

(** X7: one commit with a date that [parseISO] does not read makes
    [groupCommitsByDate] throw the [RangeError] of [format], whatever
    the other commits are. *)
Theorem X7_groupCommitsByDate_invalid_date (cs : list CommitInfo) :
  Exists (fun c => parseISO (date c) = None) cs ->
  groupCommitsByDate cs = Throw "Invalid time value".
Proof.
  intros Hex. pose proof (groupLoop_invalid cs [] Hex) as Hloop.
  unfold groupCommitsByDate. unfold JsMap.t in *. now rewrite Hloop.
Qed.

Lemma entry_day (cs : list CommitInfo) (e : string * list CommitInfo) :
  snd e <> [] /\ snd e = List.filter (onDay (fst e)) cs ->
  groupDay (toGroup e) = Ok (fst e).
Proof.
  intros [Hne Hf]. unfold groupDay, toGroup. cbn [commits].
  destruct (snd e) as [|c r] eqn:E; [congruence|].
  assert (Hin : In c (List.filter (onDay (fst e)) cs)) by (rewrite <- Hf; now left).
  apply List.filter_In in Hin as [_ Hday]. now apply onDay_true.
Qed.

(** X6: on commits with readable dates, no two groups of
    [groupCommitsByDate] are of the same calendar day; every group is
    labelled with the formatted date of its first commit; and there are
    no more groups than commits. *)
Theorem X6_groupCommitsByDate_days (cs : list CommitInfo) :
  Forall validDate cs ->
  exists groups,
    groupCommitsByDate cs = Ok groups
    /\ List.NoDup (map groupDay groups)
    /\ Forall (fun g => exists c r t,
                 commits g = c :: r /\ parseISO (date c) = Some t
                 /\ label g = formatDate t "EEEE, MMMM d, yyyy"
                 /\ groupDay g = Ok (formatDate t "yyyy-MM-dd")) groups
    /\ (length groups <= length cs)%nat.
Proof.
  intros Hv.
  destruct (groupCommitsByDate_run cs Hv) as (m & [Hkeys Hent Hcov Hperm] & Hrun).
  exists (sortBy byFirstDateDesc (map toGroup m)). split; [exact Hrun|].
  pose proof (sortBy_perm byFirstDateDesc (map toGroup m)) as Hsort.
  assert (Hdays : map groupDay (map toGroup m) = map (fun e => Ok (fst e)) m).
  { rewrite map_map. apply map_ext_in. intros e He.
    rewrite List.Forall_forall in Hent. now apply (entry_day cs), Hent. }
  split; [|split].
  - eapply Permutation_NoDup; [apply Permutation_map; symmetry; exact Hsort|].
    rewrite Hdays. rewrite <- (map_map fst Ok).
    apply NoDup_map_injective; [|exact Hkeys].
    intros a b Hab. now injection Hab.
  - eapply Permutation_Forall; [symmetry; exact Hsort|].
    apply List.Forall_map. eapply List.Forall_impl; [|exact Hent].
    intros e He. destruct (entry_head cs e Hv He) as (c & r & Hc & [Hp _]).
    destruct (parseISO (date c)) as [t|] eqn:Ht; [|congruence].
    exists c, r, t. unfold toGroup, groupDay. cbn [commits label].
    rewrite Hc. cbn [labelOf]. rewrite Ht. unfold dateKeyOf, format. rewrite Ht.
    repeat split.
  - rewrite (Permutation_length Hsort), length_map.
    rewrite <- (Permutation_length Hperm).
    clear -Hent. induction Hent as [|e m [Hne _] Hm IH]; [cbn; lia|].
    cbn [map concat length]. rewrite length_app.
    destruct (snd e); [congruence | cbn [length]; lia].
Qed.
End GrouperMore.

Lemma X7_groupCommitsByDate_invalid_date_witness :
  @groupCommitsByDate sampleDates
    [sampleCommit "a1" "2024-01-15T10:00:00Z" "feat: parser";
     sampleCommit "b2" "yesterday" "fix: typo"]
  = Throw "Invalid time value".
Proof.
  apply (@X7_groupCommitsByDate_invalid_date sampleDates).
  apply Exists_cons_tl, Exists_cons_hd. reflexivity.
Defined.

Lemma X6_groupCommitsByDate_days_witness :
  exists groups,
    @groupCommitsByDate sampleDates sampleHistory = Ok groups
    /\ List.NoDup (map (@groupDay sampleDates) groups).
Proof.
  destruct (@X6_groupCommitsByDate_days sampleDates sampleHistory)
    as (groups & Hrun & Hdays & _).
  - repeat (apply List.Forall_cons; [split; discriminate|]). apply List.Forall_nil.
  - exists groups. now split.
Defined.

Lemma stripDotGit_nonempty (seg : string) : seg <> "" -> stripDotGit seg <> "".
Proof.
  destruct seg as [|c r]; [congruence|]. intros _. cbn [stripDotGit].
  destruct (String.eqb r ".git"); discriminate.
Qed.

Lemma orElse_nonempty (a b : string) : b <> "" -> orElse a b <> "".
Proof.
  intros Hb. unfold orElse. destruct (String.eqb_spec a ""); congruence.
Qed.

(** X8: a name returned by [getRepoName] is never the empty string. *)
Theorem X8_getRepoName_never_empty (w : World) (name : string) :
  returns (getRepoName w) name -> name <> "".
Proof.
  unfold returns. intros Hret.
  destruct (git_checkIsRepo w) as [[|]|e] eqn:Hrepo.
  - rewrite (getRepoName_run w Hrepo) in Hret. cbv zeta in Hret.
    assert (Hfallback :
      snd ([EvGit GitCheckIsRepo; EvGit (GitRemote ["get-url"; "origin"]);
            EvGit (GitRevparse ["--show-toplevel"])],
           match git_revparse w ["--show-toplevel"] with
           | Ok root => Value (directoryName root)
           | Throw e => Thrown e
           end) = Value name -> name <> "").
    { cbn [snd]. destruct (git_revparse w _) as [root|e]; [|discriminate].
      intros [= <-]. unfold directoryName. now apply orElse_nonempty. }
    destruct (git_remote w _) as [[url|]|e]; try now apply Hfallback.
    destruct (String.eqb url ""); [now apply Hfallback|].
    rewrite matchRepo_spec in Hret.
    destruct (afterLastSlash (trim url)) as [seg|]; [|now apply Hfallback].
    destruct (String.eqb seg "") eqn:Hseg; [now apply Hfallback|].
    apply String.eqb_neq in Hseg.
    cbn [snd] in Hret. injection Hret as <-. now apply stripDotGit_nonempty.
  - unfold getRepoName in Hret.
    rewrite (bind_thrown getGit _ w [EvGit GitCheckIsRepo] notARepository) in Hret
      by (rewrite getGit_run, Hrepo; reflexivity).
    discriminate.
  - unfold getRepoName in Hret.
    rewrite (bind_thrown getGit _ w [EvGit GitCheckIsRepo] e) in Hret
      by (rewrite getGit_run, Hrepo; reflexivity).
    discriminate.
Qed.

Lemma X8_getRepoName_never_empty_witness :
  returns (getRepoName githubWorld) "myrepo" /\ "myrepo" <> "".
Proof.
  split; [reflexivity|].
  exact (X8_getRepoName_never_empty githubWorld "myrepo" eq_refl).
Defined.

(* ===================================================================== *)
(** * More about copilot.ts *)
(* ===================================================================== *)

Lemma lacks_stripCR (s : string) : lacks CR (stripCR s) = true.
Proof.
  induction s as [|c s IH]; [reflexivity|]. cbn [stripCR].
  destruct (Ascii.eqb c CR) eqn:Hc; [exact IH|].
  cbn [lacks]. now rewrite Hc, IH.
Qed.

Lemma lacks_head (x : ascii) (s : string) (n : nat) :
  lacks x s = true -> lacks x (String.substring 0 n s) = true.
Proof.
  revert n. induction s as [|c s IH]; intros n H; [now destruct n|].
  destruct n as [|n]; [reflexivity|].
  rewrite substring0_cons. cbn [lacks] in *.
  apply andb_prop in H as [-> H]. now rewrite (IH n H).
Qed.

Lemma lacks_trimStart (x : ascii) (s : string) :
  lacks x s = true -> lacks x (trimStart s) = true.
Proof.
  induction s as [|c s IH]; [trivial|]. cbn [trimStart]. intros H.
  destruct (isWhiteSpace c); [|exact H].
  apply IH. cbn [lacks] in H. now apply andb_prop in H as [_ H].
Qed.

Lemma lacks_trim (x : ascii) (s : string) :
  lacks x s = true -> lacks x (trim s) = true.
Proof.
  intros H. unfold trim. destruct (trimEnd_head_of (trimStart s)) as [n ->].
  apply lacks_head. now apply lacks_trimStart.
Qed.

Lemma cleanCopilotOutput_lacks_CR (output : string) :
  lacks CR (cleanCopilotOutput output) = true.
Proof.
  rewrite cleanCopilotOutput_cut. cbv zeta.
  apply lacks_trim, lacks_head, lacks_stripCR.
Qed.

(** X9: whatever the subprocess printed, the text [cleanCopilotOutput]
    returns holds no carriage return, holds neither of the two footer
    markers, and has no whitespace at its ends. *)
Theorem X9_cleanCopilotOutput_clean (output : string) :
  lacks CR (cleanCopilotOutput output) = true
  /\ Forall (fun marker => includes (cleanCopilotOutput output) marker = false)
            markers
  /\ trimmed (cleanCopilotOutput output).
Proof.
  split; [apply cleanCopilotOutput_lacks_CR | apply cleanCopilotOutput_footer].
Qed.

(** *** Where the footer starts *)

Lemma length_append (a b : string) :
  String.length (a ++ b) = (String.length a + String.length b)%nat.
Proof. induction a as [|c a IH]; cbn; [reflexivity | now rewrite IH]. Qed.

Lemma substring0_append (a b : string) :
  String.substring 0 (String.length a) (a ++ b) = a.
Proof.
  induction a as [|c a IH]; cbn [String.length String.append].
  - apply substring0_zero.
  - now rewrite substring0_cons, IH.
Qed.

Lemma prefix_append (m x : string) : String.prefix m (m ++ x) = true.
Proof.
  induction m as [|c m IH]; cbn [String.append]; [apply prefix_nil|].
  now rewrite prefix_cons, Ascii.eqb_refl, IH.
Qed.

(** A text without line feed that starts a text fits before the first
    line feed of it. *)
Lemma prefix_before_LF (t b x : string) :
  lacks "010" t = true ->
  String.prefix t (b ++ String "010" x) = true -> String.prefix t b = true.
Proof.
  revert b. induction t as [|a t IH]; intros b Ht Hp; [apply prefix_nil|].
  cbn [lacks] in Ht. apply andb_prop in Ht as [Ha Ht].
  destruct b as [|c b]; cbn [String.append] in Hp; rewrite prefix_cons in Hp;
    apply andb_prop in Hp as [Hac Hp].
  - rewrite Hac in Ha. discriminate.
  - rewrite prefix_cons, Hac. cbn [andb]. now apply IH.
Qed.

Lemma noStartIn_lines (body x m : string) :
  lineStart m = true -> includes body m = false ->
  noStartIn body (String "010" x) m = true.
Proof.
  intros Hm. destruct m as [|c tail]; [discriminate|].
  cbn [lineStart] in Hm. apply andb_prop in Hm as [Hc Htail].
  apply Ascii.eqb_eq in Hc. subst c.
  induction body as [|c b IH]; [reflexivity|]. intros Hinc.
  cbn [includes] in Hinc. apply orb_false_elim in Hinc as [Hp Hb].
  cbn [noStartIn]. rewrite (IH Hb), andb_true_r.
  apply negb_true_iff.
  destruct (String.prefix (String "010" tail) (String c b ++ String "010" x)) eqn:E;
    [|reflexivity].
  cbn [String.append] in E. rewrite prefix_cons in E.
  apply andb_prop in E as [E1 E2].
  apply (prefix_before_LF tail b x Htail) in E2.
  rewrite prefix_cons, E1, E2 in Hp. discriminate.
Qed.

Lemma indexOf_skip (body x m : string) :
  noStartIn body x m = true ->
  indexOf (body ++ x) m
  = if (indexOf x m =? -1)%Z then (-1)%Z
    else (Z.of_nat (String.length body) + indexOf x m)%Z.
Proof.
  induction body as [|c b IH]; intros Hns.
  - cbn [String.append String.length]. destruct (Z.eqb_spec (indexOf x m) (-1)); lia.
  - cbn [noStartIn] in Hns. apply andb_prop in Hns as [Hp Hb].
    apply negb_true_iff in Hp. cbn [String.append] in *.
    cbn [indexOf]. rewrite Hp, (IH Hb).
    destruct (Z.eqb_spec (indexOf x m) (-1)) as [E|E]; [reflexivity|].
    pose proof (indexOf_lower x m). cbn [String.length].
    destruct (Z.eqb_spec (Z.of_nat (String.length b) + indexOf x m) (-1)); lia.
Qed.

Lemma indexOf_here (m x : string) : indexOf (m ++ x) m = 0%Z.
Proof.
  destruct (m ++ x) as [|c r] eqn:E; cbn [indexOf];
    rewrite <- E, prefix_append; reflexivity.
Qed.

Lemma earliest_fold_in (cleaned : string) (ms : list string) (e : Z) :
  fold_left (earliestStep cleaned) ms e = e
  \/ exists m, In m ms
               /\ fold_left (earliestStep cleaned) ms e = indexOf cleaned m
               /\ indexOf cleaned m <> (-1)%Z.
Proof.
  revert e. induction ms as [|m ms IH]; intros e; cbn [fold_left]; [now left|].
  destruct (IH (earliestStep cleaned e m)) as [H | (m' & Hin & H1 & H2)].
  - rewrite H. unfold earliestStep.
    destruct (Z.eqb_spec (indexOf cleaned m) (-1)); cbn [negb andb]; [now left|].
    destruct (indexOf cleaned m <? e)%Z; [|now left].
    right. exists m. repeat split; [now left | assumption].
  - right. exists m'. repeat split; [now right | assumption | assumption].
Qed.

(** X10: when the output, once escape sequences and carriage returns
    are removed, is a body without footer marker followed by a marker and
    anything after it, [cleanCopilotOutput] returns exactly the trimmed
    body: the cut falls at the first marker and loses nothing before it. *)
Theorem X10_cleanCopilotOutput_keeps_body (output body marker rest : string) :
  In marker markers ->
  stripCR (stripAnsi output) = body ++ marker ++ rest ->
  Forall (fun m => includes body m = false) markers ->
  cleanCopilotOutput output = trim body.
Proof.
  intros Hin Hclean Hbody. rewrite cleanCopilotOutput_cut. cbv zeta.
  rewrite Hclean. f_equal.
  set (cleaned := body ++ marker ++ rest).
  assert (Hlines : Forall (fun m => lineStart m = true) markers)
    by (repeat constructor).
  rewrite List.Forall_forall in Hbody, Hlines.
  assert (Hx : exists y, marker ++ rest = String "010" y).
  { specialize (Hlines marker Hin). destruct marker as [|c t]; [discriminate|].
    cbn [lineStart] in Hlines. apply andb_prop in Hlines as [Hc _].
    apply Ascii.eqb_eq in Hc. subst c. now exists (t ++ rest). }
  destruct Hx as [y Hy].
  assert (Hidx : forall m, In m markers ->
            indexOf cleaned m = (-1)%Z
            \/ (Z.of_nat (String.length body) <= indexOf cleaned m)%Z).
  { intros m Hm. unfold cleaned. rewrite Hy.
    rewrite (indexOf_skip body _ m (noStartIn_lines body y m (Hlines m Hm) (Hbody m Hm))).
    pose proof (indexOf_lower (String "010" y) m).
    destruct (Z.eqb_spec (indexOf (String "010" y) m) (-1)); [now left | right; lia]. }
  assert (Hmark : indexOf cleaned marker = Z.of_nat (String.length body)).
  { unfold cleaned.
    rewrite (indexOf_skip body _ marker).
    - rewrite indexOf_here. cbn. lia.
    - rewrite Hy. apply noStartIn_lines; [apply Hlines | apply Hbody]; exact Hin. }
  destruct (earliest_fold cleaned markers (len cleaned)) as [Hrange Hall];
    [unfold len; lia|].
  rewrite List.Forall_forall in Hall.
  set (earliest := fold_left (earliestStep cleaned) markers (len cleaned)) in *.
  assert (He : earliest = Z.of_nat (String.length body)).
  { assert (Hle : (earliest <= Z.of_nat (String.length body))%Z).
    { destruct (Hall marker Hin) as [H|H]; lia. }
    destruct (earliest_fold_in cleaned markers (len cleaned))
      as [H | (m & Hm & H1 & H2)]; fold earliest in H || fold earliest in H1.
    - unfold len, cleaned in H. rewrite length_append in H. lia.
    - destruct (Hidx m Hm) as [H|H]; [congruence | lia]. }
  rewrite He, Nat2Z.id. apply substring0_append.
Qed.

Lemma X10_cleanCopilotOutput_keeps_body_witness :
  cleanCopilotOutput footedOutput
  = "- parser rewritten" ++ LF ++ "- typo fixed".
Proof.
  refine (X10_cleanCopilotOutput_keeps_body footedOutput
            ("- parser rewritten" ++ LF ++ "- typo fixed" ++ LF)
            (LF ++ "Total usage est:")
            (" 1 Premium request" ++ LF ++ "API time spent: 4s") _ _ _).
  - now left.
  - reflexivity.
  - repeat constructor.
Defined.

(** *** Plain text *)

Lemma noEsc_matchAnsi (s : string) : noEsc s = true -> matchAnsi s = None.
Proof.
  destruct s as [|c1 [|c2 r]]; try reflexivity. cbn [noEsc]. intros H.
  apply andb_prop in H as [Hc _]. apply negb_true_iff in Hc.
  unfold matchAnsi. now rewrite Hc.
Qed.

Lemma stripAnsi_plain (fuel : nat) (s : string) :
  noEsc s = true -> stripAnsi_from fuel s = s.
Proof.
  revert s. induction fuel as [|fuel IH]; intros s Hs; [reflexivity|].
  cbn [stripAnsi_from]. destruct s as [|c r]; [reflexivity|].
  rewrite (noEsc_matchAnsi _ Hs). f_equal. apply IH.
  cbn [noEsc] in Hs. now apply andb_prop in Hs as [_ Hs].
Qed.

Lemma stripCR_plain (s : string) : lacks CR s = true -> stripCR s = s.
Proof.
  induction s as [|c s IH]; [reflexivity|]. cbn [lacks stripCR]. intros H.
  apply andb_prop in H as [Hc Hs]. apply negb_true_iff in Hc.
  now rewrite Hc, (IH Hs).
Qed.

Lemma indexOf_absent (s m : string) : includes s m = false -> indexOf s m = (-1)%Z.
Proof.
  induction s as [|c s IH]; cbn [includes indexOf]; intros H;
    apply orb_false_elim in H as [Hp Hs]; rewrite Hp; [reflexivity|].
  now rewrite (IH Hs).
Qed.

Lemma earliest_absent (cleaned : string) (ms : list string) (e : Z) :
  Forall (fun m => includes cleaned m = false) ms ->
  fold_left (earliestStep cleaned) ms e = e.
Proof.
  revert e. induction ms as [|m ms IH]; intros e Hms; [reflexivity|].
  apply List.Forall_cons_iff in Hms as [Hm Hms]. cbn [fold_left].
  unfold earliestStep at 2. rewrite (indexOf_absent _ _ Hm). cbn. now apply IH.
Qed.

Lemma trim_of_trimmed (s : string) : trimmed s -> trim s = s.
Proof. intros [H1 H2]. unfold trim. now rewrite H1, H2. Qed.

Lemma cleanCopilotOutput_plain (output : string) :
  noEsc output = true ->
  lacks CR output = true ->
  Forall (fun marker => includes output marker = false) markers ->
  cleanCopilotOutput output = trim output.
Proof.
  intros Hesc Hcr Hmark. unfold cleanCopilotOutput, stripAnsi.
  rewrite (stripAnsi_plain _ _ Hesc), (stripCR_plain _ Hcr).
  rewrite (earliest_absent _ _ _ Hmark), Z.ltb_irrefl. reflexivity.
Qed.

(** X11: an output without ESC character, carriage return and footer
    marker is only trimmed by [cleanCopilotOutput]; when it has no
    whitespace at its ends either it comes back unchanged. *)
Theorem X11_cleanCopilotOutput_plain_text (output : string) :
  noEsc output = true ->
  lacks CR output = true ->
  Forall (fun marker => includes output marker = false) markers ->
  cleanCopilotOutput output = trim output
  /\ (trimmed output -> cleanCopilotOutput output = output).
Proof.
  intros Hesc Hcr Hmark.
  rewrite (cleanCopilotOutput_plain output Hesc Hcr Hmark).
  split; [reflexivity | apply trim_of_trimmed].
Qed.

Lemma X11_cleanCopilotOutput_plain_text_witness :
  cleanCopilotOutput ("  - parser rewritten" ++ LF ++ LF) = "- parser rewritten".
Proof.
  refine (proj1 (X11_cleanCopilotOutput_plain_text
                   ("  - parser rewritten" ++ LF ++ LF) eq_refl eq_refl _)).
  repeat constructor.
Defined.

Lemma cleanCopilotOutput_noEsc (output : string) :
  escapesComplete output = true -> noEsc (cleanCopilotOutput output) = true.
Proof.
  intros H. rewrite cleanCopilotOutput_cut. cbv zeta.
  apply noEsc_trim, noEsc_head, noEsc_stripCR. now apply stripAnsi_noEsc.
Qed.

(** X12: when every ESC of the output opens a complete colour or
    cursor sequence, sanitizing the sanitized text again changes nothing:
    [cleanCopilotOutput] is idempotent on such outputs. *)
Theorem X12_cleanCopilotOutput_idempotent (output : string) :
  escapesComplete output = true ->
  cleanCopilotOutput (cleanCopilotOutput output) = cleanCopilotOutput output.
Proof.
  intros H.
  destruct (cleanCopilotOutput_footer output) as [Hmark Htrim].
  rewrite cleanCopilotOutput_plain; [now apply trim_of_trimmed | | |].
  - now apply cleanCopilotOutput_noEsc.
  - apply cleanCopilotOutput_lacks_CR.
  - exact Hmark.
Qed.

Lemma X12_cleanCopilotOutput_idempotent_witness :
  cleanCopilotOutput (cleanCopilotOutput colouredOutput)
  = cleanCopilotOutput colouredOutput.
Proof. exact (X12_cleanCopilotOutput_idempotent colouredOutput eq_refl). Defined.

(** *** The generators *)

Lemma askCopilot_sanitized (prompt r : string) (w : World) :
  returns (askCopilot prompt w) r ->
  lacks CR r = true
  /\ Forall (fun marker => includes r marker = false) markers
  /\ trimmed r.
Proof.
  unfold returns. rewrite askCopilot_run. cbn [snd].
  destruct (execFile w _ _ _) as [stdout|e]; intros [= <-].
  - split; [apply cleanCopilotOutput_lacks_CR | apply cleanCopilotOutput_footer].
  - repeat split. repeat constructor.
Qed.

Lemma guarded_sanitized (commits : list CommitInfo) (prompt r : string) (w : World) :
  returns ((if (length commits =? 0)%nat then ret "" else askCopilot prompt) w) r ->
  lacks CR r = true
  /\ Forall (fun marker => includes r marker = false) markers
  /\ trimmed r.
Proof.
  destruct (length commits =? 0)%nat; [|apply askCopilot_sanitized].
  unfold returns, ret. cbn [snd]. intros [= <-].
  repeat split. repeat constructor.
Qed.

(** X13: whatever any of the five generators returns (daily, standup,
    weekly, release notes, range) holds no carriage return and no footer
    marker and has no whitespace at its ends, in every world: their result
    is the empty string or a sanitized answer, never raw subprocess
    output. *)
Theorem X13_generators_return_sanitized_text (w : World)
  (commits yesterdayCommits todayCommits : list CommitInfo)
  (repoName authorName fromTag from to r : string) :
  returns (generateDailySummary commits repoName authorName w) r
  \/ returns (generateStandupReport yesterdayCommits todayCommits
                                    repoName authorName w) r
  \/ returns (generateWeeklySummary commits repoName authorName w) r
  \/ returns (generateReleaseNotes commits repoName fromTag w) r
  \/ returns (generateRangeSummary commits repoName from to w) r ->
  lacks CR r = true
  /\ Forall (fun marker => includes r marker = false) markers
  /\ trimmed r.
Proof.
  intros [H|[H|[H|[H|H]]]].
  - eapply guarded_sanitized. exact H.
  - eapply askCopilot_sanitized. exact H.
  - eapply guarded_sanitized. exact H.
  - eapply guarded_sanitized. exact H.
  - eapply guarded_sanitized. exact H.
Qed.

Lemma X13_generators_return_sanitized_text_witness :
  trimmed "Done.".
Proof.
  refine (proj2 (proj2 (X13_generators_return_sanitized_text
                          (worldWithGh colouredOutput)
                          [sampleCommit "a1" "2024-01-15T10:00:00Z" "feat: parser"]
                          [] [] "devlog" "Ada" "" "" "" "Done." _))).
  left. vm_compute. reflexivity.
Defined.

(** X14: for a non-empty commit list the daily, weekly, release and
    range generators each do exactly one thing to the outside: they start
    [gh copilot -- -p <prompt>] once with a timeout of 60000 ms, and the
    prompt ends with a blank line followed by the formatted commit list. *)
Theorem X14_generators_one_subprocess (w : World) (commits : list CommitInfo)
  (repoName authorName fromTag from to : string) :
  commits <> [] ->
  (exists head,
      fst (generateDailySummary commits repoName authorName w)
      = [EvExec "gh" ["copilot"; "--"; "-p";
                      head ++ LF ++ LF ++ formatCommitsForPrompt commits] 60000])
  /\ (exists head,
        fst (generateWeeklySummary commits repoName authorName w)
        = [EvExec "gh" ["copilot"; "--"; "-p";
                        head ++ LF ++ LF ++ formatCommitsForPrompt commits] 60000])
  /\ (exists head,
        fst (generateReleaseNotes commits repoName fromTag w)
        = [EvExec "gh" ["copilot"; "--"; "-p";
                        head ++ LF ++ LF ++ formatCommitsForPrompt commits] 60000])
  /\ (exists head,
        fst (generateRangeSummary commits repoName from to w)
        = [EvExec "gh" ["copilot"; "--"; "-p";
                        head ++ LF ++ LF ++ formatCommitsForPrompt commits] 60000]).
Proof.
  intros Hne.
  assert (Hlen : (length commits =? 0)%nat = false)
    by (destruct commits; [congruence | reflexivity]).
  unfold generateDailySummary, generateWeeklySummary, generateReleaseNotes,
    generateRangeSummary. rewrite Hlen. cbv zeta. rewrite !askCopilot_run.
  cbn [fst]. repeat split; eexists; rewrite <- ?append_assoc; reflexivity.
Qed.

Lemma X14_generators_one_subprocess_witness :
  length (fst (generateRangeSummary
                 [sampleCommit "a1" "2024-01-15T10:00:00Z" "feat: parser"]
                 "devlog" "v1.0" "HEAD" bareWorld)) = 1%nat.
Proof.
  destruct (X14_generators_one_subprocess bareWorld
              [sampleCommit "a1" "2024-01-15T10:00:00Z" "feat: parser"]
              "devlog" "Ada" "v0.9" "v1.0" "HEAD") as (_ & _ & _ & head & ->).
  - discriminate.
  - reflexivity.
Defined.

(** X15: the prompt line of a commit names at most its first five
    files: two commits with more than five files each that agree on the
    short hash, the message, the diff summary and the first five files get
    the same line, whatever files follow. *)
Theorem X15_formatCommit_first_five_files (c c' : CommitInfo) :
  hashShort c = hashShort c' ->
  message c = message c' ->
  diff c = diff c' ->
  firstn 5 (filesChanged c) = firstn 5 (filesChanged c') ->
  (5 < length (filesChanged c))%nat ->
  (5 < length (filesChanged c'))%nat ->
  formatCommit c = formatCommit c'.
Proof.
  intros Hh Hm Hd Hf Hl Hl'. unfold formatCommit.
  rewrite Hh, Hm, Hd, Hf.
  apply Nat.ltb_lt in Hl as Hl5, Hl' as Hl5'. rewrite Hl5, Hl5'.
  assert (H0 : (0 <? length (filesChanged c))%nat = true) by (apply Nat.ltb_lt; lia).
  assert (H0' : (0 <? length (filesChanged c'))%nat = true) by (apply Nat.ltb_lt; lia).
  now rewrite H0, H0'.
Qed.

Lemma X15_formatCommit_first_five_files_witness :
  formatCommit (mkCommit "a1a1a1a1" "a1a1a1a" "2024-01-15T10:00:00Z" "feat: parser"
                         "" "Ada" "ada@example.org"
                         ["a"; "b"; "c"; "d"; "e"; "f"] "6 files changed")
  = formatCommit (mkCommit "a1a1a1a1" "a1a1a1a" "2024-01-15T10:00:00Z" "feat: parser"
                           "" "Ada" "ada@example.org"
                           ["a"; "b"; "c"; "d"; "e"; "g"; "h"] "6 files changed").
Proof.
  apply X15_formatCommit_first_five_files; try reflexivity; cbn; lia.
Defined.

(** *** The local summary *)

(** The characters of [p] are no whitespace. *)

Lemma trimEnd_solid_head (c : ascii) (s : string) :
  isWhiteSpace c = false -> trimEnd (String c s) = String c (trimEnd s).
Proof. intros H. cbn [trimEnd]. rewrite H. now destruct (trimEnd s). Qed.

(** [trimEnd] keeps a prefix without whitespace. *)
Lemma trimEnd_solid_prefix (p s : string) :
  solid p = true -> String.prefix p s = true -> String.prefix p (trimEnd s) = true.
Proof.
  revert s. induction p as [|a p IH]; intros s Hp H; [apply prefix_nil|].
  destruct s as [|c s]; [discriminate|].
  cbn [solid] in Hp. apply andb_prop in Hp as [Ha Hp].
  rewrite prefix_cons in H. apply andb_prop in H as [Hac H].
  apply Ascii.eqb_eq in Hac. subst c.
  apply negb_true_iff in Ha. rewrite trimEnd_solid_head by exact Ha.
  rewrite prefix_cons, Ascii.eqb_refl. now apply IH.
Qed.

(** [trim] keeps a non-empty prefix without whitespace. *)
Lemma trim_solid_prefix (a : ascii) (p s : string) :
  solid (String a p) = true -> String.prefix (String a p) s = true ->
  String.prefix (String a p) (trim s) = true.
Proof.
  intros Hp H. unfold trim. apply trimEnd_solid_prefix; [exact Hp|].
  destruct s as [|c s]; [discriminate|].
  pose proof H as H'. rewrite prefix_cons in H'. apply andb_prop in H' as [Hac _].
  apply Ascii.eqb_eq in Hac. subst c.
  cbn [solid] in Hp. apply andb_prop in Hp as [Ha _]. apply negb_true_iff in Ha.
  cbn [trimStart]. now rewrite Ha.
Qed.

(** The first heading of the local summary. *)
Lemma localSummarize_starts (commits : list CommitInfo) :
  commits <> [] ->
  startsWith (localSummarize commits) "Features:" = true
  \/ startsWith (localSummarize commits) "Fixes:" = true
  \/ startsWith (localSummarize commits) "Other:" = true.
Proof.
  intros Hne. unfold localSummarize, startsWith.
  assert (Hlen : (length commits =? 0)%nat = false)
    by (destruct commits; [congruence | reflexivity]).
  rewrite Hlen. cbv zeta. rewrite categorized_spec.
  cbn [features fixes other].
  destruct (messagesOf FeaturesB commits) as [|m1 l1] eqn:E1;
    [destruct (messagesOf FixesB commits) as [|m2 l2] eqn:E2;
       [destruct (messagesOf OtherB commits) as [|m3 l3] eqn:E3|]|].
  - now destruct Hne; apply messagesOf_nil_all.
  - right; right. cbn [length Nat.ltb Nat.leb]. now apply trim_solid_prefix.
  - right; left. cbn [length Nat.ltb Nat.leb].
    apply trim_solid_prefix; [reflexivity|].
    destruct (messagesOf OtherB commits); cbn [length Nat.ltb Nat.leb];
      rewrite ?append_assoc; reflexivity.
  - left. cbn [length Nat.ltb Nat.leb].
    apply trim_solid_prefix; [reflexivity|].
    destruct (messagesOf FixesB commits); destruct (messagesOf OtherB commits);
      cbn [length Nat.ltb Nat.leb]; rewrite ?append_assoc; reflexivity.
Qed.

(** The local summary is never the empty string. *)
Lemma localSummarize_nonempty (commits : list CommitInfo) :
  localSummarize commits <> "".
Proof.
  destruct commits as [|c commits]; [discriminate|].
  destruct (localSummarize_starts (c :: commits)) as [Hs|[Hs|Hs]]; [discriminate| | |];
    intros E; rewrite E in Hs; discriminate.
Qed.

(** X16: for a non-empty commit list the local summary starts with one
    of the headings [Features:], [Fixes:] and [Other:]; in particular it is
    never the empty string, so the caller always has something to print. *)
Theorem X16_localSummarize_heading (commits : list CommitInfo) :
  commits <> [] ->
  startsWith (localSummarize commits) "Features:" = true
  \/ startsWith (localSummarize commits) "Fixes:" = true
  \/ startsWith (localSummarize commits) "Other:" = true.
Proof. apply localSummarize_starts. Qed.

Lemma X16_localSummarize_heading_witness :
  startsWith (localSummarize [sampleCommit "a1" "2024-01-15T10:00:00Z" "docs: readme"])
             "Features:" = true
  \/ startsWith (localSummarize [sampleCommit "a1" "2024-01-15T10:00:00Z" "docs: readme"])
                "Fixes:" = true
  \/ startsWith (localSummarize [sampleCommit "a1" "2024-01-15T10:00:00Z" "docs: readme"])
                "Other:" = true.
Proof. apply X16_localSummarize_heading. discriminate. Defined.

(* ===================================================================== *)
(** * More about the recap command *)
(* ===================================================================== *)

(** ** Computations that never end the process *)

Lemma stays_ret {A} (a : A) : stays (ret a).
Proof. intros w c. discriminate. Qed.

Lemma stays_throw {A} (e : string) : stays (@throw A e).
Proof. intros w c. discriminate. Qed.

Lemma stays_emit (e : Event) : stays (emit e).
Proof. intros w c. discriminate. Qed.

Lemma stays_ui (u : UiCall) : stays (ui u).
Proof. apply stays_emit. Qed.

Lemma stays_ask : stays ask.
Proof. intros w c. discriminate. Qed.

Lemma stays_liftR {A} (r : Result A) : stays (liftR r).
Proof. destruct r; [apply stays_ret | apply stays_throw]. Qed.

Lemma stays_bind {A B} (m : M A) (k : A -> M B) :
  stays m -> (forall a, stays (k a)) -> stays (bind m k).
Proof.
  intros Hm Hk w c. unfold bind. specialize (Hm w).
  destruct (m w) as [t [a|e|c']]; cbn [snd] in *.
  - specialize (Hk a w c). destruct (k a w) as [t2 o]. exact Hk.
  - discriminate.
  - now destruct (Hm c').
Qed.

Lemma stays_tryCatch {A} (m : M A) (h : string -> M A) :
  stays m -> (forall e, stays (h e)) -> stays (tryCatch m h).
Proof.
  intros Hm Hh w c. unfold tryCatch. specialize (Hm w).
  destruct (m w) as [t [a|e|c']]; cbn [snd] in *.
  - discriminate.
  - specialize (Hh e w c). destruct (h e w) as [t2 o]. exact Hh.
  - now destruct (Hm c').
Qed.

Lemma stays_forEachM {A B} (xs : list A) (acc : B) (body : B -> A -> M B) :
  (forall b x, stays (body b x)) -> stays (forEachM xs acc body).
Proof.
  intros Hb. revert acc. induction xs as [|x xs IH]; intros acc; cbn [forEachM].
  - apply stays_ret.
  - apply stays_bind; [apply Hb | intros a; apply IH].
Qed.

Lemma stays_git {A} (g : GitCall) (answer : World -> Result A) : stays (git g answer).
Proof.
  unfold git. apply stays_bind; [apply stays_emit|]. intros _.
  apply stays_bind; [apply stays_ask|]. intros w. apply stays_liftR.
Qed.

Lemma stays_if {A} (b : bool) (m1 m2 : M A) :
  stays m1 -> stays m2 -> stays (if b then m1 else m2).
Proof. now destruct b. Qed.

#[local] Ltac stays_step :=
  first
    [ apply stays_ret | apply stays_throw | apply stays_ui | apply stays_emit
    | apply stays_ask | apply stays_liftR | apply stays_git
    | apply stays_forEachM; intros
    | apply stays_tryCatch; [|intros]
    | apply stays_bind; [|intros]
    | apply stays_if ].

Lemma stays_getGit : stays getGit.
Proof. unfold getGit. repeat stays_step. Qed.

Lemma stays_getCommitDiff (hash : string) : stays (getCommitDiff hash).
Proof. unfold getCommitDiff. repeat stays_step. Qed.

Lemma stays_getCommitsRange (from to : string) : stays (getCommitsRange from to).
Proof.
  unfold getCommitsRange, parseLogResult.
  apply stays_bind; [apply stays_getGit | intros _].
  apply stays_bind; [apply stays_git | intros log].
  apply stays_forEachM. intros commits entry.
  apply stays_bind; [apply stays_getCommitDiff | intros [d f]]. apply stays_ret.
Qed.

Lemma stays_getRepoName : stays getRepoName.
Proof.
  unfold getRepoName.
  apply stays_bind; [apply stays_getGit | intros _].
  apply stays_bind.
  - apply stays_tryCatch; [|intros; apply stays_ret].
    apply stays_bind; [apply stays_git | intros [url|]]; [|apply stays_ret].
    apply stays_if; apply stays_ret.
  - intros [name|]; repeat stays_step.
Qed.

Lemma stays_askCopilot (prompt : string) : stays (askCopilot prompt).
Proof.
  unfold askCopilot, execFileAsync.
  apply stays_bind; [repeat stays_step | intros r].
  destruct r; apply stays_ret.
Qed.

Lemma stays_generateRangeSummary (commits : list CommitInfo) (repoName from to : string) :
  stays (generateRangeSummary commits repoName from to).
Proof.
  unfold generateRangeSummary. apply stays_if; [apply stays_ret|].
  apply stays_askCopilot.
Qed.

(** ** Views of the events of a run *)

Section Views.
Context {X : Type} (f : Event -> list X).

Lemma mute_ret {A} (a : A) : mute f (ret a).
Proof. intros w. reflexivity. Qed.

Lemma mute_throw {A} (e : string) : mute f (@throw A e).
Proof. intros w. reflexivity. Qed.

Lemma mute_exit {A} (c : Z) : mute f (@process_exit A c).
Proof. intros w. reflexivity. Qed.

Lemma mute_ask : mute f ask.
Proof. intros w. reflexivity. Qed.

Lemma mute_emit (e : Event) : f e = [] -> mute f (emit e).
Proof. intros He w. cbn. now rewrite He. Qed.

Lemma mute_ui (u : UiCall) : f (EvUi u) = [] -> mute f (ui u).
Proof. apply mute_emit. Qed.

Lemma mute_liftR {A} (r : Result A) : mute f (liftR r).
Proof. destruct r; [apply mute_ret | apply mute_throw]. Qed.

(** The view of a sequence: that of its first part, then that of what
    follows when the first part yields a value. *)
Lemma view_bind {A B} (m : M A) (k : A -> M B) (w : World) :
  flat_map f (fst (bind m k w))
  = (flat_map f (fst (m w))
     ++ match snd (m w) with
        | Value a => flat_map f (fst (k a w))
        | _ => []
        end)%list.
Proof.
  unfold bind. destruct (m w) as [t [a|e|c]]; cbn [fst snd];
    [|now rewrite app_nil_r..].
  destruct (k a w) as [t2 o]. cbn [fst]. apply flat_map_app.
Qed.

Lemma view_tryCatch {A} (m : M A) (h : string -> M A) (w : World) :
  flat_map f (fst (tryCatch m h w))
  = (flat_map f (fst (m w))
     ++ match snd (m w) with
        | Thrown e => flat_map f (fst (h e w))
        | _ => []
        end)%list.
Proof.
  unfold tryCatch. destruct (m w) as [t [a|e|c]]; cbn [fst snd];
    [now rewrite app_nil_r| |now rewrite app_nil_r].
  destruct (h e w) as [t2 o]. cbn [fst]. apply flat_map_app.
Qed.

Lemma mute_bind {A B} (m : M A) (k : A -> M B) :
  mute f m -> (forall a, mute f (k a)) -> mute f (bind m k).
Proof.
  intros Hm Hk w. rewrite view_bind, (Hm w).
  destruct (snd (m w)); [apply Hk | reflexivity..].
Qed.

Lemma mute_tryCatch {A} (m : M A) (h : string -> M A) :
  mute f m -> (forall e, mute f (h e)) -> mute f (tryCatch m h).
Proof.
  intros Hm Hh w. rewrite view_tryCatch, (Hm w).
  destruct (snd (m w)); [reflexivity | apply Hh | reflexivity].
Qed.

Lemma mute_forEachM {A B} (xs : list A) (acc : B) (body : B -> A -> M B) :
  (forall b x, mute f (body b x)) -> mute f (forEachM xs acc body).
Proof.
  intros Hb. revert acc. induction xs as [|x xs IH]; intros acc; cbn [forEachM].
  - apply mute_ret.
  - apply mute_bind; [apply Hb | intros a; apply IH].
Qed.

Lemma mute_git {A} (g : GitCall) (answer : World -> Result A) :
  f (EvGit g) = [] -> mute f (git g answer).
Proof.
  intros Hg. unfold git. apply mute_bind; [now apply mute_emit|]. intros _.
  apply mute_bind; [apply mute_ask|]. intros w. apply mute_liftR.
Qed.

Lemma mute_if {A} (b : bool) (m1 m2 : M A) :
  mute f m1 -> mute f m2 -> mute f (if b then m1 else m2).
Proof. now destruct b. Qed.

(** The readers of git.ts show nothing under a view without git calls. *)
Hypothesis no_git : forall g, f (EvGit g) = [].

Lemma mute_getGit : mute f getGit.
Proof.
  unfold getGit. apply mute_bind; [apply mute_git, no_git | intros isRepo].
  apply mute_if; [apply mute_throw | apply mute_ret].
Qed.

Lemma mute_getCommitDiff (hash : string) : mute f (getCommitDiff hash).
Proof.
  unfold getCommitDiff. apply mute_tryCatch; [|intros; apply mute_ret].
  apply mute_bind; [apply mute_git, no_git | intros d].
  apply mute_bind; [apply mute_git, no_git | intros d'].
  apply mute_ret.
Qed.

Lemma mute_getCommitsRange (from to : string) : mute f (getCommitsRange from to).
Proof.
  unfold getCommitsRange, parseLogResult.
  apply mute_bind; [apply mute_getGit | intros _].
  apply mute_bind; [apply mute_git, no_git | intros log].
  apply mute_forEachM. intros commits entry.
  apply mute_bind; [apply mute_getCommitDiff | intros [d fs]]. apply mute_ret.
Qed.

Lemma mute_getRepoName : mute f getRepoName.
Proof.
  unfold getRepoName.
  apply mute_bind; [apply mute_getGit | intros _].
  apply mute_bind.
  - apply mute_tryCatch; [|intros; apply mute_ret].
    apply mute_bind; [apply mute_git, no_git | intros [url|]]; [|apply mute_ret].
    apply mute_if; apply mute_ret.
  - intros [name|]; [apply mute_ret|].
    apply mute_bind; [apply mute_git, no_git | intros root]. apply mute_ret.
Qed.

End Views.

Lemma getCommitsRange_run (from to : string) (log : list LogEntry) (w : World) :
  git_checkIsRepo w = Ok true ->
  git_log w (LogRange from to) = Ok log ->
  getCommitsRange from to w
  = (EvGit GitCheckIsRepo :: EvGit (GitLog (LogRange from to)) :: diffEvents w log,
     Value (map (commitOf w) log)).
Proof.
  intros Hrepo Hlog. unfold getCommitsRange.
  rewrite (bind_value getGit _ w [EvGit GitCheckIsRepo] tt)
    by (rewrite getGit_run, Hrepo; reflexivity).
  rewrite (bind_value _ _ w [EvGit (GitLog (LogRange from to))] log)
    by (unfold git, bind, emit, ask, liftR; rewrite Hlog; reflexivity).
  now rewrite parseLogResult_run.
Qed.

(** ** The calls of [gh] of a run *)

(** At most one call, and that one a prompt. *)

Lemma askCopilot_calls (prompt : string) (w : World) :
  flat_map execCall (fst (askCopilot prompt w)) = [promptCall prompt].
Proof. now rewrite askCopilot_run. Qed.

Lemma generateRangeSummary_calls (commits : list CommitInfo)
  (repoName from to : string) (w : World) :
  promptAtMost (flat_map execCall (fst (generateRangeSummary commits repoName from to w))).
Proof.
  unfold generateRangeSummary. destruct (length commits =? 0)%nat; [now left|].
  right. eexists. apply askCopilot_calls.
Qed.

(** The generators always yield a text. *)
Lemma generateRangeSummary_value (commits : list CommitInfo)
  (repoName from to : string) (w : World) :
  exists s, snd (generateRangeSummary commits repoName from to w) = Value s.
Proof.
  unfold generateRangeSummary. destruct (length commits =? 0)%nat; [now exists ""|].
  rewrite askCopilot_run. eexists. reflexivity.
Qed.

(** ** Views that see neither git calls nor calls of [gh] *)

Section QuietViews.
Context {X : Type} (f : Event -> list X).
Hypothesis no_exec : forall file args timeout, f (EvExec file args timeout) = [].

Lemma mute_askCopilot (prompt : string) : mute f (askCopilot prompt).
Proof. intros w. rewrite askCopilot_run. cbn. now rewrite no_exec. Qed.

Lemma mute_generateRangeSummary (commits : list CommitInfo) (repoName from to : string) :
  mute f (generateRangeSummary commits repoName from to).
Proof.
  unfold generateRangeSummary. apply mute_if; [apply mute_ret | apply mute_askCopilot].
Qed.

End QuietViews.

Section RecapMore.
Context `{DateFns} `{ExportFns}.

Lemma stays_recapSummary (options : Options) (config : Config) (available : bool)
  (commits : list CommitInfo) (repoName from to : string) :
  stays (recapSummary options config available commits repoName from to).
Proof.
  unfold recapSummary. apply stays_if; [|apply stays_if; repeat stays_step].
  apply stays_bind; [apply stays_ui | intros _].
  apply stays_bind; [apply stays_generateRangeSummary | intros s].
  apply stays_bind; [apply stays_ui | intros _].
  apply stays_if; repeat stays_step.
Qed.

Lemma stays_recapBody (options : Options) (config : Config) (available : bool)
  (from to : string) :
  stays (recapBody options config available from to).
Proof.
  unfold recapBody.
  apply stays_bind; [apply stays_getCommitsRange | intros commits].
  apply stays_bind; [apply stays_getRepoName | intros repoName].
  apply stays_bind; [apply stays_ui | intros _].
  apply stays_bind; [apply stays_ui | intros _].
  apply stays_if; [repeat stays_step|].
  apply stays_bind; [apply stays_ui | intros _].
  apply stays_bind; [apply stays_liftR | intros groups].
  apply stays_bind; [apply stays_ui | intros _].
  apply stays_bind; [apply stays_recapSummary | intros aiSummary].
  apply stays_bind.
  - destruct (opt_output options) as [file|]; [|apply stays_ret].
    apply stays_if; repeat stays_step.
  - intros _. repeat stays_step.
Qed.

(** X17: the [recap] action never lets an exception escape and never
    ends with another status than 1: in every world and for every range
    and flags a run either finishes normally or ends the process with
    status 1, and then the last thing it does is print an error message. *)
Theorem X17_recap_ends (range : string) (options : Options) (w : World) :
  snd (recap range options w) = Value tt
  \/ (snd (recap range options w) = Exited 1
      /\ exists before msg,
           fst (recap range options w) = (before ++ [EvUi (printError msg)])%list).
Proof.
  rewrite recap_run. cbv zeta.
  destruct (negb (length (split range "..") =? 2)%nat).
  - right. split; [reflexivity|]. now exists (recapPrelude w), usageError.
  - set (from := nth 0 (split range "..") ""). set (to := nth 1 (split range "..") "").
    pose proof (stays_recapBody options (loadConfigFrom w (searchPaths None w))
                  (probeAnswer w) from to w) as Hstay.
    unfold tryCatch.
    destruct (recapBody options _ _ from to w) as [t [[]|e|c]]; cbn [snd] in *.
    + now left.
    + right. cbn. split; [reflexivity|].
      exists (recapPrelude w
                ++ EvUi (spinnerStart ("Reading commits " ++ from ++ ".." ++ to ++ "..."))
                :: t ++ [EvUi spinnerStop])%list, e.
      rewrite <- !List.app_assoc. cbn. now rewrite <- List.app_assoc.
    + now destruct (Hstay c).
Qed.

(** X18: outside a git work tree a [recap] with a well-formed range
    ends with status 1; apart from its git calls it shows the banner,
    probes Copilot, shows the Copilot status, announces the range, stops
    the spinner and prints the not-a-repository error, and nothing else:
    no header, no file, no JSON. *)
Theorem X18_recap_outside_repository (range from to : string) (options : Options)
  (w : World) :
  split range ".." = [from; to] ->
  git_checkIsRepo w = Ok false ->
  snd (recap range options w) = Exited 1
  /\ visible (fst (recap range options w))
     = (recapPrelude w
        ++ [readingCommits from to; EvUi spinnerStop;
            EvUi (printError notARepository)])%list.
Proof.
  intros Hsplit Hrepo. rewrite recap_run, Hsplit. cbn [length Nat.eqb negb nth].
  unfold tryCatch, recapBody.
  rewrite (bind_thrown _ _ w [EvGit GitCheckIsRepo] notARepository)
    by (unfold getCommitsRange; apply bind_thrown; now apply getGit_outside).
  cbn -[visible recapPrelude app]. split; [reflexivity|].
  unfold visible. rewrite flat_map_app. reflexivity.
Qed.

(** The body of the action on a range without commits. *)
Lemma recapBody_empty (options : Options) (config : Config) (available : bool)
  (from to repoName : string) (w : World) :
  git_checkIsRepo w = Ok true ->
  git_log w (LogRange from to) = Ok [] ->
  returns (getRepoName w) repoName ->
  recapBody options config available from to w
  = ((EvGit GitCheckIsRepo :: EvGit (GitLog (LogRange from to))
        :: fst (getRepoName w)
        ++ [EvUi spinnerStop; recapHeader repoName from to;
            EvUi (printWarning "No commits found in this range.");
            EvUi printFooter])%list,
     Value tt).
Proof.
  intros Hrepo Hlog Hname. unfold recapBody.
  rewrite (bind_value _ _ w _ _ (getCommitsRange_run from to [] w Hrepo Hlog)).
  unfold returns in Hname.
  rewrite (bind_value getRepoName _ w (fst (getRepoName w)) repoName)
    by (destruct (getRepoName w); cbn [fst snd] in *; now subst).
  reflexivity.
Qed.

(** X19: on a range without commits [recap] finishes normally after the
    header, the warning [No commits found in this range.] and the footer;
    whatever the flags, it asks Copilot for no summary, writes no file and
    prints no JSON. *)
Theorem X19_recap_empty_range (range from to repoName : string) (options : Options)
  (w : World) :
  split range ".." = [from; to] ->
  git_checkIsRepo w = Ok true ->
  git_log w (LogRange from to) = Ok [] ->
  returns (getRepoName w) repoName ->
  snd (recap range options w) = Value tt
  /\ visible (fst (recap range options w))
     = (recapPrelude w
        ++ [readingCommits from to; EvUi spinnerStop; recapHeader repoName from to;
            EvUi (printWarning "No commits found in this range.");
            EvUi printFooter])%list.
Proof.
  intros Hsplit Hrepo Hlog Hname.
  rewrite recap_run, Hsplit. cbn [length Nat.eqb negb nth].
  unfold tryCatch. rewrite (recapBody_empty _ _ _ from to repoName w Hrepo Hlog Hname).
  cbn [fst snd]. split; [reflexivity|].
  unfold visible. rewrite flat_map_app. cbn [diffEvents flat_map app visibleEvent].
  rewrite flat_map_app, (mute_getRepoName visibleEvent (fun g => eq_refl) w).
  reflexivity.
Qed.

(** The summary step calls [gh] at most once, with a prompt, and not at
    all when Copilot is off. *)
Lemma recapSummary_calls (options : Options) (config : Config) (available : bool)
  (commits : list CommitInfo) (repoName from to : string) (w : World) :
  promptAtMost (flat_map execCall
                  (fst (recapSummary options config available commits repoName
                                     from to w)))
  /\ (opt_ai options && available && truthy (prop config "useCopilot") = false ->
      flat_map execCall
        (fst (recapSummary options config available commits repoName from to w)) = []).
Proof.
  unfold recapSummary.
  destruct (opt_ai options && available && truthy (prop config "useCopilot")).
  - split; [|discriminate].
    rewrite view_bind. cbn [ui emit fst snd flat_map execCall app].
    rewrite view_bind.
    destruct (generateRangeSummary_value commits repoName from to w) as [s Hs].
    rewrite Hs.
    assert (Hrest : flat_map execCall
              (fst ((ui spinnerStop ;;
                     if negb (String.eqb s "")
                     then ui (printSummary "AI Recap" s) ;; ret s
                     else
                       (if negb (String.eqb (localSummarize commits) "")
                        then ui (printSummary "Recap" (localSummarize commits))
                        else ret tt) ;; ret (localSummarize commits)) w)) = []).
    { destruct (negb (String.eqb s "")); [reflexivity|].
      destruct (negb (String.eqb (localSummarize commits) "")); reflexivity. }
    rewrite Hrest, app_nil_r. apply generateRangeSummary_calls.
  - split; [|intros _]; destruct (opt_ai options); try reflexivity; now left.
Qed.

(** The body of the action calls [gh] nowhere but in its summary step. *)
Lemma recapBody_calls (options : Options) (config : Config) (available : bool)
  (from to : string) (w : World) :
  promptAtMost (flat_map execCall (fst (recapBody options config available from to w)))
  /\ (opt_ai options && available && truthy (prop config "useCopilot") = false ->
      flat_map execCall (fst (recapBody options config available from to w)) = []).
Proof.
  unfold recapBody.
  rewrite view_bind, (mute_getCommitsRange execCall (fun g => eq_refl)), app_nil_l.
  destruct (snd (getCommitsRange from to w)) as [commits| |];
    [|split; [now left | reflexivity]..].
  rewrite view_bind, (mute_getRepoName execCall (fun g => eq_refl)), app_nil_l.
  destruct (snd (getRepoName w)) as [repoName| |];
    [|split; [now left | reflexivity]..].
  rewrite view_bind. cbn [ui emit fst snd flat_map execCall app].
  rewrite view_bind. cbn [ui emit fst snd flat_map execCall app].
  destruct (length commits =? 0)%nat; [split; [now left | reflexivity]|].
  rewrite view_bind. cbn [ui emit fst snd flat_map execCall app].
  rewrite view_bind, (mute_liftR execCall), app_nil_l.
  destruct (snd (liftR (groupCommitsByDate commits) w)) as [groups| |];
    [|split; [now left | reflexivity]..].
  rewrite view_bind. cbn [ui emit fst snd flat_map execCall app].
  rewrite view_bind.
  assert (Hrest : forall aiSummary,
    flat_map execCall
      (fst ((match opt_output options with
             | Some file =>
                 if String.eqb file "" then ret tt
                 else
                   let content :=
                     exportDailyMarkdown repoName (from ++ ".." ++ to) commits
                                         (orElse aiSummary "") in
                   emit (EvWriteFile file content) ;;
                   w <- ask ;;
                   liftR (fs_writeFileSync w file content) ;;
                   ui (printInfo ("Exported to " ++ file))
             | None => ret tt
             end ;;
             (if opt_json options
              then emit (EvConsoleLog
                           (exportJSON (mkEnvelope repoName from to (length commits)
                                                   commits aiSummary)))
              else ret tt) ;;
             ui printFooter) w)) = []).
  { intros aiSummary. apply mute_bind.
    - destruct (opt_output options) as [file|]; [|apply mute_ret].
      apply mute_if; [apply mute_ret|]. cbv zeta.
      apply mute_bind; [now apply mute_emit | intros _].
      apply mute_bind; [apply mute_ask | intros w'].
      apply mute_bind; [apply mute_liftR | intros _]. now apply mute_ui.
    - intros _. apply mute_bind; [|intros _; now apply mute_ui].
      apply mute_if; [now apply mute_emit | apply mute_ret]. }
  destruct (recapSummary_calls options config available commits repoName from to w)
    as [Hone Hnone].
  destruct (snd (recapSummary options config available commits repoName from to w))
    as [aiSummary| |]; rewrite ?Hrest, ?app_nil_r; split; assumption.
Qed.

(** X20: a run of [recap] calls the [gh] tool at most twice: once for
    the availability probe and at most once more, with the prompt for
    [gh copilot]; with [--no-ai], with a failed probe or with
    [useCopilot] switched off in the configuration the probe is its only
    call of [gh]. The git processes simple-git starts are not counted
    here: they are the git calls of the run. *)
Theorem X20_recap_gh_calls (range : string) (options : Options) (w : World) :
  (execCalls (fst (recap range options w)) = [probeCall]
   \/ exists prompt,
        execCalls (fst (recap range options w)) = [probeCall; promptCall prompt])
  /\ (opt_ai options = false
      \/ probeAnswer w = false
      \/ truthy (prop (loadConfigFrom w (searchPaths None w)) "useCopilot") = false ->
      execCalls (fst (recap range options w)) = [probeCall]).
Proof.
  change execCalls with (flat_map execCall).
  rewrite recap_run. cbv zeta.
  destruct (negb (length (split range "..") =? 2)%nat).
  { cbn [fst]. rewrite flat_map_app. split; [now left | reflexivity]. }
  set (from := nth 0 (split range "..") ""). set (to := nth 1 (split range "..") "").
  set (config := loadConfigFrom w (searchPaths None w)).
  destruct (tryCatch _ _ w) as [t o] eqn:Htry. cbn [fst].
  rewrite flat_map_app. cbn [recapPrelude flat_map execCall app].
  assert (Ht : flat_map execCall t
               = flat_map execCall
                   (fst (recapBody options config (probeAnswer w) from to w))).
  { replace t with (fst (tryCatch (recapBody options config (probeAnswer w) from to)
                                  recapCatch w)) by now rewrite Htry.
    rewrite view_tryCatch.
    destruct (snd (recapBody options config (probeAnswer w) from to w));
      now rewrite app_nil_r. }
  rewrite Ht.
  destruct (recapBody_calls options config (probeAnswer w) from to w) as [Hone Hnone].
  split.
  - destruct Hone as [->|[prompt ->]]; [now left | right; now exists prompt].
  - intros Hoff. rewrite Hnone; [reflexivity|].
    destruct Hoff as [-> | [-> | ->]]; [reflexivity | now rewrite andb_false_r..].
Qed.

(** ** The summary of a recap *)

Lemma recapExport_no_summary (options : Options) (commits : list CommitInfo)
  (repoName from to aiSummary : string) :
  mute summaryShown (recapExport options commits repoName from to aiSummary).
Proof.
  unfold recapExport. apply mute_bind.
  - destruct (opt_output options) as [file|]; [|apply mute_ret].
    apply mute_if; [apply mute_ret|]. cbv zeta.
    apply mute_bind; [now apply mute_emit | intros _].
    apply mute_bind; [apply mute_ask | intros w'].
    apply mute_bind; [apply mute_liftR | intros _]. now apply mute_ui.
  - intros _. apply mute_bind; [|intros _; now apply mute_ui].
    apply mute_if; [now apply mute_emit | apply mute_ret].
Qed.

(** The body of the action on a range with commits. *)
Lemma recapBody_run (options : Options) (config : Config) (available : bool)
  (from to repoName : string) (commits : list CommitInfo) (w : World) :
  returns (getCommitsRange from to w) commits ->
  commits <> [] ->
  returns (getRepoName w) repoName ->
  Forall validDate commits ->
  exists groups,
    groupCommitsByDate commits = Ok groups
    /\ recapBody options config available from to w
       = let r := (aiSummary <- recapSummary options config available commits
                                             repoName from to ;;
                   recapExport options commits repoName from to aiSummary) w in
         ((fst (getCommitsRange from to w) ++ fst (getRepoName w)
           ++ recapOpening repoName from to commits groups ++ fst r)%list,
          snd r).
Proof.
  intros Hcommits Hne Hname Hdates.
  destruct (groupCommitsByDate_run commits Hdates) as (m & _ & Hgroups).
  eexists. split; [exact Hgroups|].
  unfold recapBody, returns in *.
  rewrite (bind_value _ _ w (fst (getCommitsRange from to w)) commits)
    by (destruct (getCommitsRange from to w); cbn [fst snd] in *; now subst).
  rewrite (bind_value getRepoName _ w (fst (getRepoName w)) repoName)
    by (destruct (getRepoName w); cbn [fst snd] in *; now subst).
  assert (Hlen : (length commits =? 0)%nat = false)
    by (destruct commits; [congruence | reflexivity]).
  rewrite Hlen, Hgroups. cbv zeta.
  fold (recapExport options commits repoName from to).
  unfold recapOpening, recapHeader.
  set (rest := bind (recapSummary _ _ _ _ _ _ _) _). clearbody rest.
  unfold bind, ui, emit, liftR, ret. cbn [fst snd app].
  destruct (rest w) as [t o]. reflexivity.
Qed.

(** On a range with commits the summaries a run shows are those of its
    summary step. *)
Lemma recap_summaries (range from to repoName : string) (commits : list CommitInfo)
  (options : Options) (w : World) :
  split range ".." = [from; to] ->
  returns (getCommitsRange from to w) commits ->
  commits <> [] ->
  returns (getRepoName w) repoName ->
  Forall validDate commits ->
  summaries (fst (recap range options w))
  = summaries (fst (recapSummary options (loadConfigFrom w (searchPaths None w))
                                 (probeAnswer w) commits repoName from to w)).
Proof.
  intros Hsplit Hcommits Hne Hname Hdates. unfold summaries.
  rewrite recap_run, Hsplit. cbn [length Nat.eqb negb nth].
  set (config := loadConfigFrom w (searchPaths None w)).
  destruct (tryCatch _ _ w) as [t o] eqn:Htry. cbn [fst].
  rewrite flat_map_app. cbn [recapPrelude flat_map summaryShown app].
  replace t with (fst (tryCatch (recapBody options config (probeAnswer w) from to)
                                recapCatch w)) by now rewrite Htry.
  rewrite view_tryCatch.
  replace (match snd (recapBody options config (probeAnswer w) from to w) with
           | Thrown e => flat_map summaryShown (fst (recapCatch e w))
           | _ => []
           end) with (@nil (string * string))
    by (now destruct (snd (recapBody options config (probeAnswer w) from to w))).
  rewrite app_nil_r.
  destruct (recapBody_run options config (probeAnswer w) from to repoName commits w
              Hcommits Hne Hname Hdates) as (groups & _ & ->).
  cbv zeta. cbn [fst].
  rewrite !flat_map_app.
  rewrite (mute_getCommitsRange summaryShown (fun g => eq_refl)).
  rewrite (mute_getRepoName summaryShown (fun g => eq_refl)).
  cbn [recapOpening recapHeader flat_map summaryShown app].
  rewrite view_bind.
  replace (match snd (recapSummary options config (probeAnswer w) commits repoName
                                   from to w) with
           | Value a => flat_map summaryShown
                          (fst (recapExport options commits repoName from to a w))
           | _ => []
           end) with (@nil (string * string)).
  - now rewrite app_nil_r.
  - destruct (snd (recapSummary _ _ _ _ _ _ _ w)); [|reflexivity..].
    now rewrite recapExport_no_summary.
Qed.

(** The summary step when Copilot is not used or gave nothing. *)
Lemma recapSummary_local (options : Options) (config : Config) (available : bool)
  (commits : list CommitInfo) (repoName from to : string) (w : World) :
  opt_ai options = true ->
  available = false \/ truthy (prop config "useCopilot") = false
  \/ returns (generateRangeSummary commits repoName from to w) "" ->
  summaries (fst (recapSummary options config available commits repoName from to w))
  = [("Recap", localSummarize commits)].
Proof.
  intros Hai Hoff. unfold recapSummary, summaries. rewrite Hai. cbn [andb].
  destruct (available && truthy (prop config "useCopilot")) eqn:Hon; [|reflexivity].
  destruct Hoff as [-> | [Hoff | Hempty]]; [discriminate| |].
  - rewrite Hoff, andb_false_r in Hon. discriminate.
  - rewrite view_bind. cbn [ui emit fst snd flat_map summaryShown app].
    rewrite view_bind.
    rewrite (mute_generateRangeSummary summaryShown (fun _ _ _ => eq_refl)).
    unfold returns in Hempty. rewrite Hempty. cbn [app String.eqb negb].
    destruct (String.eqb (localSummarize commits) "") eqn:E; [|reflexivity].
    apply String.eqb_eq in E. now destruct (localSummarize_nonempty commits).
Qed.

(** The summary step when Copilot gave an answer. *)
Lemma recapSummary_copilot (options : Options) (config : Config)
  (commits : list CommitInfo) (repoName from to s : string) (w : World) :
  opt_ai options = true ->
  truthy (prop config "useCopilot") = true ->
  returns (generateRangeSummary commits repoName from to w) s ->
  s <> "" ->
  summaries (fst (recapSummary options config true commits repoName from to w))
  = [("AI Recap", s)].
Proof.
  intros Hai Hon Hs Hne. unfold recapSummary, summaries. rewrite Hai, Hon. cbn [andb].
  rewrite view_bind. cbn [ui emit fst snd flat_map summaryShown app].
  rewrite view_bind.
  rewrite (mute_generateRangeSummary summaryShown (fun _ _ _ => eq_refl)).
  unfold returns in Hs. rewrite Hs. cbn [app].
  apply String.eqb_neq in Hne. rewrite Hne. reflexivity.
Qed.

(** X21: on a range with commits whose dates are readable, when
    summaries are wanted but Copilot is unavailable, switched off in the
    configuration or came back with an empty answer, a run of [recap]
    shows exactly one summary: the local one of these commits, under the
    title [Recap]. *)
Theorem X21_recap_local_summary (range from to repoName : string)
  (commits : list CommitInfo) (options : Options) (w : World) :
  split range ".." = [from; to] ->
  returns (getCommitsRange from to w) commits ->
  commits <> [] ->
  returns (getRepoName w) repoName ->
  Forall validDate commits ->
  opt_ai options = true ->
  probeAnswer w = false
  \/ truthy (prop (loadConfigFrom w (searchPaths None w)) "useCopilot") = false
  \/ returns (generateRangeSummary commits repoName from to w) "" ->
  summaries (fst (recap range options w)) = [("Recap", localSummarize commits)].
Proof.
  intros Hsplit Hcommits Hne Hname Hdates Hai Hoff.
  rewrite (recap_summaries range from to repoName commits options w
             Hsplit Hcommits Hne Hname Hdates).
  now apply recapSummary_local.
Qed.

(** X22: on a range with commits whose dates are readable, when
    Copilot is available and enabled and answers with a non-empty text, a
    run of [recap] shows exactly one summary: that answer, under the title
    [AI Recap]; the local summary is not shown. *)
Theorem X22_recap_copilot_summary (range from to repoName s : string)
  (commits : list CommitInfo) (options : Options) (w : World) :
  split range ".." = [from; to] ->
  returns (getCommitsRange from to w) commits ->
  commits <> [] ->
  returns (getRepoName w) repoName ->
  Forall validDate commits ->
  opt_ai options = true ->
  probeAnswer w = true ->
  truthy (prop (loadConfigFrom w (searchPaths None w)) "useCopilot") = true ->
  returns (generateRangeSummary commits repoName from to w) s ->
  s <> "" ->
  summaries (fst (recap range options w)) = [("AI Recap", s)].
Proof.
  intros Hsplit Hcommits Hne Hname Hdates Hai Hprobe Hon Hs Hs0.
  rewrite (recap_summaries range from to repoName commits options w
             Hsplit Hcommits Hne Hname Hdates).
  rewrite Hprobe. now apply recapSummary_copilot.
Qed.

(** ** What a run writes *)

Lemma recapSummary_no_write (options : Options) (config : Config) (available : bool)
  (commits : list CommitInfo) (repoName from to : string) :
  mute fileWritten (recapSummary options config available commits repoName from to).
Proof.
  unfold recapSummary. apply mute_if; [|apply mute_if].
  - apply mute_bind; [now apply mute_ui | intros _].
    apply mute_bind; [now apply mute_generateRangeSummary | intros s].
    apply mute_bind; [now apply mute_ui | intros _].
    apply mute_if.
    + apply mute_bind; [now apply mute_ui | intros _; apply mute_ret].
    + apply mute_bind; [|intros _; apply mute_ret].
      apply mute_if; [now apply mute_ui | apply mute_ret].
  - apply mute_bind; [now apply mute_ui | intros _; apply mute_ret].
  - apply mute_ret.
Qed.

Lemma recapSummary_off (options : Options) (config : Config) (available : bool)
  (commits : list CommitInfo) (repoName from to : string) :
  opt_ai options = false ->
  mute summaryShown (recapSummary options config available commits repoName from to).
Proof. intros Hai. unfold recapSummary. rewrite Hai. apply mute_ret. Qed.

(** The export step writes the file named by [-o] and no other. *)
Lemma recapExport_writes (options : Options) (commits : list CommitInfo)
  (repoName from to aiSummary : string) (w : World) :
  fileWrites (fst (recapExport options commits repoName from to aiSummary w))
  = match opt_output options with
    | Some file =>
        if String.eqb file "" then []
        else [(file, exportDailyMarkdown repoName (from ++ ".." ++ to) commits
                                         (orElse aiSummary ""))]
    | None => []
    end.
Proof.
  unfold recapExport, fileWrites. rewrite view_bind.
  assert (Hrest : flat_map fileWritten
            (fst (((if opt_json options
                    then emit (EvConsoleLog
                                 (exportJSON (mkEnvelope repoName from to (length commits)
                                                         commits aiSummary)))
                    else ret tt) ;; ui printFooter) w)) = []).
  { apply mute_bind; [|intros _; now apply mute_ui].
    apply mute_if; [now apply mute_emit | apply mute_ret]. }
  replace (match snd _ with Value _ => _ | _ => [] end)
    with (@nil (string * string))
    by (destruct (snd _); [now rewrite Hrest | reflexivity..]).
  rewrite app_nil_r.
  destruct (opt_output options) as [file|]; [|reflexivity].
  destruct (String.eqb file ""); [reflexivity|]. cbv zeta.
  rewrite view_bind. cbn [emit fst snd flat_map fileWritten app].
  rewrite view_bind. cbn [ask fst snd flat_map app].
  rewrite view_bind, (mute_liftR fileWritten), app_nil_l.
  now destruct (snd (liftR _ w)).
Qed.

(** X23: a run of [recap] writes at most one file, and only the file
    named by [-o]; without that flag it writes none. *)
Theorem X23_recap_writes_one_file (range : string) (options : Options) (w : World) :
  fileWrites (fst (recap range options w)) = []
  \/ exists file content,
       opt_output options = Some file
       /\ fileWrites (fst (recap range options w)) = [(file, content)].
Proof.
  unfold fileWrites.
  remember (flat_map fileWritten (fst (recap range options w))) as l eqn:Hl.
  rewrite recap_run in Hl. cbv zeta in Hl.
  destruct (negb (length (split range "..") =? 2)%nat).
  { left. cbn [fst] in Hl. now rewrite flat_map_app in Hl. }
  set (from := nth 0 (split range "..") "") in Hl.
  set (to := nth 1 (split range "..") "") in Hl.
  set (config := loadConfigFrom w (searchPaths None w)) in Hl.
  destruct (tryCatch _ _ w) as [t o] eqn:Htry. cbn [fst] in Hl.
  rewrite flat_map_app in Hl. cbn [recapPrelude flat_map fileWritten app] in Hl.
  replace t with (fst (tryCatch (recapBody options config (probeAnswer w) from to)
                                recapCatch w)) in Hl by now rewrite Htry.
  rewrite view_tryCatch in Hl.
  replace (match snd (recapBody options config (probeAnswer w) from to w) with
           | Thrown e => flat_map fileWritten (fst (recapCatch e w))
           | _ => []
           end) with (@nil (string * string)) in Hl
    by (now destruct (snd (recapBody options config (probeAnswer w) from to w))).
  rewrite app_nil_r in Hl. unfold recapBody in Hl.
  rewrite view_bind, (mute_getCommitsRange fileWritten (fun g => eq_refl)), app_nil_l
    in Hl.
  destruct (snd (getCommitsRange from to w)) as [commits| |]; [|now left..].
  rewrite view_bind, (mute_getRepoName fileWritten (fun g => eq_refl)), app_nil_l
    in Hl.
  destruct (snd (getRepoName w)) as [repoName| |]; [|now left..].
  rewrite view_bind in Hl. cbn [ui emit fst snd flat_map fileWritten app] in Hl.
  rewrite view_bind in Hl. cbn [ui emit fst snd flat_map fileWritten app] in Hl.
  destruct (length commits =? 0)%nat; [now left|].
  rewrite view_bind in Hl. cbn [ui emit fst snd flat_map fileWritten app] in Hl.
  rewrite view_bind, (mute_liftR fileWritten), app_nil_l in Hl.
  destruct (snd (liftR (groupCommitsByDate commits) w)) as [groups| |]; [|now left..].
  rewrite view_bind in Hl. cbn [ui emit fst snd flat_map fileWritten app] in Hl.
  rewrite view_bind, recapSummary_no_write, app_nil_l in Hl.
  destruct (snd (recapSummary _ _ _ _ _ _ _ w)) as [aiSummary| |]; [|now left..].
  fold (recapExport options commits repoName from to aiSummary) in Hl.
  pose proof (recapExport_writes options commits repoName from to aiSummary w) as Hw.
  unfold fileWrites in Hw. rewrite Hw in Hl.
  destruct (opt_output options) as [file|]; [|now left].
  destruct (String.eqb file ""); [now left|].
  right. exists file. eexists. split; [reflexivity | exact Hl].
Qed.

(** X24: with [--no-ai] a run of [recap] shows no summary at all, and
    the availability probe is its only call of the [gh] tool (git is
    still asked for the commits). *)
Theorem X24_recap_no_ai (range : string) (options : Options) (w : World) :
  opt_ai options = false ->
  summaries (fst (recap range options w)) = []
  /\ execCalls (fst (recap range options w)) = [probeCall].
Proof.
  intros Hai. split.
  - unfold summaries. rewrite recap_run. cbv zeta.
    destruct (negb (length (split range "..") =? 2)%nat).
    { cbn [fst]. now rewrite flat_map_app. }
    set (from := nth 0 (split range "..") ""). set (to := nth 1 (split range "..") "").
    set (config := loadConfigFrom w (searchPaths None w)).
    destruct (tryCatch _ _ w) as [t o] eqn:Htry. cbn [fst].
    rewrite flat_map_app. cbn [recapPrelude flat_map summaryShown app].
    replace t with (fst (tryCatch (recapBody options config (probeAnswer w) from to)
                                  recapCatch w)) by now rewrite Htry.
    apply mute_tryCatch; [|intros e w'; reflexivity].
    unfold recapBody.
    apply mute_bind; [now apply mute_getCommitsRange | intros commits].
    apply mute_bind; [now apply mute_getRepoName | intros repoName].
    apply mute_bind; [now apply mute_ui | intros _].
    apply mute_bind; [now apply mute_ui | intros _].
    apply mute_if.
    { apply mute_bind; [now apply mute_ui | intros _; now apply mute_ui]. }
    apply mute_bind; [now apply mute_ui | intros _].
    apply mute_bind; [apply mute_liftR | intros groups].
    apply mute_bind; [now apply mute_ui | intros _].
    apply mute_bind; [now apply recapSummary_off | intros aiSummary].
    apply recapExport_no_summary.
  - change execCalls with (flat_map execCall).
    rewrite recap_run. cbv zeta.
    destruct (negb (length (split range "..") =? 2)%nat).
    { cbn [fst]. now rewrite flat_map_app. }
    set (from := nth 0 (split range "..") ""). set (to := nth 1 (split range "..") "").
    set (config := loadConfigFrom w (searchPaths None w)).
    destruct (tryCatch _ _ w) as [t o] eqn:Htry. cbn [fst].
    rewrite flat_map_app. cbn [recapPrelude flat_map execCall app].
    replace t with (fst (tryCatch (recapBody options config (probeAnswer w) from to)
                                  recapCatch w)) by now rewrite Htry.
    rewrite view_tryCatch.
    replace (match snd (recapBody options config (probeAnswer w) from to w) with
             | Thrown e => flat_map execCall (fst (recapCatch e w))
             | _ => []
             end) with (@nil (string * list string))
      by (now destruct (snd (recapBody options config (probeAnswer w) from to w))).
    rewrite app_nil_r.
    destruct (recapBody_calls options config (probeAnswer w) from to w) as [_ Hnone].
    rewrite Hnone; [reflexivity | now rewrite Hai].
Qed.

End RecapMore.

Lemma X18_recap_outside_repository_witness :
  snd (@recap sampleDates sampleExports "v1.0..HEAD" noOptions bareWorld) = Exited 1.
Proof.
  exact (proj1 (@X18_recap_outside_repository sampleDates sampleExports
                  "v1.0..HEAD" "v1.0" "HEAD" noOptions bareWorld eq_refl eq_refl)).
Defined.

Lemma X19_recap_empty_range_witness :
  snd (@recap sampleDates sampleExports "v1.0..HEAD"
              (mkOptions (Some "recap.md") true true) githubWorld)
  = Value tt.
Proof.
  exact (proj1 (@X19_recap_empty_range sampleDates sampleExports
                  "v1.0..HEAD" "v1.0" "HEAD" "myrepo"
                  (mkOptions (Some "recap.md") true true) githubWorld
                  eq_refl eq_refl eq_refl eq_refl)).
Defined.

Lemma X20_recap_gh_calls_witness :
  execCalls (fst (@recap sampleDates sampleExports "v1.0..HEAD"
                         (mkOptions None false false) (worldWithGh "Copilot CLI 1.0")))
  = [probeCall].
Proof.
  apply (proj2 (@X20_recap_gh_calls sampleDates sampleExports "v1.0..HEAD"
                  (mkOptions None false false) (worldWithGh "Copilot CLI 1.0"))).
  left. reflexivity.
Defined.

Lemma X21_recap_local_summary_witness :
  summaries (fst (@recap sampleDates sampleExports "v1.0..HEAD" noOptions
                         (logWorld sampleLog sampleStat sampleShortstat)))
  = [("Recap",
      localSummarize (map (commitOf (logWorld sampleLog sampleStat sampleShortstat))
                          sampleLog))].
Proof.
  apply (@X21_recap_local_summary sampleDates sampleExports
           "v1.0..HEAD" "v1.0" "HEAD" "myrepo").
  - vm_compute; reflexivity.
  - vm_compute; reflexivity.
  - discriminate.
  - vm_compute; reflexivity.
  - repeat (apply List.Forall_cons; [split; vm_compute; discriminate|]). apply List.Forall_nil.
  - vm_compute; reflexivity.
  - left. vm_compute; reflexivity.
Defined.

Lemma X22_recap_copilot_summary_witness :
  summaries (fst (@recap sampleDates sampleExports "v1.0..HEAD" noOptions
                         (copilotWorld sampleLog "Copilot CLI: parser rewritten")))
  = [("AI Recap", "Copilot CLI: parser rewritten")].
Proof.
  apply (@X22_recap_copilot_summary sampleDates sampleExports
           "v1.0..HEAD" "v1.0" "HEAD" "myrepo" "Copilot CLI: parser rewritten"
           (map (commitOf (copilotWorld sampleLog "Copilot CLI: parser rewritten"))
                sampleLog)).
  - vm_compute; reflexivity.
  - vm_compute; reflexivity.
  - discriminate.
  - vm_compute; reflexivity.
  - repeat (apply List.Forall_cons; [split; vm_compute; discriminate|]). apply List.Forall_nil.
  - vm_compute; reflexivity.
  - vm_compute; reflexivity.
  - vm_compute; reflexivity.
  - vm_compute; reflexivity.
  - discriminate.
Defined.

Lemma X24_recap_no_ai_witness :
  summaries (fst (@recap sampleDates sampleExports "v1.0..HEAD"
                         (mkOptions None true false)
                         (copilotWorld sampleLog "Copilot CLI: parser rewritten")))
  = [].
Proof.
  exact (proj1 (@X24_recap_no_ai sampleDates sampleExports "v1.0..HEAD"
                  (mkOptions None true false)
                  (copilotWorld sampleLog "Copilot CLI: parser rewritten") eq_refl)).
Defined.

(* ===================================================================== *)
(** * More about config.ts *)
(* ===================================================================== *)

(** The key of an index is a decimal numeral. *)
Lemma indexKey_numeral (i : nat) (key : string) :
  NilEmpty.uint_of_string key = None -> indexKey i <> key.
Proof.
  intros Hkey E. unfold indexKey in E.
  pose proof (NilEmpty.usu (Nat.to_uint i)) as Hback.
  rewrite E, Hkey in Hback. discriminate.
Qed.

Lemma indexed_lookup {A} (xs : list A) (i : nat) (key : string) :
  NilEmpty.uint_of_string key = None ->
  (list_to_map (indexed i xs) : gmap string A) !! key = None.
Proof.
  intros Hkey. revert i. induction xs as [|x xs IH]; intros i; cbn [indexed].
  - apply lookup_empty.
  - rewrite list_to_map_cons, lookup_insert_ne; [apply IH|].
    now apply indexKey_numeral.
Qed.

(** What is no object has no own property under a key of the
    configuration. *)
Lemma ownProps_non_object (v : JsValue) (key : string) :
  nonObject v = true ->
  NilEmpty.uint_of_string key = None ->
  ownProps v !! key = None.
Proof.
  intros Hv Hkey. destruct v; try discriminate; cbn [ownProps];
    try apply lookup_empty; now apply indexed_lookup.
Qed.

(** X25: a configuration file whose JSON is no object (an array, a
    string, a number, a boolean or [null]) is still the file that counts:
    the search stops at it, and every setting of [DevlogConfig] keeps its
    default value. *)
Theorem X25_loadConfig_non_object (w : World) (cwd : option string)
  (before after : list string) (configPath content : string) (v : JsValue) :
  searchPaths cwd w = (before ++ configPath :: after)%list ->
  Forall (unusable w) before ->
  fs_existsSync w configPath = true ->
  fs_readFileSync w configPath = Ok content ->
  JSON_parse w content = Ok v ->
  nonObject v = true ->
  exists config,
    loadConfig cwd w = ([], Value config)
    /\ forall key, In key recognisedKeys -> prop config key = prop DEFAULT_CONFIG key.
Proof.
  intros Hpaths Hbefore Hexists Hread Hparse Hv.
  exists (spread DEFAULT_CONFIG (ownProps v)). split.
  - rewrite loadConfig_run, Hpaths.
    rewrite (loadConfigFrom_skip w before _ Hbefore). cbn [loadConfigFrom].
    now rewrite (tryConfigPath_some w configPath content v Hexists Hread Hparse).
  - intros key Hkey. unfold prop. rewrite spread_lookup.
    rewrite ownProps_non_object; [reflexivity | exact Hv |].
    cbn [recognisedKeys In] in Hkey.
    destruct Hkey as [<-|[<-|[<-|[<-|[<-|[<-|[]]]]]]]; reflexivity.
Qed.

Lemma X25_loadConfig_non_object_witness :
  exists config,
    loadConfig None arrayConfigWorld = ([], Value config)
    /\ forall key, In key recognisedKeys -> prop config key = prop DEFAULT_CONFIG key.
Proof.
  apply (X25_loadConfig_non_object arrayConfigWorld None []
           ["/work/devlog/.devlogrc.json"; "/home/ada/.devlogrc";
            "/home/ada/.devlogrc.json"]
           "/work/devlog/.devlogrc" "[false, 5]" (JArr [JBool false; JNum 5])).
  - reflexivity.
  - apply List.Forall_nil.
  - reflexivity.
  - reflexivity.
  - reflexivity.
  - reflexivity.
Defined.

(* ===================================================================== *)
(** * The init command *)
(* ===================================================================== *)

Section Init.
Context `{JsonFns}.

(** The run of [init]. *)
Lemma init_run (w : World) :
  init w =
  let configPath := path_join (process_cwd w) ".devlogrc" in
  if fs_existsSync w configPath
  then ([EvUi (printWarning ".devlogrc already exists in this directory.")], Value tt)
  else match fs_writeFileSync w configPath generateSampleConfig with
       | Ok _ => ([EvWriteFile configPath generateSampleConfig;
                   EvUi (printInfo ("Created .devlogrc in " ++ process_cwd w))],
                  Value tt)
       | Throw e => ([EvWriteFile configPath generateSampleConfig], Thrown e)
       end.
Proof.
  unfold init, bind, ask. cbv zeta.
  destruct (fs_existsSync w _); [reflexivity|].
  unfold emit, liftR. destruct (fs_writeFileSync w _ _) as [[]|e]; reflexivity.
Qed.

(** X26: [devlog init] never overwrites a file: whatever it writes is
    the sample configuration, written once to [.devlogrc] in the working
    directory, and only when no such file exists. *)
Theorem X26_init_never_overwrites (w : World) (path content : string) :
  In (EvWriteFile path content) (fst (init w)) ->
  fs_existsSync w path = false
  /\ path = path_join (process_cwd w) ".devlogrc"
  /\ content = generateSampleConfig
  /\ fileWrites (fst (init w)) = [(path, content)].
Proof.
  rewrite init_run. cbv zeta.
  destruct (fs_existsSync w _) eqn:Hexists.
  - intros [Hin|[]]. discriminate.
  - destruct (fs_writeFileSync w _ _) as [[]|e]; cbn [fst In].
    + intros [Hin|[Hin|[]]]; [|discriminate]. injection Hin as <- <-.
      now rewrite Hexists.
    + intros [Hin|[]]. injection Hin as <- <-. now rewrite Hexists.
Qed.

(** X27: the sample configuration changes no setting: when the project
    [.devlogrc] holds what [generateSampleConfig] produces and the parser
    reads that text back as the object it was made from, [loadConfig]
    returns exactly the default configuration. *)
Theorem X27_sample_config_is_default (w : World) :
  fs_existsSync w (path_join (process_cwd w) ".devlogrc") = true ->
  fs_readFileSync w (path_join (process_cwd w) ".devlogrc") = Ok generateSampleConfig ->
  JSON_parse w generateSampleConfig = Ok sampleConfig ->
  loadConfig None w = ([], Value DEFAULT_CONFIG).
Proof.
  intros Hexists Hread Hparse.
  rewrite loadConfig_run. cbn [searchPaths loadConfigFrom].
  rewrite (tryConfigPath_some w _ _ sampleConfig Hexists Hread Hparse).
  now replace (spread DEFAULT_CONFIG (ownProps sampleConfig)) with DEFAULT_CONFIG
    by (vm_compute; reflexivity).
Qed.

End Init.

Lemma X26_init_never_overwrites_witness :
  fileWrites (fst (@init samplePrinter bareWorld))
  = [("/work/devlog/.devlogrc", @generateSampleConfig samplePrinter)].
Proof.
  apply (@X26_init_never_overwrites samplePrinter bareWorld).
  left. reflexivity.
Defined.

Lemma X27_sample_config_is_default_witness :
  loadConfig None initialisedWorld = ([], Value DEFAULT_CONFIG).
Proof.
  apply (@X27_sample_config_is_default samplePrinter initialisedWorld);
    vm_compute; reflexivity.
Defined.

(* ===================================================================== *)
(** * The wrapping of ui.ts *)
(* ===================================================================== *)

(** ** Splitting at a character *)

Section SplitChar.
Variable x : ascii.
#[local] Abbreviation sep := (String x "").

Lemma split_char_cons (c : ascii) (r : string) (cur : list ascii) :
  split_from (String c r) sep 0 cur
  = if Ascii.eqb x c
    then string_of_list_ascii (rev cur) :: split_from r sep 0 []
    else split_from r sep 0 (c :: cur).
Proof.
  cbn [split_from]. rewrite prefix_cons, prefix_nil, andb_true_r.
  reflexivity.
Qed.

Lemma concat_cons (a : string) (l : list string) :
  l <> [] -> String.concat sep (a :: l) = a ++ sep ++ String.concat sep l.
Proof. destruct l; [congruence | reflexivity]. Qed.

(** Joining the parts with the separator gives the text back. *)
Lemma join_split_from (s : string) (cur : list ascii) :
  join sep (split_from s sep 0 cur) = string_of_list_ascii (rev cur) ++ s.
Proof.
  unfold join. revert cur. induction s as [|c s IH]; intros cur.
  - cbn. now rewrite append_nil_r.
  - rewrite split_char_cons. destruct (Ascii.eqb_spec x c) as [<-|Hne].
    + rewrite concat_cons by apply split_from_nonempty. now rewrite IH.
    + rewrite IH. apply string_of_rev_cons.
Qed.

Lemma join_split (s : string) : join sep (split s sep) = s.
Proof. apply join_split_from. Qed.

Lemma lacks_app (y : ascii) (a b : string) :
  lacks y (a ++ b) = lacks y a && lacks y b.
Proof.
  induction a as [|c a IH]; [reflexivity|]. cbn [String.append lacks].
  now rewrite IH, andb_assoc.
Qed.

Lemma lacks_rev_cons (y c : ascii) (cur : list ascii) :
  Ascii.eqb c y = false ->
  lacks y (string_of_list_ascii (rev cur)) = true ->
  lacks y (string_of_list_ascii (rev (c :: cur))) = true.
Proof.
  intros Hc Hcur.
  rewrite <- (append_nil_r (string_of_list_ascii (rev (c :: cur)))).
  rewrite string_of_rev_cons, lacks_app, Hcur. cbn [lacks andb]. now rewrite Hc.
Qed.

(** No part holds the separator. *)
Lemma split_from_lacks_sep (s : string) (cur : list ascii) :
  lacks x (string_of_list_ascii (rev cur)) = true ->
  Forall (fun p => lacks x p = true) (split_from s sep 0 cur).
Proof.
  revert cur. induction s as [|c s IH]; intros cur Hcur.
  - cbn. now apply List.Forall_cons.
  - rewrite split_char_cons. destruct (Ascii.eqb_spec x c) as [<-|Hne].
    + apply List.Forall_cons; [exact Hcur | now apply IH].
    + apply IH, lacks_rev_cons; [|exact Hcur]. apply Ascii.eqb_neq. congruence.
Qed.

(** The parts hold no character the text does not hold. *)
Lemma split_from_lacks (y : ascii) (s : string) (cur : list ascii) :
  lacks y s = true ->
  lacks y (string_of_list_ascii (rev cur)) = true ->
  Forall (fun p => lacks y p = true) (split_from s sep 0 cur).
Proof.
  revert cur. induction s as [|c s IH]; intros cur Hs Hcur.
  - cbn. now apply List.Forall_cons.
  - cbn [lacks] in Hs. apply andb_prop in Hs as [Hc Hs].
    apply negb_true_iff in Hc.
    rewrite split_char_cons. destruct (Ascii.eqb x c).
    + apply List.Forall_cons; [exact Hcur | now apply IH].
    + apply IH; [exact Hs | now apply lacks_rev_cons].
Qed.

(** A text without the separator is its own only part. *)
Lemma split_from_whole (s : string) (cur : list ascii) :
  lacks x s = true ->
  split_from s sep 0 cur = [string_of_list_ascii (rev cur) ++ s].
Proof.
  revert cur. induction s as [|c s IH]; intros cur Hs.
  - cbn. now rewrite append_nil_r.
  - cbn [lacks] in Hs. apply andb_prop in Hs as [Hc Hs].
    apply negb_true_iff in Hc. rewrite split_char_cons, Ascii.eqb_sym, Hc.
    rewrite (IH _ Hs). now rewrite string_of_rev_cons.
Qed.

Lemma split_from_app (a b : string) (cur : list ascii) :
  split_from (a ++ String x b) sep 0 cur
  = (split_from a sep 0 cur ++ split_from b sep 0 [])%list.
Proof.
  revert cur. induction a as [|c a IH]; intros cur.
  - cbn [String.append]. rewrite split_char_cons, Ascii.eqb_refl. reflexivity.
  - cbn [String.append]. rewrite !split_char_cons.
    destruct (Ascii.eqb x c); [|apply IH].
    now rewrite IH.
Qed.

(** The parts of joined texts are the parts of the texts. *)
Lemma split_join (xs : list string) :
  xs <> [] ->
  split (join sep xs) sep = flat_map (fun s => split s sep) xs.
Proof.
  unfold split, join. induction xs as [|a xs IH]; [congruence|]. intros _.
  destruct xs as [|b xs].
  - cbn. now rewrite app_nil_r.
  - rewrite concat_cons by discriminate.
    change (a ++ sep ++ String.concat sep (b :: xs))
      with (a ++ String x (String.concat sep (b :: xs))).
    rewrite split_from_app, IH by discriminate. reflexivity.
Qed.

End SplitChar.

(** ** Wrapping *)

Lemma len_append (a b : string) : len (a ++ b) = (len a + len b)%Z.
Proof. unfold len. rewrite length_append. lia. Qed.

Lemma len_empty (s : string) : (0 <? len s)%Z = negb (String.eqb s "").
Proof. now destruct s. Qed.

(** Every line made by the loop fits or is one word, and holds no line
    feed. *)
Lemma wrapStep_lines (width : Z) (lines : list string) (current word : string) :
  Forall (fun l => fitsOrWord width l /\ lacks "010" l = true) (lines ++ [current]) ->
  lacks " " word = true -> lacks "010" word = true ->
  Forall (fun l => fitsOrWord width l /\ lacks "010" l = true)
         (fst (wrapStep width (lines, current) word)
          ++ [snd (wrapStep width (lines, current) word)]).
Proof.
  intros Hinv Hsp Hlf. unfold wrapStep.
  destruct ((width <? len current + len word + 1)%Z && (0 <? len current)%Z) eqn:Hwrap;
    cbn [fst snd].
  - apply List.Forall_app. split; [exact Hinv|].
    apply List.Forall_cons; [|apply List.Forall_nil]. split; [now right | exact Hlf].
  - apply List.Forall_app in Hinv as [Hlines Hcur].
    apply List.Forall_app. split; [exact Hlines|].
    apply List.Forall_cons; [|apply List.Forall_nil].
    apply List.Forall_inv in Hcur as [Hfit Hclf].
    rewrite <- len_empty.
    destruct (0 <? len current)%Z eqn:Hpos; [|split; [now right | exact Hlf]].
    rewrite andb_true_r in Hwrap. apply Z.ltb_ge in Hwrap.
    split.
    + left. rewrite !len_append. change (len " ") with 1%Z. lia.
    + rewrite !lacks_app, Hclf, Hlf. reflexivity.
Qed.

Lemma wrapLoop_lines (width : Z) (ws : list string) (lines : list string)
  (current : string) :
  Forall (fun l => fitsOrWord width l /\ lacks "010" l = true) (lines ++ [current]) ->
  Forall (fun w => lacks " " w = true) ws ->
  Forall (fun w => lacks "010" w = true) ws ->
  Forall (fun l => fitsOrWord width l /\ lacks "010" l = true)
         (fst (fold_left (wrapStep width) ws (lines, current))
          ++ [snd (fold_left (wrapStep width) ws (lines, current))]).
Proof.
  revert lines current. induction ws as [|w ws IH]; intros lines current Hinv Hsp Hlf.
  - exact Hinv.
  - cbn [fold_left].
    apply List.Forall_cons_iff in Hsp as [Hw Hsp].
    apply List.Forall_cons_iff in Hlf as [Hw' Hlf].
    pose proof (wrapStep_lines width lines current w Hinv Hw Hw') as Hstep.
    destruct (wrapStep width (lines, current) w) as [lines' current'].
    now apply IH.
Qed.

(** The lines of a wrapped line. *)
Lemma wrapLine_lines (width : Z) (line : string) :
  lacks "010" line = true ->
  Forall (fitsOrWord width) (split (wrapLine width line) LF).
Proof.
  intros Hline. unfold wrapLine, LF.
  destruct (len line <=? width)%Z eqn:Hfit.
  - unfold split. rewrite (split_from_whole "010" line [] Hline).
    apply List.Forall_cons; [|apply List.Forall_nil]. left. now apply Z.leb_le.
  - cbv zeta.
    pose proof (wrapLoop_lines width (split line " ") [] "") as Hloop.
    destruct (fold_left (wrapStep width) (split line " ") ([], "")) as [lines current].
    cbn [fst snd] in Hloop.
    assert (Hall : Forall (fun l => fitsOrWord width l /\ lacks "010" l = true)
                          (lines ++ [current])).
    { apply Hloop.
      - apply List.Forall_cons; [|apply List.Forall_nil]. split; [now right | reflexivity].
      - now apply split_from_lacks_sep.
      - now apply split_from_lacks. }
    clear Hloop.
    assert (Hfinal : Forall (fun l => fitsOrWord width l /\ lacks "010" l = true)
              (if negb (String.eqb current "") then (lines ++ [current])%list
               else lines)).
    { destruct (negb (String.eqb current "")); [exact Hall|].
      now apply List.Forall_app in Hall as [Hlines _]. }
    clear Hall.
    destruct (if negb (String.eqb current "") then (lines ++ [current])%list else lines)
      as [|l ls] eqn:Hls.
    + cbn. apply List.Forall_cons; [|apply List.Forall_nil]. now right.
    + rewrite split_join by discriminate.
      clear Hls. induction Hfinal as [|l' ls' [Hl Hlf] _ IH]; [apply List.Forall_nil|].
      cbn [flat_map]. apply List.Forall_app. split; [|exact IH].
      unfold split. rewrite (split_from_whole "010" l' [] Hlf).
      now apply List.Forall_cons.
Qed.

(** X29: every line of the text [wrapText] returns fits the width,
    unless it is a single word with no space at which it could have been
    broken. *)
Theorem X29_wrapText_lines (text : string) (width : Z) :
  Forall (fitsOrWord width) (split (wrapText text width) LF).
Proof.
  unfold wrapText. change LF with (String "010"%char "").
  rewrite split_join
    by (destruct (split text (String "010"%char "")) eqn:E;
        [now apply split_from_nonempty in E | discriminate]).
  pose proof (split_from_lacks_sep "010" text [] eq_refl) as Hparts.
  fold (split text (String "010"%char "")) in Hparts.
  induction Hparts as [|line rest Hline _ IH]; [apply List.Forall_nil|].
  cbn [map flat_map]. apply List.Forall_app. split; [|exact IH].
  now apply wrapLine_lines.
Qed.

(** X28: a text all of whose lines fit the width comes back from
    [wrapText] unchanged. *)
Theorem X28_wrapText_fitting (text : string) (width : Z) :
  Forall (fun line => (len line <= width)%Z) (split text LF) ->
  wrapText text width = text.
Proof.
  intros Hfit. unfold wrapText.
  replace (map (wrapLine width) (split text LF)) with (split text LF).
  - apply (join_split "010").
  - induction Hfit as [|line rest Hline _ IH]; [reflexivity|].
    cbn [map]. rewrite <- IH. unfold wrapLine.
    apply Z.leb_le in Hline. now rewrite Hline.
Qed.

Lemma X28_wrapText_fitting_witness :
  wrapText (localSummarize sampleHistory) (MAX_WIDTH - 6) = localSummarize sampleHistory.
Proof.
  apply X28_wrapText_fitting.
  vm_compute. repeat (apply List.Forall_cons; [discriminate|]). apply List.Forall_nil.
Defined.

(** ** The words of a text *)

Lemma words_from_app (a r : string) (b : ascii) (cur : list ascii) :
  isBreak b = true ->
  words_from (a ++ String b r) cur = (words_from a cur ++ words_from r [])%list.
Proof.
  intros Hb. revert cur. induction a as [|c a IH]; intros cur; cbn [String.append words_from].
  - now rewrite Hb.
  - destruct (isBreak c); [|apply IH]. now rewrite IH, List.app_assoc.
Qed.

Lemma words_app (a r : string) (b : ascii) :
  isBreak b = true -> words (a ++ String b r) = (words a ++ words r)%list.
Proof. intros Hb. now apply words_from_app. Qed.

Lemma words_join (b : ascii) (xs : list string) :
  isBreak b = true ->
  words (join (String b "") xs) = flat_map words xs.
Proof.
  intros Hb. unfold join. induction xs as [|a xs IH]; [reflexivity|].
  destruct xs as [|a' xs].
  - cbn. now rewrite app_nil_r.
  - rewrite concat_cons by discriminate.
    change (a ++ String b "" ++ String.concat (String b "") (a' :: xs))
      with (a ++ String b (String.concat (String b "") (a' :: xs))).
    rewrite words_app, IH by exact Hb. reflexivity.
Qed.

(** The loop loses no word. *)
Lemma wrapLoop_words (width : Z) (ws lines : list string) (current : string) :
  let st := fold_left (wrapStep width) ws (lines, current) in
  (flat_map words (fst st) ++ words (snd st))%list
  = ((flat_map words lines ++ words current) ++ flat_map words ws)%list.
Proof.
  cbv zeta. revert lines current.
  induction ws as [|w ws IH]; intros lines current; cbn [fold_left flat_map].
  - now rewrite app_nil_r.
  - destruct (wrapStep width (lines, current) w) as [lines' current'] eqn:Hstep.
    rewrite IH. rewrite (List.app_assoc _ (words w)). f_equal.
    unfold wrapStep in Hstep.
    destruct ((width <? len current + len w + 1)%Z && (0 <? len current)%Z);
      injection Hstep as <- <-.
    + now rewrite flat_map_app; cbn [flat_map]; rewrite app_nil_r.
    + destruct (String.eqb_spec current "") as [->|Hne]; cbn [negb].
      * change (words "") with (@nil string). now rewrite app_nil_r.
      * change (current ++ " " ++ w) with (current ++ String " " w).
        rewrite words_app by reflexivity. now rewrite List.app_assoc.
Qed.

Lemma wrapLine_words (width : Z) (line : string) :
  words (wrapLine width line) = words line.
Proof.
  unfold wrapLine. destruct (len line <=? width)%Z; [reflexivity|]. cbv zeta.
  pose proof (wrapLoop_words width (split line " ") [] "") as Hloop.
  cbv zeta in Hloop.
  destruct (fold_left (wrapStep width) (split line " ") ([], "")) as [lines current].
  cbn [fst snd flat_map app] in Hloop.
  change (words "") with (@nil string) in Hloop. cbn [app] in Hloop.
  change LF with (String "010"%char ""). rewrite words_join by reflexivity.
  replace (words line) with (words (join " " (split line " ")))
    by now rewrite (join_split " ").
  rewrite words_join by reflexivity.
  rewrite <- Hloop.
  destruct (String.eqb_spec current "") as [->|Hne]; cbn [negb].
  - now rewrite app_nil_r.
  - rewrite flat_map_app. cbn [flat_map]. now rewrite app_nil_r.
Qed.

(** X30: [wrapText] loses, changes and reorders no word: the words of
    its result, read between spaces and line feeds, are the words of the
    text. *)
Theorem X30_wrapText_keeps_words (text : string) (width : Z) :
  words (wrapText text width) = words text.
Proof.
  unfold wrapText. change LF with (String "010"%char "").
  rewrite words_join by reflexivity.
  replace (words text)
    with (words (join (String "010"%char "") (split text (String "010"%char ""))))
    by now rewrite (join_split "010").
  rewrite words_join by reflexivity.
  induction (split text (String "010"%char "")) as [|line rest IH]; [reflexivity|].
  cbn [map flat_map]. now rewrite wrapLine_words, IH.
Qed.
